(** * xsd-zod: the schema model builder, the mappers and the dependency orderer

    A shallow embedding of the TypeScript sources of xsd-zod:
    - the namespace helpers ([extractNamespaces], [stripNamespace],
      [getTypeValue], [getAsArray]) of [parser/namespace],
    - the parser ([parseXsd] and the functions below it),
    - the mappers ([mapElement], [mapAttribute], [mapComplexType]),
    - the validator generator and its two topological sorts.

    The XML tokenizer (fast-xml-parser) and the change-case package are
    external: the parser is modelled on the tree the tokenizer returns, and
    the three case functions are parameters of the mappers.  The parser
    carries its exceptions in its result; the mappers and the generators
    are given by the value they return, beside the condition under which
    they throw. *)

From Stdlib Require Import String Ascii List ZArith Lia Bool DecimalString.
From stdpp Require Import gmap strings list.
Import ListNotations.
Local Open Scope string_scope.
Local Open Scope list_scope.

(** ** JavaScript strings *)

Module Js.

(** [s.startsWith(p)] *)
Definition startsWith (s p : string) : bool := String.prefix p s.

(** [s.includes(p)] *)
Definition includes (s p : string) : bool :=
  match String.index 0 p s with Some _ => true | None => false end.

(** [s.substring(n)] for [n] a literal index *)
Fixpoint substringFrom (n : nat) (s : string) : string :=
  match n, s with
  | O, _ => s
  | S n', String _ s' => substringFrom n' s'
  | S _, EmptyString => EmptyString
  end.

(** [s.indexOf(":")], [None] standing for -1 *)
Fixpoint indexOfColon (s : string) : option nat :=
  match s with
  | EmptyString => None
  | String c s' =>
      if Ascii.eqb c ":" then Some 0%nat
      else match indexOfColon s' with
           | Some i => Some (S i)
           | None => None
           end
  end.

(** [s.endsWith(p)] *)
Definition endsWith (s p : string) : bool :=
  let n := String.length s in
  let m := String.length p in
  Nat.leb m n && String.eqb (String.substring (n - m) m s) p.

(** A string is falsy exactly when it is empty. *)
Definition nonEmpty (s : string) : bool :=
  match s with EmptyString => false | _ => true end.

(** Truthiness of a [string | undefined]. *)
Definition truthyStr (o : option string) : bool :=
  match o with Some s => nonEmpty s | None => false end.

(** Template-literal rendering of a [string | undefined]. *)
Definition render (o : option string) : string :=
  match o with Some s => s | None => "undefined" end.

End Js.

Set Warnings "-register-all".

(** ** The tokenizer's tree

    fast-xml-parser is configured with [ignoreAttributes: false],
    [attributeNamePrefix: ''] and [textNodeName: '_text']: an XML element
    becomes an object whose keys are its attribute names and the tag names of
    its children; an attribute is a string; a tag that occurs once holds the
    child itself and a repeated tag holds the array of the children; an
    element with neither attributes nor children is the bare string of its
    text (the empty string for an empty element).

    The fields of an object are kept in enumeration order.  With
    [parseTagValue] left on, text that reads as a number or as [true] or
    [false] arrives as a number or a boolean.  A number is kept as the text
    [String(n)] that a template literal gives for it, which determines it up
    to the sign of zero. *)

Inductive JsVal : Type :=
| JStr (s : string)
| JNum (text : string)
| JBool (b : bool)
| JArr (items : list JsVal)
| JObj (fields : list (string * JsVal)).

(** Outcome of evaluating code that may throw.  [OutOfFuel] belongs to the
    model only: the recursive parser functions carry a depth bound. *)
Inductive result (A : Type) : Type :=
| Ok (a : A)
| TypeError
| OutOfFuel.
Arguments Ok {A} a.
Arguments TypeError {A}.
Arguments OutOfFuel {A}.

Definition bind {A B : Type} (r : result A) (k : A -> result B) : result B :=
  match r with
  | Ok a => k a
  | TypeError => TypeError
  | OutOfFuel => OutOfFuel
  end.

Notation "'let*' x ':=' r 'in' k" := (bind r (fun x => k))
  (at level 10, x pattern, r at level 200, k at level 200).

Module Tree.

Fixpoint assoc (k : string) (fs : list (string * JsVal)) : option JsVal :=
  match fs with
  | [] => None
  | (k', v) :: fs' => if String.eqb k k' then Some v else assoc k fs'
  end.

(** [!v] is false for objects, arrays, non-empty strings, [true] and the
    numbers other than 0 and NaN. *)
Definition truthy (v : JsVal) : bool :=
  match v with
  | JStr s => Js.nonEmpty s
  | JNum text => negb (String.eqb text "0" || String.eqb text "NaN")
  | JBool b => b
  | _ => true
  end.

Definition truthyOpt (o : option JsVal) : bool :=
  match o with Some v => truthy v | None => false end.

(** [v[k]] for the keys the parser reads: the names of the XSD tags and of
    the XSD attributes.  A number and a boolean have none of them.  A string
    has none of them but [fixed], an inherited method that [parseAttributes]
    copies from an empty [attribute] node and that is not represented; an
    array has none of them but [length], which only [parseFacetValue] asks
    for and whose value, a number, has no [value]: the outcome is that of an
    absent key. *)
Definition prop (v : JsVal) (k : string) : option JsVal :=
  match v with
  | JObj fs => assoc k fs
  | _ => None
  end.

(** Nesting depth, the bound on the recursion of the parser. *)
Fixpoint depth (v : JsVal) : nat :=
  match v with
  | JStr _ | JNum _ | JBool _ => 0
  | JArr items =>
      S ((fix go (l : list JsVal) : nat :=
            match l with
            | [] => 0
            | x :: l' => Nat.max (depth x) (go l')
            end) items)
  | JObj fields =>
      S ((fix go (l : list (string * JsVal)) : nat :=
            match l with
            | [] => 0
            | (_, x) :: l' => Nat.max (depth x) (go l')
            end) fields)
  end.

(** [Object.keys(v)] as far as the parser looks at them: the indices of a
    string or of an array match none of its tests. *)
Definition keys (v : JsVal) : list string :=
  match v with
  | JObj fs => map fst fs
  | _ => []
  end.

(** An attribute read such as [el.name].  With [parseAttributeValue: false]
    every XML attribute arrives as a string.  A value of another shape under
    an attribute's key, which only a child element bearing the attribute's
    name can produce, is read as absent here, whereas the code passes it on
    ([stripNamespace] throws on an object, [parseInt] reads the text of an
    array, [attr.use || 'optional'] keeps an object): the parser is
    followed on the nodes whose attribute keys hold text, and the
    properties that read an attribute say so with [textUnder]. *)
Definition attr (v : JsVal) (k : string) : option string :=
  match prop v k with
  | Some (JStr s) => Some s
  | _ => None
  end.

(** The key [k] of [v], if there is one, holds a string. *)
Definition textUnder (k : string) (v : JsVal) : bool :=
  match prop v k with
  | Some (JStr _) | None => true
  | Some _ => false
  end.

(** [k in v], for the same keys: a [TypeError] when [v] is a primitive (a
    string, a number or a boolean). *)
Definition hasKey (k : string) (v : JsVal) : result bool :=
  match v with
  | JStr _ | JNum _ | JBool _ => TypeError
  | JArr _ => Ok false
  | JObj fs => Ok (match assoc k fs with Some _ => true | None => false end)
  end.

End Tree.

(** ** Namespace helpers (parser/namespace) *)

Definition XSD_NAMESPACE_URI : string := "http://www.w3.org/2001/XMLSchema".

Record NamespaceContext : Type := mkNamespaceContext {
  namespaceMappings : gmap (option string) JsVal;
  xsdPrefix : option string
}.

Module SplitRe.
(** The regular expression [/\/?@_xmlns:?/] of [extractNamespaces], run by
    [key.split(re)[1]]. *)

Fixpoint stripPrefix (p s : list ascii) : option (list ascii) :=
  match p, s with
  | [], _ => Some s
  | a :: p', b :: s' => if Ascii.eqb a b then stripPrefix p' s' else None
  | _ :: _, [] => None
  end.

Definition atXmlns : list ascii := list_ascii_of_string "@_xmlns".

(** The text left after a match anchored at the head of [s]. *)
Definition matchHere (s : list ascii) : option (list ascii) :=
  let afterSlash :=
    match s with
    | c :: s' => if Ascii.eqb c "/" then
                   match stripPrefix atXmlns s' with
                   | Some r => Some r
                   | None => stripPrefix atXmlns s
                   end
                 else stripPrefix atXmlns s
    | [] => None
    end in
  match afterSlash with
  | Some (c :: r) => if Ascii.eqb c ":" then Some r else Some (c :: r)
  | Some [] => Some []
  | None => None
  end.

(** The text before the leftmost match, and what follows that match. *)
Fixpoint untilMatch (s : list ascii) : list ascii * option (list ascii) :=
  match matchHere s with
  | Some r => ([], Some r)
  | None =>
      match s with
      | [] => ([], None)
      | c :: s' => let '(pre, r) := untilMatch s' in (c :: pre, r)
      end
  end.

(** [key.split(re)[1]] *)
Definition second (key : string) : option string :=
  match untilMatch (list_ascii_of_string key) with
  | (_, Some r) => Some (string_of_list_ascii (fst (untilMatch r)))
  | (_, None) => None
  end.

End SplitRe.

Definition isPrefixedDecl (key : string) : bool :=
  Js.startsWith key "xmlns:" || Js.startsWith key "@_xmlns:"
  || Js.includes key "/xmlns:" || Js.includes key "/@_xmlns:".

Definition declPrefix (key : string) : option string :=
  if Js.startsWith key "@_xmlns:" then Some (Js.substringFrom 8 key)
  else if Js.includes key "/xmlns:" || Js.includes key "/@_xmlns:"
       then SplitRe.second key
       else Some (Js.substringFrom 6 key).

Definition isXsdUri (uri : JsVal) : bool :=
  match uri with
  | JStr s => String.eqb s XSD_NAMESPACE_URI
  | _ => false
  end.

(** One turn of the [for (const key in element)] loop. *)
Definition nsStep (ctx : NamespaceContext) (kv : string * JsVal) : NamespaceContext :=
  let '(key, uri) := kv in
  if String.eqb key "xmlns" then
    mkNamespaceContext (<[Some "" := uri]> (namespaceMappings ctx)) (xsdPrefix ctx)
  else if isPrefixedDecl key then
    let prefix := declPrefix key in
    mkNamespaceContext (<[prefix := uri]> (namespaceMappings ctx))
      (if isXsdUri uri then prefix else xsdPrefix ctx)
  else ctx.

(** [extractNamespaces].  The enumerable keys of a string or of an array are
    indices, which are no namespace declarations. *)
Definition extractNamespaces (element : JsVal) : NamespaceContext :=
  let init := mkNamespaceContext ∅ None in
  if negb (Tree.truthy element) then init
  else match element with
       | JObj fs => fold_left nsStep fs init
       | _ => init
       end.

Definition stripNamespace (typeName : string) : string :=
  if negb (Js.nonEmpty typeName) then ""
  else match Js.indexOfColon typeName with
       | Some i => Js.substringFrom (S i) typeName
       | None => typeName
       end.

Definition getTypeValue (container : JsVal) (elementName : string)
    (xsdPrefix : option string) : result (option JsVal) :=
  if negb (Tree.truthy container) then Ok None
  else
    let* here := Tree.hasKey elementName container in
    if here then Ok (Tree.prop container elementName)
    else if Js.truthyStr xsdPrefix then
      let prefixedName := Js.render xsdPrefix +:+ ":" +:+ elementName in
      let* there := Tree.hasKey prefixedName container in
      if there then Ok (Tree.prop container prefixedName) else Ok None
    else Ok None.

Definition getAsArray (container : JsVal) (elementName : string)
    (xsdPrefix : option string) : result (list JsVal) :=
  let* value := getTypeValue container elementName xsdPrefix in
  match value with
  | Some (JArr items) => Ok items
  | Some v => Ok [v]
  | None => Ok []
  end.

(** The names that [isXsdType] takes for built-in. *)
Definition builtInTypes : list string :=
  ["string"; "int"; "integer"; "decimal"; "float"; "double"; "boolean";
   "date"; "dateTime"; "time"; "anyURI"; "base64Binary"; "hexBinary";
   "duration"; "gDay"; "gMonth"; "gMonthDay"; "gYear"; "gYearMonth"; "ID";
   "IDREF"; "ENTITY"; "NMTOKEN"; "normalizedString"; "token"; "language";
   "Name"; "NCName"; "anyType"; "anySimpleType"; "positiveInteger";
   "nonNegativeInteger"; "negativeInteger"; "nonPositiveInteger"; "long";
   "short"; "byte"; "unsignedLong"; "unsignedInt"; "unsignedShort";
   "unsignedByte"; "QName"; "NOTATION"].

Definition isXsdType (typeName : string) (xsdPrefix : option string) : bool :=
  if negb (Js.nonEmpty typeName) then false
  else if Js.truthyStr xsdPrefix
          && Js.startsWith typeName (Js.render xsdPrefix +:+ ":")
  then true
  else existsb (String.eqb (stripNamespace typeName)) builtInTypes.

(** The text [String(v)] of a tokenizer value, which a template literal and
    [parseInt] read. *)
Fixpoint renderVal (v : JsVal) : string :=
  match v with
  | JStr s => s
  | JNum text => text
  | JBool b => if b then "true" else "false"
  | JObj _ => "[object Object]"
  | JArr items =>
      String.concat ","
        ((fix go (l : list JsVal) : list string :=
            match l with
            | [] => []
            | x :: l' => renderVal x :: go l'
            end) items)
  end.

(** ** Numbers read from the tree *)

(** What [parseInt] returns: [NaN] or an integer.  (The rounding of integers
    beyond 2^53 to a double is not modelled.) *)
Inductive JsInt : Type :=
| NaN
| Int (z : Z).

(** The number [parseFloat(literal)], kept as the text it was read from. *)
Inductive JsFloat : Type :=
| ParseFloat (literal : string).

Module ParseInt.

Definition isWhite (c : ascii) : bool :=
  let n := nat_of_ascii c in
  (Nat.leb 9 n && Nat.leb n 13) || Nat.eqb n 32.

Fixpoint skipWhite (s : list ascii) : list ascii :=
  match s with
  | c :: s' => if isWhite c then skipWhite s' else s
  | [] => []
  end.

Definition digitVal (radix : Z) (c : ascii) : option Z :=
  let n := Z.of_nat (nat_of_ascii c) in
  let v :=
    if (48 <=? n)%Z && (n <=? 57)%Z then Some (n - 48)%Z
    else if (97 <=? n)%Z && (n <=? 122)%Z then Some (n - 87)%Z
    else if (65 <=? n)%Z && (n <=? 90)%Z then Some (n - 55)%Z
    else None in
  match v with
  | Some d => if (d <? radix)%Z then Some d else None
  | None => None
  end.

(** The value of the longest prefix of digits, [None] when it is empty. *)
Fixpoint digits (radix : Z) (acc : option Z) (s : list ascii) : option Z :=
  match s with
  | c :: s' =>
      match digitVal radix c with
      | Some d =>
          digits radix (Some (radix * (match acc with Some a => a | None => 0 end) + d)%Z) s'
      | None => acc
      end
  | [] => acc
  end.

Definition parseInt (s : string) : JsInt :=
  let s1 := skipWhite (list_ascii_of_string s) in
  let '(neg, s2) :=
    match s1 with
    | c :: r => if Ascii.eqb c "-" then (true, r)
                else if Ascii.eqb c "+" then (false, r)
                else (false, s1)
    | [] => (false, s1)
    end in
  let '(radix, s3) :=
    match s2 with
    | c0 :: cx :: r =>
        if Ascii.eqb c0 "0" && (Ascii.eqb cx "x" || Ascii.eqb cx "X")
        then (16%Z, r) else (10%Z, s2)
    | _ => (10%Z, s2)
    end in
  match digits radix None s3 with
  | Some n => Int (if neg then (- n)%Z else n)
  | None => NaN
  end.

End ParseInt.

(** ** The schema model (parser/types) *)

Inductive MaxOccurs : Type :=
| Unbounded
| MaxOccursNum (n : JsInt).

Record XsdRestriction : Type := mkRestriction {
  base : string;
  enumerations : option (list JsVal);
  minLength : option JsInt;
  maxLength : option JsInt;
  pattern : option string;
  minInclusive : option JsFloat;
  maxInclusive : option JsFloat;
  minExclusive : option JsFloat;
  maxExclusive : option JsFloat;
  totalDigits : option JsInt;
  fractionDigits : option JsInt;
  length_ : option JsInt;
  whiteSpace : option string
}.

Record XsdSimpleType : Type := mkSimpleType {
  st_name : option string;
  restriction : XsdRestriction
}.

Record XsdAttribute : Type := mkAttribute {
  attr_name : option string;
  attr_type : option string;
  use : option string;
  default : option string;
  fixed : option string;
  attr_simpleType : option XsdSimpleType
}.

Inductive XsdElement : Type := mkElement {
  el_name : option string;
  el_type : option string;
  el_complexType : option XsdComplexType;
  el_simpleType : option XsdSimpleType;
  el_attributes : list XsdAttribute;
  minOccurs : option JsInt;
  maxOccurs : option MaxOccurs;
  isRef : option bool;
  ref : option string;
  nillable : option bool
}
with XsdComplexType : Type := mkComplexType {
  ct_name : option string;
  sequence : option (list XsdElement);
  choice : option (list XsdElement);
  all : option (list XsdElement);
  ct_attributes : list XsdAttribute;
  extension : option XsdExtension;
  content : list XsdElement
}
with XsdExtension : Type := mkExtension {
  ext_base : option string;
  ext_sequence : option (list XsdElement);
  ext_attributes : list XsdAttribute
}.

Record XsdSchema : Type := mkSchema {
  targetNamespace : option string;
  elementFormDefault : option string;
  elements : list XsdElement;
  complexTypes : list XsdComplexType;
  simpleTypes : list XsdSimpleType
}.

(** ** The parser *)

Definition optMap {A B : Type} (f : A -> B) (o : option A) : option B :=
  match o with Some a => Some (f a) | None => None end.

Definition present {A : Type} (o : option A) : bool :=
  match o with Some _ => true | None => false end.

(** [for (const x of xs) { ... }] over a body that may throw, threading the
    state [acc]. *)
Fixpoint forOf {A S : Type} (body : S -> A -> result S) (xs : list A) (acc : S)
    : result S :=
  match xs with
  | [] => Ok acc
  | x :: xs' => let* acc' := body acc x in forOf body xs' acc'
  end.

Definition parseFacetValue {A : Type} (restriction : JsVal) (facetName : string)
    (parser : string -> A) (xsdPrefix : option string) : result (option A) :=
  let* facet := getTypeValue restriction facetName xsdPrefix in
  match facet with
  | Some f =>
      if Tree.truthy f then Ok (optMap parser (Tree.attr f "value"))
      else Ok None
  | None => Ok None
  end.

(** [e.value || e] *)
Definition enumerationValue (e : JsVal) : JsVal :=
  match Tree.attr e "value" with
  | Some v => if Js.nonEmpty v then JStr v else e
  | None => e
  end.

Definition parseEnumerations (restriction : JsVal) (xsdPrefix : option string)
    : result (option (list JsVal)) :=
  let* enumerationArray := getAsArray restriction "enumeration" xsdPrefix in
  match enumerationArray with
  | [] => Ok None
  | _ => Ok (Some (map enumerationValue enumerationArray))
  end.

Definition parseSimpleType (st : JsVal) (xsdPrefix : option string)
    (name : option string) : result (option XsdSimpleType) :=
  if negb (Tree.truthy st) then Ok None
  else
    let* found := getTypeValue st "restriction" xsdPrefix in
    let restriction :=
      match found with
      | Some r => if Tree.truthy r then r else JObj []
      | None => JObj []
      end in
    let baseText :=
      match Tree.attr restriction "base" with
      | Some b => b
      | None => ""
      end in
    let* enums := parseEnumerations restriction xsdPrefix in
    let* minLen := parseFacetValue restriction "minLength" ParseInt.parseInt xsdPrefix in
    let* maxLen := parseFacetValue restriction "maxLength" ParseInt.parseInt xsdPrefix in
    let* pat := parseFacetValue restriction "pattern" (fun v => v) xsdPrefix in
    let* minInc := parseFacetValue restriction "minInclusive" ParseFloat xsdPrefix in
    let* maxInc := parseFacetValue restriction "maxInclusive" ParseFloat xsdPrefix in
    let* minExc := parseFacetValue restriction "minExclusive" ParseFloat xsdPrefix in
    let* maxExc := parseFacetValue restriction "maxExclusive" ParseFloat xsdPrefix in
    let* total := parseFacetValue restriction "totalDigits" ParseInt.parseInt xsdPrefix in
    let* fraction := parseFacetValue restriction "fractionDigits" ParseInt.parseInt xsdPrefix in
    let* len := parseFacetValue restriction "length" ParseInt.parseInt xsdPrefix in
    let* white := parseFacetValue restriction "whiteSpace" (fun v => v) xsdPrefix in
    Ok (Some (mkSimpleType name
      (mkRestriction (stripNamespace baseText) enums minLen maxLen pat
         minInc maxInc minExc maxExc total fraction len white))).

Definition parseAttributes (parent : JsVal) (xsdPrefix : option string)
    : result (list XsdAttribute) :=
  let* attrArray := getAsArray parent "attribute" xsdPrefix in
  forOf (fun attributes a =>
    let* simpleTypeValue := getTypeValue a "simpleType" xsdPrefix in
    let* st :=
      match simpleTypeValue with
      | Some v =>
          if Tree.truthy v then parseSimpleType v xsdPrefix (Tree.attr a "name")
          else Ok None
      | None => Ok None
      end in
    Ok (attributes ++ [mkAttribute
      (Tree.attr a "name")
      (Tree.attr a "type")
      (Some (match Tree.attr a "use" with
             | Some u => if Js.nonEmpty u then u else "optional"
             | None => "optional"
             end))
      (Tree.attr a "default")
      (Tree.attr a "fixed")
      st])) attrArray [].

(** [Object.keys(complexType).length]: the literal of [parseComplexType] has
    the keys [name], [attributes] and [content]; the others exist once they
    have been assigned. *)
Definition objectKeysLength (ct : XsdComplexType) : nat :=
  3 + (if present (sequence ct) then 1 else 0)
    + (if present (choice ct) then 1 else 0)
    + (if present (all ct) then 1 else 0)
    + (if present (extension ct) then 1 else 0).

Definition pushIf {A : Type} (o : option A) (l : list A) : list A :=
  match o with Some a => l ++ [a] | None => l end.

(** [parseInt(v)], which reads the text of whatever it is given. *)
Definition parseIntOf (v : JsVal) : JsInt := ParseInt.parseInt (renderVal v).

(** [el.maxOccurs === 'unbounded' ? 'unbounded'
     : el.maxOccurs !== undefined ? parseInt(el.maxOccurs) : undefined] *)
Definition parseMaxOccurs (el : JsVal) : option MaxOccurs :=
  match Tree.prop el "maxOccurs" with
  | Some (JStr m) => if String.eqb m "unbounded" then Some Unbounded
                     else Some (MaxOccursNum (ParseInt.parseInt m))
  | Some v => Some (MaxOccursNum (parseIntOf v))
  | None => None
  end.

Definition orNil {A : Type} (o : option (list A)) : list A :=
  match o with Some l => l | None => [] end.

(** [if (node) { parsed = parseNestedElements(node, complexType, xsdPrefix) }]:
    the parsed list, if any, and the parent's [choice] afterwards. *)
Definition compositor
    (parseNested : JsVal -> option (list XsdElement) ->
                   result (list XsdElement * option (list XsdElement)))
    (node : option JsVal) (parentChoice : option (list XsdElement))
    : result (option (list XsdElement) * option (list XsdElement)) :=
  match node with
  | Some n =>
      if Tree.truthy n then
        let* r := parseNested n parentChoice in
        Ok (Some (fst r), snd r)
      else Ok (None, parentChoice)
  | None => Ok (None, parentChoice)
  end.

(** The body of [for (const choiceElement of choiceElements)]. *)
Definition mergeChoiceElement (acc : list XsdElement * option (list XsdElement))
    (choiceElement : XsdElement) : list XsdElement * option (list XsdElement) :=
  (match el_complexType choiceElement with
   | Some c => if Nat.ltb 1 (objectKeysLength c)
               then fst acc ++ [choiceElement] else fst acc
   | None => fst acc
   end,
   match snd acc with
   | Some c => Some (c ++ [choiceElement])
   | None => None
   end).

(** [parseElement], [parseComplexType] and [parseNestedElements].  The
    parent's [choice] array, which [parseNestedElements] creates and fills
    through its [parentComplexType] argument, is passed in and returned
    beside the result; every call in the source passes the parent.  [fuel]
    bounds the nesting depth. *)
Fixpoint parseElement (fuel : nat) (el : JsVal) (xsdPrefix : option string)
    {struct fuel} : result (option XsdElement) :=
  match fuel with
  | O => OutOfFuel
  | S fuel' =>
      if negb (Tree.truthy el) then Ok None
      else
        let* attributes := parseAttributes el xsdPrefix in
        let* complexType := getTypeValue el "complexType" xsdPrefix in
        let* ct :=
          match complexType with
          | Some c =>
              if Tree.truthy c
              then parseComplexType fuel' c xsdPrefix (Tree.attr el "name")
              else Ok None
          | None => Ok None
          end in
        let* simpleType := getTypeValue el "simpleType" xsdPrefix in
        let* st :=
          match simpleType with
          | Some s =>
              if Tree.truthy s
              then parseSimpleType s xsdPrefix (Tree.attr el "name")
              else Ok None
          | None => Ok None
          end in
        Ok (Some (mkElement
          (Tree.attr el "name")
          (match Tree.attr el "type" with
           | Some t => if Js.nonEmpty t then Some (stripNamespace t) else None
           | None => None
           end)
          ct st attributes
          (optMap parseIntOf (Tree.prop el "minOccurs"))
          (parseMaxOccurs el)
          (Some (Js.truthyStr (Tree.attr el "ref")))
          (Tree.attr el "ref")
          (Some (match Tree.prop el "nillable" with
                 | Some (JStr n) => String.eqb n "true"
                 | Some (JBool b) => b
                 | _ => false
                 end))))
  end

with parseComplexType (fuel : nat) (ct : JsVal) (xsdPrefix : option string)
    (name : option string) {struct fuel} : result (option XsdComplexType) :=
  match fuel with
  | O => OutOfFuel
  | S fuel' =>
      if negb (Tree.truthy ct) then Ok None
      else
        let nested := compositor (fun n c => parseNestedElements fuel' n c xsdPrefix) in
        let* attributes := parseAttributes ct xsdPrefix in
        let* sequenceNode := getTypeValue ct "sequence" xsdPrefix in
        let* seqR := nested sequenceNode None in
        let* choiceNode := getTypeValue ct "choice" xsdPrefix in
        let* choiceR := nested choiceNode (snd seqR) in
        let choice1 :=
          match fst choiceR with
          | Some parsedChoice => Some parsedChoice
          | None => snd choiceR
          end in
        let* allNode := getTypeValue ct "all" xsdPrefix in
        let* allR := nested allNode choice1 in
        let* complexContent := getTypeValue ct "complexContent" xsdPrefix in
        let* simpleContent := getTypeValue ct "simpleContent" xsdPrefix in
        let wrapper :=
          if Tree.truthyOpt complexContent then complexContent
          else if Tree.truthyOpt simpleContent then simpleContent
          else None in
        let* extR :=
          match wrapper with
          | Some w =>
              let* ext := getTypeValue w "extension" xsdPrefix in
              match ext with
              | Some e =>
                  if Tree.truthy e then
                    let* extAttributes := parseAttributes e xsdPrefix in
                    let* extSequence := getTypeValue e "sequence" xsdPrefix in
                    let* r := nested extSequence (snd allR) in
                    Ok (Some (mkExtension
                                (match Tree.attr e "base" with
                                 | Some b => if Js.nonEmpty b
                                             then Some (stripNamespace b) else None
                                 | None => None
                                 end)
                                (fst r) extAttributes),
                        snd r)
                  else Ok (None, snd allR)
              | None => Ok (None, snd allR)
              end
          | None => Ok (None, snd allR)
          end in
        Ok (Some (mkComplexType name (fst seqR) (snd extR) (fst allR)
          (attributes ++ match fst extR with
                         | Some x => ext_attributes x
                         | None => []
                         end)
          (fst extR)
          (orNil (fst seqR) ++ orNil (fst choiceR) ++ orNil (fst allR)
           ++ match fst extR with
              | Some x => orNil (ext_sequence x)
              | None => []
              end)))
  end

with parseNestedElements (fuel : nat) (container : JsVal)
    (parentChoice : option (list XsdElement)) (xsdPrefix : option string)
    {struct fuel} : result (list XsdElement * option (list XsdElement)) :=
  match fuel with
  | O => OutOfFuel
  | S fuel' =>
      let* elementArray := getAsArray container "element" xsdPrefix in
      let* elements0 :=
        forOf (fun elements el =>
                 let* element := parseElement fuel' el xsdPrefix in
                 Ok (pushIf element elements)) elementArray [] in
      let* choiceArray := getAsArray container "choice" xsdPrefix in
      forOf (fun (st : list XsdElement * option (list XsdElement)) ch =>
               let parent0 := match snd st with Some c => Some c | None => Some [] end in
               let* r := parseNestedElements fuel' ch parent0 xsdPrefix in
               Ok (fold_left mergeChoiceElement (fst r) (fst st, snd r)))
            choiceArray (elements0, parentChoice)
  end.

Definition parseComplexTypes (fuel : nat) (xsd : JsVal) (xsdPrefix : option string)
    : result (list XsdComplexType) :=
  let* typeArray := getAsArray xsd "complexType" xsdPrefix in
  forOf (fun types ct =>
           let* complexType := parseComplexType fuel ct xsdPrefix (Tree.attr ct "name") in
           Ok (pushIf complexType types)) typeArray [].

(** [complexTypes.find(ct => ct.name === typeName)] *)
Definition findComplexType (typeName : string) (cts : list XsdComplexType)
    : option XsdComplexType :=
  List.find (fun ct => match ct_name ct with
                       | Some n => String.eqb n typeName
                       | None => false
                       end) cts.

Definition withAttributes (e : XsdElement) (attrs : list XsdAttribute) : XsdElement :=
  mkElement (el_name e) (el_type e) (el_complexType e) (el_simpleType e) attrs
    (minOccurs e) (maxOccurs e) (isRef e) (ref e) (nillable e).

Definition parseElements (fuel : nat) (xsd : JsVal) (xsdPrefix : option string)
    : result (list XsdElement) :=
  let* elementArray := getAsArray xsd "element" xsdPrefix in
  let* complexTypes := parseComplexTypes fuel xsd xsdPrefix in
  forOf (fun elements el =>
           let* parsed := parseElement fuel el xsdPrefix in
           match parsed with
           | Some element =>
               let element' :=
                 match el_type element with
                 | Some t =>
                     if Js.nonEmpty t then
                       match findComplexType t complexTypes with
                       | Some complexType =>
                           withAttributes element (ct_attributes complexType)
                       | None => element
                       end
                     else element
                 | None => element
                 end in
               Ok (elements ++ [element'])
           | None => Ok elements
           end) elementArray [].

Definition parseSimpleTypes (xsd : JsVal) (xsdPrefix : option string)
    : result (list XsdSimpleType) :=
  let* typeArray := getAsArray xsd "simpleType" xsdPrefix in
  forOf (fun types st =>
           let* simpleType := parseSimpleType st xsdPrefix (Tree.attr st "name") in
           Ok (pushIf simpleType types)) typeArray [].

Definition parseSimpleTypesFromAnnotation (annotation : JsVal)
    (xsdPrefix : option string) : result (list XsdSimpleType) :=
  let* documentation := getTypeValue annotation "documentation" xsdPrefix in
  match documentation with
  | Some d =>
      if Tree.truthy d then
        let* simpleTypeArray := getAsArray d "simpleType" xsdPrefix in
        forOf (fun types st =>
                 let* simpleType := parseSimpleType st xsdPrefix (Tree.attr st "name") in
                 Ok (pushIf simpleType types)) simpleTypeArray []
      else Ok []
  | None => Ok []
  end.

(** *** The reference collector *)

Definition orElse (a b : option string) : option string :=
  if Js.truthyStr a then a else b.

Definition refElementOf (el : XsdElement) : XsdElement :=
  mkElement
    (Some (match orElse (ref el) (el_name el) with
           | Some n => if Js.nonEmpty n then n else ""
           | None => ""
           end))
    (el_type el) (el_complexType el) (el_simpleType el) (el_attributes el)
    (minOccurs el) (maxOccurs el) (Some true) (ref el) (nillable el).

Definition isRefSet (el : XsdElement) : bool :=
  match isRef el with Some b => b | None => false end.

(** [collectFromElements] handles one element after the other; the body of
    its loop is [collectFromElement]. *)
Fixpoint collectFromElement (el : XsdElement) : list XsdElement :=
  (if isRefSet el then [refElementOf el] else [])
  ++ match el_complexType el with
     | Some ct => collectFromComplexType ct
     | None => []
     end
with collectFromComplexType (ct : XsdComplexType) : list XsdElement :=
  match sequence ct with Some l => flat_map collectFromElement l | None => [] end
  ++ match choice ct with Some l => flat_map collectFromElement l | None => [] end
  ++ match all ct with Some l => flat_map collectFromElement l | None => [] end
  ++ match extension ct with
     | Some ext =>
         match ext_sequence ext with
         | Some l => flat_map collectFromElement l
         | None => []
         end
     | None => []
     end.

Definition collectFromElements (elements : list XsdElement) : list XsdElement :=
  flat_map collectFromElement elements.

Definition collectReferencedElements (complexTypes : list XsdComplexType)
    : list XsdElement :=
  flat_map collectFromComplexType complexTypes.

(** *** The orchestrator *)

Definition isSchemaKey (k : string) : bool :=
  String.eqb k "schema" || Js.endsWith k ":schema".

(** [findSchemaElement]: the root and the warnings it logs. *)
Definition findSchemaElement (parsed : JsVal) : JsVal * list string :=
  let schemaKeys := List.filter isSchemaKey (Tree.keys parsed) in
  match schemaKeys with
  | [] => (parsed, [])
  | [k] => (match Tree.prop parsed k with Some v => v | None => parsed end, [])
  | k :: _ =>
      (match Tree.prop parsed k with Some v => v | None => parsed end,
       ["Multiple schema elements found: " +:+ String.concat ", " schemaKeys
        +:+ ". Using first."])
  end.

Definition noPrefixWarning : string :=
  "Warning: Could not detect XSD namespace prefix. Schema parsing may fail.".

(** The steps of [parseXsd] that follow the namespace detection: the
    top-level declarations, the simple types of the annotation, the
    referenced elements and the returned object. *)
Definition assembleSchema (fuel : nat) (xsd : JsVal) (xsdPrefix : option string)
    : result XsdSchema :=
  let* elements := parseElements fuel xsd xsdPrefix in
  let* complexTypes := parseComplexTypes fuel xsd xsdPrefix in
  let* simpleTypes := parseSimpleTypes xsd xsdPrefix in
  let* annotation := getTypeValue xsd "annotation" xsdPrefix in
  let* annotationSimpleTypes :=
    match annotation with
    | Some a =>
        if Tree.truthy a then parseSimpleTypesFromAnnotation a xsdPrefix else Ok []
    | None => Ok []
    end in
  Ok (mkSchema
        (Tree.attr xsd "targetNamespace")
        (Tree.attr xsd "elementFormDefault")
        (elements ++ collectReferencedElements complexTypes)
        complexTypes
        (simpleTypes ++ annotationSimpleTypes)).

(** [parseXsd] after [parser.parse(xsdContent)] has returned [parsed]: the
    lines written with [console.warn], and the schema or the exception.
    [xsdPrefix || undefined] is the prefix passed on. *)
Definition parseXsd (parsed : JsVal) : list string * result XsdSchema :=
  let '(xsd, rootWarnings) := findSchemaElement parsed in
  let namespaceContext := extractNamespaces xsd in
  let detected := Js.truthyStr (xsdPrefix namespaceContext) in
  (rootWarnings ++ (if detected then [] else [noPrefixWarning]),
   assembleSchema (S (Tree.depth parsed)) xsd
     (if detected then xsdPrefix namespaceContext else None)).

(** ** Naming (generators/naming) *)

Inductive NamingConvention : Type := camel | pascal | original | kebab.

(** What the code takes from outside the repository: the three functions of
    the change-case package, which turn a string into a string and throw a
    TypeError when they are handed [undefined], and the text that a template
    literal gives for the number [parseFloat(literal)]. *)
Record Externals : Type := mkExternals {
  camelCase : string -> string;
  pascalCase : string -> string;
  kebabCase : string -> string;
  floatText : string -> string
}.

Record TypeMapping : Type := mkTypeMapping {
  tsType : string;
  zodValidator : string
}.

Record MappedElement : Type := mkMappedElement {
  me_name : option string;
  me_tsType : string;
  me_zodValidator : string;
  me_optional : bool;
  isArray : bool
}.

Record MappedAttribute : Type := mkMappedAttribute {
  ma_name : option string;
  ma_tsType : string;
  ma_zodValidator : string;
  ma_optional : bool
}.

Record MappedComplexType : Type := mkMappedComplexType {
  typeName : string;
  schemaName : string;
  tsInterface : string;
  zodObject : string
}.

Inductive CustomType : Type :=
| CustomComplex (ct : XsdComplexType)
| CustomSimple (st : XsdSimpleType).

Definition customName (c : CustomType) : option string :=
  match c with
  | CustomComplex ct => ct_name ct
  | CustomSimple st => st_name st
  end.

(** ** The primitive table and the facets (mappers/primitive) *)

(** The table is read with [PRIMITIVE_TYPE_MAP[xsdType]]; the members that a
    JavaScript object inherits ([constructor], [toString], ...) are not part
    of the model. *)
Definition PRIMITIVE_TYPE_MAP : list (string * TypeMapping) := [
  ("xs:string", mkTypeMapping "string" "z.string()");
  ("string", mkTypeMapping "string" "z.string()");
  ("xs:int", mkTypeMapping "number" "z.number().int()");
  ("int", mkTypeMapping "number" "z.number().int()");
  ("xs:integer", mkTypeMapping "number" "z.number().int()");
  ("integer", mkTypeMapping "number" "z.number().int()");
  ("xs:decimal", mkTypeMapping "number" "z.number()");
  ("decimal", mkTypeMapping "number" "z.number()");
  ("xs:float", mkTypeMapping "number" "z.number()");
  ("float", mkTypeMapping "number" "z.number()");
  ("xs:double", mkTypeMapping "number" "z.number()");
  ("double", mkTypeMapping "number" "z.number()");
  ("xs:boolean", mkTypeMapping "boolean" "z.boolean()");
  ("boolean", mkTypeMapping "boolean" "z.boolean()");
  ("xs:date", mkTypeMapping "string" "z.string().date()");
  ("date", mkTypeMapping "string" "z.string().date()");
  ("xs:dateTime", mkTypeMapping "string" "z.string().datetime()");
  ("dateTime", mkTypeMapping "string" "z.string().datetime()");
  ("xs:time", mkTypeMapping "string" "z.string().time()");
  ("time", mkTypeMapping "string" "z.string().time()");
  ("xs:anyURI", mkTypeMapping "string" "z.string().url()");
  ("anyURI", mkTypeMapping "string" "z.string().url()");
  ("xs:base64Binary", mkTypeMapping "string" "z.string()");
  ("base64Binary", mkTypeMapping "string" "z.string()");
  ("xs:hexBinary", mkTypeMapping "string" "z.string()");
  ("hexBinary", mkTypeMapping "string" "z.string()");
  ("xs:duration", mkTypeMapping "string" "z.string()");
  ("duration", mkTypeMapping "string" "z.string()");
  ("xs:gDay", mkTypeMapping "string" "z.string()");
  ("xs:gMonth", mkTypeMapping "string" "z.string()");
  ("xs:gMonthDay", mkTypeMapping "string" "z.string()");
  ("xs:gYear", mkTypeMapping "string" "z.string()");
  ("xs:gYearMonth", mkTypeMapping "string" "z.string()");
  ("xs:ID", mkTypeMapping "string" "z.string()");
  ("xs:IDREF", mkTypeMapping "string" "z.string()");
  ("xs:ENTITY", mkTypeMapping "string" "z.string()");
  ("xs:NMTOKEN", mkTypeMapping "string" "z.string()");
  ("xs:normalizedString", mkTypeMapping "string" "z.string()");
  ("xs:token", mkTypeMapping "string" "z.string()");
  ("xs:language", mkTypeMapping "string" "z.string()");
  ("xs:Name", mkTypeMapping "string" "z.string()");
  ("xs:NCName", mkTypeMapping "string" "z.string()");
  ("xs:anyType", mkTypeMapping "any" "z.any()");
  ("anyType", mkTypeMapping "any" "z.any()");
  ("xs:anySimpleType", mkTypeMapping "any" "z.any()");
  ("anySimpleType", mkTypeMapping "any" "z.any()");
  ("xs:positiveInteger", mkTypeMapping "number" "z.number().int().positive()");
  ("positiveInteger", mkTypeMapping "number" "z.number().int().positive()");
  ("xs:nonNegativeInteger", mkTypeMapping "number" "z.number().int().nonnegative()");
  ("nonNegativeInteger", mkTypeMapping "number" "z.number().int().nonnegative()");
  ("xs:negativeInteger", mkTypeMapping "number" "z.number().int().negative()");
  ("negativeInteger", mkTypeMapping "number" "z.number().int().negative()");
  ("xs:nonPositiveInteger", mkTypeMapping "number" "z.number().int().nonpositive()");
  ("nonPositiveInteger", mkTypeMapping "number" "z.number().int().nonpositive()");
  ("xs:long", mkTypeMapping "number" "z.number().int()");
  ("long", mkTypeMapping "number" "z.number().int()");
  ("xs:short", mkTypeMapping "number" "z.number().int()");
  ("short", mkTypeMapping "number" "z.number().int()");
  ("xs:byte", mkTypeMapping "number" "z.number().int()");
  ("byte", mkTypeMapping "number" "z.number().int()");
  ("xs:unsignedLong", mkTypeMapping "number" "z.number().int().nonnegative()");
  ("xs:unsignedInt", mkTypeMapping "number" "z.number().int().nonnegative()");
  ("xs:unsignedShort", mkTypeMapping "number" "z.number().int().nonnegative()");
  ("xs:unsignedByte", mkTypeMapping "number" "z.number().int().nonnegative()")
].

Fixpoint lookupPrimitive (k : string) (table : list (string * TypeMapping))
    : option TypeMapping :=
  match table with
  | [] => None
  | (k', m) :: rest => if String.eqb k k' then Some m else lookupPrimitive k rest
  end.

Definition mapPrimitiveType (xsdType : string) : TypeMapping :=
  match lookupPrimitive xsdType PRIMITIVE_TYPE_MAP with
  | Some mapping => mapping
  | None => mkTypeMapping "any" "z.any()"
  end.

(** Template-literal text of an integer (below 10^21 in absolute value). *)
Definition intText (n : JsInt) : string :=
  match n with
  | NaN => "NaN"
  | Int z => NilZero.string_of_int (Z.to_int z)
  end.

Definition truthyInt (o : option JsInt) : bool :=
  match o with
  | Some (Int z) => negb (Z.eqb z 0)
  | _ => false
  end.

(** [pattern.replace(/\\/g, '\\\\')] *)
Fixpoint escapeBackslashes (s : string) : string :=
  match s with
  | EmptyString => EmptyString
  | String c s' =>
      if Ascii.eqb c "\" then String "\" (String "\" (escapeBackslashes s'))
      else String c (escapeBackslashes s')
  end.

Definition quoted (v : JsVal) : string := "'" +:+ renderVal v +:+ "'".

Definition mapEnumeration (simpleType : XsdSimpleType) (naming : NamingConvention)
    : TypeMapping :=
  let values :=
    match enumerations (restriction simpleType) with
    | Some vs => vs
    | None => []
    end in
  mkTypeMapping
    (String.concat " | " (map quoted values))
    ("z.enum([" +:+ String.concat ", " (map quoted values) +:+ "])").

Section WithExternals.

Variable ext : Externals.

(** [if (facet) validator = validator + "." + method + "(" + facet + ")"] for a
    facet read with [parseInt]. *)
Definition callWithInt (method : string) (facet : option JsInt) (validator : string)
    : string :=
  match facet with
  | Some n =>
      if truthyInt facet then validator +:+ "." +:+ method +:+ "(" +:+ intText n +:+ ")"
      else validator
  | None => validator
  end.

(** [if (facet !== undefined) ...] for a facet read with [parseFloat]. *)
Definition callWithFloat (method : string) (facet : option JsFloat)
    (validator : string) : string :=
  match facet with
  | Some (ParseFloat literal) =>
      validator +:+ "." +:+ method +:+ "(" +:+ floatText ext literal +:+ ")"
  | None => validator
  end.

Definition applyFacets (baseMapping : TypeMapping) (facets : XsdRestriction)
    (naming : NamingConvention) : TypeMapping :=
  let z0 := zodValidator baseMapping in
  let z1 := callWithInt "min" (minLength facets) z0 in
  let z2 := callWithInt "max" (maxLength facets) z1 in
  let z3 := callWithInt "length" (length_ facets) z2 in
  let z4 := match pattern facets with
            | Some p => if Js.nonEmpty p
                        then z3 +:+ ".regex(/" +:+ escapeBackslashes p +:+ "/)"
                        else z3
            | None => z3
            end in
  let z5 := callWithFloat "min" (minInclusive facets) z4 in
  let z6 := callWithFloat "max" (maxInclusive facets) z5 in
  let z7 := callWithFloat "gt" (minExclusive facets) z6 in
  let z8 := callWithFloat "lt" (maxExclusive facets) z7 in
  let t1 := if truthyInt (totalDigits facets) then "number" else tsType baseMapping in
  let t2 := if truthyInt (fractionDigits facets) then "number" else t1 in
  mkTypeMapping t2 z8.

(** The three naming functions are called with the [name] of an element, of
    an attribute or of a type, which may be [undefined].  Under [camel],
    [pascal] and [kebab] the call of change-case then throws:
    [applyNamingThrows] tells when, the mappers below give what is returned
    when nothing throws, and [mapElementThrows] and [mapComplexTypeThrows]
    tell when they throw.  What the definitions give for a call that throws
    (the absent name, untouched) is the value of no run of the code. *)
Definition applyNaming (name : option string) (convention : NamingConvention)
    : option string :=
  match convention with
  | camel => optMap (camelCase ext) name
  | pascal => optMap (pascalCase ext) name
  | kebab => optMap (kebabCase ext) name
  | original => name
  end.

Definition getTypeName (name : option string) (convention : NamingConvention)
    : string :=
  match convention with
  | camel => Js.render (optMap (pascalCase ext) name)
  | pascal => Js.render (optMap (pascalCase ext) name)
  | kebab => Js.render (optMap (pascalCase ext) name)
  | original => Js.render name
  end.

Definition getSchemaName (name : option string) (convention : NamingConvention)
    : string :=
  match convention with
  | camel => Js.render (optMap (pascalCase ext) name) +:+ "Schema"
  | pascal => Js.render (optMap (pascalCase ext) name) +:+ "Schema"
  | kebab => Js.render (optMap (pascalCase ext) name) +:+ "Schema"
  | original => Js.render name +:+ "Schema"
  end.

(** ** The complex mapper (mappers/complex) *)

Definition findCustomType (typeName : string) (schema : XsdSchema)
    : option CustomType :=
  match findComplexType typeName (complexTypes schema) with
  | Some complexType => Some (CustomComplex complexType)
  | None =>
      match List.find (fun st => match st_name st with
                                 | Some n => String.eqb n typeName
                                 | None => false
                                 end) (simpleTypes schema) with
      | Some simpleType => Some (CustomSimple simpleType)
      | None => None
      end
  end.

(** A line of the field list: what [mapComplexType] reads of a mapped
    element or attribute. *)
Record Field : Type := mkField {
  f_name : option string;
  f_tsType : string;
  f_zodValidator : string;
  f_optional : bool
}.

Definition fieldOfElement (m : MappedElement) : Field :=
  mkField (me_name m) (me_tsType m) (me_zodValidator m) (me_optional m).

Definition fieldOfAttribute (m : MappedAttribute) : Field :=
  mkField (ma_name m) (ma_tsType m) (ma_zodValidator m) (ma_optional m).

Definition tsLine (f : Field) : string :=
  "  " +:+ Js.render (f_name f) +:+ (if f_optional f then "?" else "") +:+ ": "
  +:+ f_tsType f.

Definition zodLine (f : Field) : string :=
  "  " +:+ Js.render (f_name f) +:+ ": " +:+ f_zodValidator f
  +:+ (if f_optional f then ".optional()" else "").

Definition newline : string := String (ascii_of_nat 10) EmptyString.

Definition isArrayOf (m : option MaxOccurs) : bool :=
  match m with
  | Some Unbounded => true
  | Some (MaxOccursNum (Int z)) => Z.ltb 1 z
  | _ => false
  end.

Definition simpleTypeMapping (st : XsdSimpleType) (naming : NamingConvention)
    : TypeMapping :=
  if present (enumerations (restriction st)) then mapEnumeration st naming
  else applyFacets (mapPrimitiveType (base (restriction st))) (restriction st) naming.

Definition namedTypeMapping (type : option string) (naming : NamingConvention)
    (schema : XsdSchema) (fallback : TypeMapping) : TypeMapping :=
  match type with
  | Some t =>
      if Js.nonEmpty t then
        match findCustomType t schema with
        | Some customType =>
            mkTypeMapping (getTypeName (customName customType) naming)
                          (getSchemaName (customName customType) naming)
        | None => mapPrimitiveType t
        end
      else fallback
  | None => fallback
  end.

Definition mapAttribute (attribute : XsdAttribute) (naming : NamingConvention)
    (schema : XsdSchema) : MappedAttribute :=
  let name := applyNaming (attr_name attribute) naming in
  let optional :=
    match use attribute with
    | None => true
    | Some u => String.eqb u "optional"
    end in
  let typeMapping :=
    match attr_simpleType attribute with
    | Some st => simpleTypeMapping st naming
    | None =>
        namedTypeMapping (attr_type attribute) naming schema
          (mkTypeMapping "string" "z.string()")
    end in
  mkMappedAttribute name (tsType typeMapping) (zodValidator typeMapping) optional.

Definition mapAttributes (attributes : list XsdAttribute)
    (naming : NamingConvention) (schema : XsdSchema) : list MappedAttribute :=
  map (fun a => mapAttribute a naming schema) attributes.

Section Mapping.

Variable naming : NamingConvention.
Variable schema : XsdSchema.

(** The type mapping [mapElement] settles on before it looks at [isArray]. *)
Definition elementTypeMapping (complex : option MappedComplexType)
    (element : XsdElement) : TypeMapping :=
  match complex with
  | Some c => mkTypeMapping (typeName c) (schemaName c)
  | None =>
      match el_simpleType element with
      | Some st => simpleTypeMapping st naming
      | None =>
          namedTypeMapping (el_type element) naming schema
            (mkTypeMapping "any" "z.any()")
      end
  end.

Definition arrayOf (isArray : bool) (typeMapping : TypeMapping) : TypeMapping :=
  if isArray
  then mkTypeMapping (tsType typeMapping +:+ "[]")
                     ("z.array(" +:+ zodValidator typeMapping +:+ ")")
  else typeMapping.

Definition joinLines (lines : list string) : string :=
  String.concat ("," +:+ newline) lines.

Fixpoint mapElement (element : XsdElement) : MappedElement :=
  let name := applyNaming (el_name element) naming in
  let optional :=
    match minOccurs element with
    | Some (Int z) => Z.eqb z 0
    | _ => false
    end in
  let isArray := isArrayOf (maxOccurs element) in
  let complex :=
    match el_complexType element with
    | Some ct => Some (mapComplexType ct)
    | None => None
    end in
  let typeMapping := arrayOf isArray (elementTypeMapping complex element) in
  mkMappedElement name (tsType typeMapping) (zodValidator typeMapping)
    optional isArray
with mapComplexType (complexType : XsdComplexType) : MappedComplexType :=
  let elements := map mapElement (content complexType) in
  let attributes := mapAttributes (ct_attributes complexType) naming schema in
  let named := Js.truthyStr (ct_name complexType) in
  let allFields := map fieldOfElement elements ++ map fieldOfAttribute attributes in
  mkMappedComplexType
    (if named then getTypeName (ct_name complexType) naming else "AnonymousType")
    (if named then getSchemaName (ct_name complexType) naming else "anonymousSchema")
    (match allFields with
     | [] => "{}"
     | _ => "{" +:+ newline +:+ joinLines (map tsLine allFields) +:+ newline +:+ "}"
     end)
    (match allFields with
     | [] => "z.object({})"
     | _ => "z.object({" +:+ newline +:+ joinLines (map zodLine allFields)
            +:+ newline +:+ "})"
     end).

Definition mapElements (elements : list XsdElement) : list MappedElement :=
  map mapElement elements.

End Mapping.

End WithExternals.

(** *** The exceptions of the mappers

    [applyNaming(name, convention)] throws when change-case is handed
    [undefined].  [getTypeName] and [getSchemaName] are only called with a
    name that has been tested or found, so that [mapElement] throws on an
    element without a name or with an inline complex type on which
    [mapComplexType] throws, [mapAttribute] on an attribute without a name,
    and [mapComplexType] when one of its content elements or attributes
    does. *)
Definition applyNamingThrows (name : option string) (convention : NamingConvention)
    : bool :=
  match convention with
  | camel => negb (present name)
  | pascal => negb (present name)
  | kebab => negb (present name)
  | original => false
  end.

Definition mapAttributeThrows (naming : NamingConvention) (attribute : XsdAttribute)
    : bool :=
  applyNamingThrows (attr_name attribute) naming.

Fixpoint mapElementThrows (naming : NamingConvention) (element : XsdElement) : bool :=
  applyNamingThrows (el_name element) naming
  || match el_complexType element with
     | Some ct => mapComplexTypeThrows naming ct
     | None => false
     end
with mapComplexTypeThrows (naming : NamingConvention) (complexType : XsdComplexType)
    : bool :=
  existsb (mapElementThrows naming) (content complexType)
  || existsb (mapAttributeThrows naming) (ct_attributes complexType).

(** ** The dependency orderer (generators/validators) *)

Module SchemaRe.
(** The global regular expression [schemaRegex] (a capture group holding an
    upper-case letter and any number of letters and digits, followed by the
    literal Schema) and the loop that calls [schemaRegex.exec(zodObject)]
    until it returns null. *)

Definition isUpper (c : ascii) : bool :=
  let n := nat_of_ascii c in Nat.leb 65 n && Nat.leb n 90.

Definition isAlnum (c : ascii) : bool :=
  let n := nat_of_ascii c in
  (Nat.leb 65 n && Nat.leb n 90) || (Nat.leb 97 n && Nat.leb n 122)
  || (Nat.leb 48 n && Nat.leb n 57).

Definition schemaWord : list ascii := list_ascii_of_string "Schema".

(** The starred class of letters and digits followed by the literal,
    anchored at the head of [s]: the star first tries to take one more
    character and falls back to the literal.  The result is what the star
    consumed. *)
Fixpoint star (s : list ascii) : option (list ascii) :=
  let literal :=
    match SplitRe.stripPrefix schemaWord s with
    | Some _ => Some []
    | None => None
    end in
  match s with
  | c :: s' =>
      if isAlnum c then
        match star s' with
        | Some cs => Some (c :: cs)
        | None => literal
        end
      else literal
  | [] => literal
  end.

(** The captures of the successive matches; [skip] characters still belong
    to the previous match. *)
Fixpoint scan (skip : nat) (s : list ascii) : list (list ascii) :=
  match s with
  | [] => []
  | c :: s' =>
      match skip with
      | S k => scan k s'
      | O =>
          if isUpper c then
            match star s' with
            | Some cs => (c :: cs) :: scan (List.length cs + 6) s'
            | None => scan 0 s'
            end
          else scan 0 s'
      end
  end.

Definition captures (text : string) : list string :=
  map string_of_list_ascii (scan 0 (list_ascii_of_string text)).

(** [s.replace("Schema", "")]: the first occurrence is removed. *)
Fixpoint removeFirst (s : list ascii) : list ascii :=
  match SplitRe.stripPrefix schemaWord s with
  | Some rest => rest
  | None =>
      match s with
      | [] => []
      | c :: s' => c :: removeFirst s'
      end
  end.

Definition withoutSchema (s : string) : string :=
  string_of_list_ascii (removeFirst (list_ascii_of_string s)).

End SchemaRe.

Record SortState (T : Type) : Type := mkSortState {
  visited : gset string;
  visiting : gset string;
  sorted : list T;
  warnings : list string
}.
Arguments mkSortState {T}.
Arguments visited {T}.
Arguments visiting {T}.
Arguments sorted {T}.
Arguments warnings {T}.

Definition circularWarning (name : string) : string :=
  "Circular dependency detected involving " +:+ name.

(** The traversal that [topologicalSortSimpleTypes] and
    [topologicalSortComplexTypes] both spell out: they differ in the type of
    the items and in how [visit] comes by the names it descends into, which
    for a complex type may throw. *)
Section Visit.

Context {T : Type}.
Variable nameOf : T -> option string.
Variable dependenciesOf : T -> result (list string).
Variable items : list T.

(** [items.forEach((x, idx) => { if (x.name) nameToIndex.set(x.name, idx) })] *)
Fixpoint indexNames (idx : nat) (l : list T) (m : gmap string nat)
    : gmap string nat :=
  match l with
  | [] => m
  | x :: l' =>
      indexNames (S idx) l'
        (match nameOf x with
         | Some n => if Js.nonEmpty n then <[n := idx]> m else m
         | None => m
         end)
  end.

Definition nameToIndex : gmap string nat := indexNames 0 items ∅.

Fixpoint visit (fuel : nat) (st : SortState T) (x : T) : result (SortState T) :=
  match fuel with
  | O => OutOfFuel
  | S fuel' =>
      match nameOf x with
      | None => Ok st
      | Some name =>
          if negb (Js.nonEmpty name) then Ok st
          else if bool_decide (name ∈ visited st) then Ok st
          else if bool_decide (name ∈ visiting st) then
            Ok (mkSortState (visited st) (visiting st) (sorted st)
                  (warnings st ++ [circularWarning name]))
          else
            let st1 := mkSortState (visited st) ({[name]} ∪ visiting st)
                         (sorted st) (warnings st) in
            let* dependencies := dependenciesOf x in
            let* st2 :=
              forOf (fun s depName =>
                       match nameToIndex !! depName with
                       | Some depIndex =>
                           match items !! depIndex with
                           | Some dep => visit fuel' s dep
                           | None => TypeError
                           end
                       | None => Ok s
                       end) dependencies st1 in
            Ok (mkSortState ({[name]} ∪ visited st2) (visiting st2 ∖ {[name]})
                  (sorted st2 ++ [x]) (warnings st2))
      end
  end.

(** [for (const x of items) visit(x)], from empty sets. *)
Definition topologicalSort : result (SortState T) :=
  forOf (visit (S (List.length items))) items (mkSortState ∅ ∅ [] []).

End Visit.

Definition simpleDependencies (st : XsdSimpleType) : list string :=
  if Js.nonEmpty (base (restriction st)) then [base (restriction st)] else [].

Definition topologicalSortSimpleTypes (schema : XsdSchema)
    (naming : NamingConvention) : result (SortState XsdSimpleType) :=
  topologicalSort st_name (fun st => Ok (simpleDependencies st)) (simpleTypes schema).

Section ComplexSort.

Variable ext : Externals.

(** The [dependencies] array that [visit] builds for a complex type from
    what [mapComplexType] has returned. *)
Definition complexDependencies (schema : XsdSchema) (naming : NamingConvention)
    (complexType : XsdComplexType) : list string :=
  let mapped := mapComplexType ext naming schema complexType in
  let currentSchemaName := getSchemaName ext (ct_name complexType) naming in
  List.filter
    (fun depName => negb (String.eqb depName (SchemaRe.withoutSchema currentSchemaName)))
    (SchemaRe.captures (zodObject mapped)).

(** [visit] maps the complex type first: the exception of [mapComplexType]
    is that of [visit]. *)
Definition visitDependencies (schema : XsdSchema) (naming : NamingConvention)
    (complexType : XsdComplexType) : result (list string) :=
  if mapComplexTypeThrows naming complexType then TypeError
  else Ok (complexDependencies schema naming complexType).

Definition topologicalSortComplexTypes (schema : XsdSchema)
    (naming : NamingConvention) : result (SortState XsdComplexType) :=
  topologicalSort ct_name (visitDependencies schema naming) (complexTypes schema).

End ComplexSort.

(** ** The validator generator (generators/validators) *)

Section Validators.

Variable ext : Externals.

(** A line [export const schemaName = value;]. *)
Definition exportConst (schemaName value : string) : string :=
  "export const " +:+ schemaName +:+ " = " +:+ value +:+ ";".

(** [schema.simpleTypes.find((st) => st.name === typeName)] *)
Definition findSimpleType (typeName : string) (sts : list XsdSimpleType)
    : option XsdSimpleType :=
  List.find (fun st => match st_name st with
                       | Some n => String.eqb n typeName
                       | None => false
                       end) sts.

(** The facets that [generateSimpleTypeValidators] spells out after the
    schema name of a base that the schema declares. *)
Definition restrictedBase (baseSchemaName : string) (facets : XsdRestriction)
    : string :=
  let z0 := baseSchemaName in
  let z1 := callWithInt "min" (minLength facets) z0 in
  let z2 := callWithInt "max" (maxLength facets) z1 in
  let z3 := callWithInt "length" (length_ facets) z2 in
  let z4 := match pattern facets with
            | Some p => if Js.nonEmpty p
                        then z3 +:+ ".regex(/" +:+ escapeBackslashes p +:+ "/)"
                        else z3
            | None => z3
            end in
  let z5 := callWithFloat ext "min" (minInclusive facets) z4 in
  let z6 := callWithFloat ext "max" (maxInclusive facets) z5 in
  let z7 := callWithFloat ext "gt" (minExclusive facets) z6 in
  callWithFloat ext "lt" (maxExclusive facets) z7.

(** The body of the loop of [generateSimpleTypeValidators]. *)
Definition simpleTypeValidator (schema : XsdSchema) (naming : NamingConvention)
    (validators : list string) (simpleType : XsdSimpleType) : list string :=
  if negb (Js.truthyStr (st_name simpleType)) then validators
  else
    let schemaName := getSchemaName ext (st_name simpleType) naming in
    let facets := restriction simpleType in
    if present (enumerations facets) then
      validators
      ++ [exportConst schemaName (zodValidator (mapEnumeration simpleType naming))]
    else if Js.nonEmpty (base facets) then
      let baseTypeName := base facets in
      match findSimpleType baseTypeName (simpleTypes schema) with
      | Some customBaseType =>
          let baseSchemaName := getSchemaName ext (Some baseTypeName) naming in
          validators ++ [exportConst schemaName (restrictedBase baseSchemaName facets)]
      | None =>
          let mapped := applyFacets ext (mapPrimitiveType baseTypeName) facets naming in
          validators ++ [exportConst schemaName (zodValidator mapped)]
      end
    else validators.

Definition generateSimpleTypeValidators (schema : XsdSchema)
    (naming : NamingConvention) (sortedSimpleTypes : option (list XsdSimpleType))
    : string :=
  let simpleTypesToProcess :=
    match sortedSimpleTypes with
    | Some sorted => sorted
    | None => simpleTypes schema
    end in
  String.concat newline
    (fold_left (simpleTypeValidator schema naming) simpleTypesToProcess []).

(** The body of the loop of [generateComplexTypeValidators]. *)
Definition complexTypeValidator (schema : XsdSchema) (naming : NamingConvention)
    (validators : list string) (complexType : XsdComplexType) : list string :=
  if negb (Js.truthyStr (ct_name complexType)) then validators
  else
    let mapped := mapComplexType ext naming schema complexType in
    validators ++ [exportConst (schemaName mapped) (zodObject mapped)].

Definition generateComplexTypeValidators (schema : XsdSchema)
    (naming : NamingConvention) (sortedComplexTypes : option (list XsdComplexType))
    : string :=
  let complexTypesToProcess :=
    match sortedComplexTypes with
    | Some sorted => sorted
    | None => complexTypes schema
    end in
  String.concat newline
    (fold_left (complexTypeValidator schema naming) complexTypesToProcess []).

(** The two variables that [processElement] closes over in
    [generateElementValidators]. *)
Record ElementValidators : Type := mkElementValidators {
  validators : list string;
  processedElements : gset string
}.

(** [processElement]; its [depth] argument is not read. *)
Fixpoint processElement (schema : XsdSchema) (naming : NamingConvention)
    (element : XsdElement) (st : ElementValidators) {struct element}
    : ElementValidators :=
  match el_name element with
  | None => st
  | Some name =>
      if negb (Js.nonEmpty name) || bool_decide (name ∈ processedElements st) then st
      else
        let schemaName := getSchemaName ext (Some name) naming in
        let added := {[name]} ∪ processedElements st in
        match el_complexType element with
        | Some complexType =>
            let mapped := mapComplexType ext naming schema complexType in
            fold_left
              (fun s childElement => processElement schema naming childElement s)
              (content complexType)
              (mkElementValidators
                 (validators st ++ [exportConst schemaName (zodObject mapped)])
                 added)
        | None =>
            match el_simpleType element with
            | Some simpleType =>
                if present (enumerations (restriction simpleType)) then
                  mkElementValidators
                    (validators st
                     ++ [exportConst schemaName
                           (zodValidator (mapEnumeration simpleType naming))])
                    added
                else if Js.nonEmpty (base (restriction simpleType)) then
                  let mapped :=
                    applyFacets ext (mapPrimitiveType (base (restriction simpleType)))
                      (restriction simpleType) naming in
                  mkElementValidators
                    (validators st ++ [exportConst schemaName (zodValidator mapped)])
                    added
                else mkElementValidators (validators st) added
            | None =>
                match el_type element with
                | Some type =>
                    if Js.nonEmpty type then
                      let primitive :=
                        mkElementValidators
                          (validators st
                           ++ [exportConst schemaName
                                 (zodValidator (mapPrimitiveType type))])
                          added in
                      match findCustomType type schema with
                      | Some customType =>
                          if Js.truthyStr (customName customType) then
                            let customSchemaName :=
                              getSchemaName ext (customName customType) naming in
                            if String.eqb schemaName customSchemaName
                            then mkElementValidators (validators st) added
                            else mkElementValidators
                                   (validators st
                                    ++ [exportConst schemaName customSchemaName])
                                   added
                          else primitive
                      | None => primitive
                      end
                    else st
                | None => st
                end
            end
        end
  end.

Definition processElements (schema : XsdSchema) (naming : NamingConvention)
    (elements : list XsdElement) (st : ElementValidators) : ElementValidators :=
  fold_left (fun s element => processElement schema naming element s) elements st.

(** The state of [generateElementValidators] after its two loops. *)
Definition elementValidators (schema : XsdSchema) (naming : NamingConvention)
    : ElementValidators :=
  fold_left
    (fun s complexType => processElements schema naming (content complexType) s)
    (complexTypes schema)
    (processElements schema naming (elements schema)
       (mkElementValidators [] ∅)).

Definition generateElementValidators (schema : XsdSchema)
    (naming : NamingConvention) : string :=
  String.concat newline (validators (elementValidators schema naming)).

(** *** The exceptions of the generators

    The three generators above give the text that is returned when nothing
    throws.  [generateSimpleTypeValidators] calls [getSchemaName] with names
    it has tested and does not throw.  The two others throw when
    [mapComplexType] does: on a named type of the list for
    [generateComplexTypeValidators], on the inline complex type of an
    element that [processElement] processes for
    [generateElementValidators]. *)
Definition generateComplexTypeValidatorsThrows (naming : NamingConvention)
    (complexTypesToProcess : list XsdComplexType) : bool :=
  existsb (fun complexType =>
             Js.truthyStr (ct_name complexType)
             && mapComplexTypeThrows naming complexType)
          complexTypesToProcess.

(** Whether [processElement] throws on [element] in the state [st]; its
    children are processed one after the other from the state that the
    element leaves. *)
Fixpoint processElementThrows (schema : XsdSchema) (naming : NamingConvention)
    (element : XsdElement) (st : ElementValidators) {struct element} : bool :=
  match el_name element with
  | None => false
  | Some name =>
      if negb (Js.nonEmpty name) || bool_decide (name ∈ processedElements st) then false
      else
        match el_complexType element with
        | Some complexType =>
            let schemaName := getSchemaName ext (Some name) naming in
            let mapped := mapComplexType ext naming schema complexType in
            mapComplexTypeThrows naming complexType
            || snd (fold_left
                      (fun acc childElement =>
                         (processElement schema naming childElement (fst acc),
                          snd acc
                          || processElementThrows schema naming childElement (fst acc)))
                      (content complexType)
                      (mkElementValidators
                         (validators st ++ [exportConst schemaName (zodObject mapped)])
                         ({[name]} ∪ processedElements st),
                       false))
        | None => false
        end
  end.

(** A loop [for (const element of elements) processElement(element)]: the
    state after it, and whether it has thrown. *)
Definition processElementsThrow (schema : XsdSchema) (naming : NamingConvention)
    (elements : list XsdElement) (st : ElementValidators) : bool :=
  snd (fold_left
         (fun acc element =>
            (processElement schema naming element (fst acc),
             snd acc || processElementThrows schema naming element (fst acc)))
         elements (st, false)).

Definition generateElementValidatorsThrows (schema : XsdSchema)
    (naming : NamingConvention) : bool :=
  processElementsThrow schema naming (elements schema) (mkElementValidators [] ∅)
  || snd (fold_left
            (fun acc complexType =>
               (processElements schema naming (content complexType) (fst acc),
                snd acc
                || processElementsThrow schema naming (content complexType) (fst acc)))
            (complexTypes schema)
            (processElements schema naming (elements schema)
               (mkElementValidators [] ∅),
             false)).

(** [generateValidators]: what the two sorts log and the generated text, or
    the exception. *)
Definition generateValidators (schema : XsdSchema) (naming : NamingConvention)
    : result (list string * string) :=
  let imports := "import { z } from 'zod';" +:+ newline +:+ newline in
  let comment :=
    "// Generated Zod validators from XSD schema" +:+ newline
    +:+ "// Do not edit manually" +:+ newline +:+ newline in
  let* sortedSimpleTypes := topologicalSortSimpleTypes schema naming in
  let* sortedComplexTypes := topologicalSortComplexTypes ext schema naming in
  let simpleTypeValidators :=
    generateSimpleTypeValidators schema naming (Some (sorted sortedSimpleTypes)) in
  if generateComplexTypeValidatorsThrows naming (sorted sortedComplexTypes)
  then TypeError
  else
    let complexTypeValidators :=
      generateComplexTypeValidators schema naming (Some (sorted sortedComplexTypes)) in
    if generateElementValidatorsThrows schema naming then TypeError
    else
      let elementValidators := generateElementValidators schema naming in
      Ok (warnings sortedSimpleTypes ++ warnings sortedComplexTypes,
          imports +:+ comment +:+ simpleTypeValidators +:+ newline +:+ newline
          +:+ complexTypeValidators +:+ newline +:+ newline +:+ elementValidators).

End Validators.

(** * Properties *)

(** An instance of the externals for closed examples: names are left as
    written and a number is shown by its literal.  Under the [original]
    convention and without bounds the code calls none of the four; the
    examples under another convention show what throws and what returns,
    which does not depend on the text that change-case gives. *)
Definition asWritten : Externals :=
  mkExternals (fun name => name) (fun name => name) (fun name => name)
    (fun literal => literal).

Definition emptySchema : XsdSchema := mkSchema None None [] [] [].

(** ** The attribute and element mappers *)

(** C7, as the code has it: whether a mapped attribute is optional is read
    off [use] alone (absent or "optional"); it does not change when a
    [default] or a [fixed] value is added, removed or altered. *)
Theorem mapAttribute_optional_by_use :
  forall (ext : Externals) (a : XsdAttribute) (naming : NamingConvention)
         (schema : XsdSchema),
    (ma_optional (mapAttribute ext a naming schema) = true
       <-> (use a = None \/ use a = Some "optional"))
    /\ (forall d f : option string,
          ma_optional (mapAttribute ext
            (mkAttribute (attr_name a) (attr_type a) (use a) d f (attr_simpleType a))
            naming schema)
          = ma_optional (mapAttribute ext a naming schema)).
Proof.
  intros ext a naming schema. split.
  - unfold mapAttribute; simpl. destruct (use a) as [u|].
    + split.
      * intros H. right. apply String.eqb_eq in H. now subst.
      * intros [H|H]; [discriminate|]. injection H as ->. reflexivity.
    + split; auto.
  - intros d f. reflexivity.
Qed.

(** C7 fails as stated: a required attribute that carries a fixed value is
    mapped to a field that is not optional. *)
Lemma mapAttribute_fixed_required_not_optional :
  let a := mkAttribute (Some "version") (Some "xs:string") (Some "required")
             None (Some "1.0") None in
  fixed a = Some "1.0"
  /\ ma_optional (mapAttribute asWritten a original emptySchema) = false.
Proof. split; reflexivity. Qed.

(** The integers above one, as [maxOccurs] holds them. *)
Definition severalOccurs (m : option MaxOccurs) : Prop :=
  m = Some Unbounded \/ exists z, m = Some (MaxOccursNum (Int z)) /\ (1 < z)%Z.

(** C8: a mapped element is optional exactly when [minOccurs] is 0; it is an
    array exactly when [maxOccurs] is "unbounded" or an integer above 1, and
    then its TypeScript type is the element's type followed by [[]] and its
    validator is that type's validator inside [z.array( )]; the two tests
    read different attributes, so that both hold of an element with
    [minOccurs = 0] and [maxOccurs = "unbounded"]. *)
Theorem mapElement_cardinality :
  forall (ext : Externals) (naming : NamingConvention) (schema : XsdSchema)
         (element : XsdElement),
    let m := mapElement ext naming schema element in
    let typeMapping :=
      elementTypeMapping ext naming schema
        (optMap (mapComplexType ext naming schema) (el_complexType element))
        element in
    (me_optional m = true <-> minOccurs element = Some (Int 0))
    /\ (isArray m = true <-> severalOccurs (maxOccurs element))
    /\ (isArray m = true ->
          me_tsType m = tsType typeMapping +:+ "[]"
          /\ me_zodValidator m = "z.array(" +:+ zodValidator typeMapping +:+ ")")
    /\ (isArray m = false ->
          me_tsType m = tsType typeMapping
          /\ me_zodValidator m = zodValidator typeMapping)
    /\ (minOccurs element = Some (Int 0) -> severalOccurs (maxOccurs element) ->
          me_optional m = true /\ isArray m = true).
Proof.
  intros ext naming schema element m typeMapping.
  assert (Hopt : me_optional m = true <-> minOccurs element = Some (Int 0)).
  { subst m. destruct element as [n t c s a mi ma r rf nl]; simpl.
    destruct mi as [[|z]|]; simpl; split; intros H; try discriminate.
    - apply Z.eqb_eq in H. now subst.
    - injection H as ->. reflexivity. }
  assert (Harr : isArray m = true <-> severalOccurs (maxOccurs element)).
  { subst m. destruct element as [n t c s a mi ma r rf nl]; simpl.
    unfold severalOccurs, isArrayOf.
    destruct ma as [[|[|z]]|]; simpl.
    - split; [now left | reflexivity].
    - split; [discriminate|]. intros [H|[z [H _]]]; discriminate.
    - split.
      + intros H. right. exists z. split; [reflexivity | now apply Z.ltb_lt].
      + intros [H|[z' [H Hz]]]; [discriminate|].
        apply Z.ltb_lt. congruence.
    - split; [discriminate|]. intros [H|[z [H _]]]; discriminate. }
  split; [exact Hopt|]. split; [exact Harr|].
  assert (Hshape : me_tsType m = tsType (arrayOf (isArray m) typeMapping)
                   /\ me_zodValidator m = zodValidator (arrayOf (isArray m) typeMapping)).
  { subst m typeMapping. destruct element as [n t c s a mi ma r rf nl]; simpl.
    destruct c; split; reflexivity. }
  destruct Hshape as [Hts Hzod].
  split; [|split].
  - intros H. rewrite Hts, Hzod, H. split; reflexivity.
  - intros H. rewrite Hts, Hzod, H. split; reflexivity.
  - intros Hmin Hmax. split; [now apply Hopt | now apply Harr].
Qed.

Lemma mapElement_cardinality_witness :
  let element := mkElement (Some "item") (Some "string") None None []
                   (Some (Int 0)) (Some Unbounded) (Some false) None (Some false) in
  let m := mapElement asWritten original emptySchema element in
  me_optional m = true /\ isArray m = true
  /\ me_tsType m = "string[]" /\ me_zodValidator m = "z.array(z.string())".
Proof.
  intros element m.
  destruct (mapElement_cardinality asWritten original emptySchema element)
    as (Hopt & Harr & Hshape & _ & Hboth).
  destruct (Hboth eq_refl (or_introl eq_refl)) as [H1 H2].
  destruct (Hshape H2) as [H3 H4].
  repeat split; assumption.
Defined.

(** ** The namespace resolver *)

(** What C10 supposes of the root's keys: the bare [xmlns] holds the XSD
    namespace, and a prefixed declaration binds another URI to a prefix that
    is not empty. *)
Definition defaultNamespaceOnly (fields : list (string * JsVal)) : Prop :=
  In ("xmlns", JStr XSD_NAMESPACE_URI) fields
  /\ (forall v, In ("xmlns", v) fields -> v = JStr XSD_NAMESPACE_URI)
  /\ (forall k v, In (k, v) fields -> k <> "xmlns" -> isPrefixedDecl k = true ->
        isXsdUri v = false /\ declPrefix k <> Some "").

Lemma nsStep_keeps_undetected (ctx : NamespaceContext) (k : string) (v : JsVal) :
  xsdPrefix ctx = None ->
  (k <> "xmlns" -> isPrefixedDecl k = true -> isXsdUri v = false) ->
  xsdPrefix (nsStep ctx (k, v)) = None.
Proof.
  intros Hctx Hk. unfold nsStep.
  destruct (String.eqb_spec k "xmlns") as [->|Hne]; [exact Hctx|].
  destruct (isPrefixedDecl k) eqn:Hdecl; [|exact Hctx].
  simpl. now rewrite (Hk Hne eq_refl).
Qed.

Lemma fold_nsStep_undetected (fields : list (string * JsVal)) :
  forall ctx : NamespaceContext,
    xsdPrefix ctx = None ->
    (forall k v, In (k, v) fields -> k <> "xmlns" -> isPrefixedDecl k = true ->
       isXsdUri v = false) ->
    xsdPrefix (fold_left nsStep fields ctx) = None.
Proof.
  induction fields as [|[k v] fields IH]; intros ctx Hctx Hall; simpl.
  - exact Hctx.
  - apply IH.
    + apply nsStep_keeps_undetected; [exact Hctx|].
      intros Hne Hdecl. apply (Hall k v); auto. now left.
    + intros k' v' Hin. apply Hall. now right.
Qed.

Lemma fold_nsStep_default_mapping (fields : list (string * JsVal)) :
  forall ctx : NamespaceContext,
    (forall v, In ("xmlns", v) fields -> v = JStr XSD_NAMESPACE_URI) ->
    (forall k v, In (k, v) fields -> k <> "xmlns" -> isPrefixedDecl k = true ->
       declPrefix k <> Some "") ->
    namespaceMappings ctx !! Some "" = Some (JStr XSD_NAMESPACE_URI)
    \/ In ("xmlns", JStr XSD_NAMESPACE_URI) fields ->
    namespaceMappings (fold_left nsStep fields ctx) !! Some ""
      = Some (JStr XSD_NAMESPACE_URI).
Proof.
  induction fields as [|[k v] fields IH]; intros ctx Hx Hp Hstart; simpl.
  - destruct Hstart as [H|[]]. exact H.
  - apply IH.
    + intros v' Hin. apply Hx. now right.
    + intros k' v' Hin. apply (Hp k' v'). now right.
    + unfold nsStep.
      destruct (String.eqb_spec k "xmlns") as [->|Hne].
      * left. simpl. rewrite (Hx v (or_introl eq_refl)).
        apply lookup_insert_eq.
      * destruct Hstart as [Hm|[Heq|Hin]].
        -- left. destruct (isPrefixedDecl k) eqn:Hdecl; [|exact Hm].
           simpl. rewrite lookup_insert_ne; [exact Hm|].
           apply (Hp k v); auto. now left.
        -- congruence.
        -- now right.
Qed.

(** C10: when the root declares the XSD namespace through the bare [xmlns]
    key only, [extractNamespaces] files the URI under the empty prefix and
    leaves [xsdPrefix] undefined; [parseXsd] then logs its warning and parses
    with no prefix. *)
Theorem default_namespace_is_not_detected :
  forall (fields : list (string * JsVal)),
    defaultNamespaceOnly fields ->
    namespaceMappings (extractNamespaces (JObj fields)) !! Some ""
      = Some (JStr XSD_NAMESPACE_URI)
    /\ xsdPrefix (extractNamespaces (JObj fields)) = None
    /\ forall (parsed : JsVal) (rootWarnings : list string),
         findSchemaElement parsed = (JObj fields, rootWarnings) ->
         parseXsd parsed
         = (rootWarnings ++ [noPrefixWarning],
            assembleSchema (S (Tree.depth parsed)) (JObj fields) None).
Proof.
  intros fields (Hin & Hx & Hp).
  assert (Hnone : xsdPrefix (extractNamespaces (JObj fields)) = None).
  { unfold extractNamespaces; simpl. apply fold_nsStep_undetected; [reflexivity|].
    intros k v Hkv Hne Hdecl. now apply (Hp k v). }
  split; [|split].
  - unfold extractNamespaces; simpl. apply fold_nsStep_default_mapping.
    + exact Hx.
    + intros k v Hkv Hne Hdecl. now apply (Hp k v).
    + now right.
  - exact Hnone.
  - intros parsed rootWarnings Hroot. unfold parseXsd. rewrite Hroot, Hnone.
    reflexivity.
Qed.

Definition defaultNamespaceRoot : list (string * JsVal) :=
  [("xmlns", JStr XSD_NAMESPACE_URI);
   ("xmlns:tns", JStr "http://example.com/orders");
   ("element", JObj [("name", JStr "Test"); ("type", JStr "string")])].

Lemma default_namespace_is_not_detected_witness :
  xsdPrefix (extractNamespaces (JObj defaultNamespaceRoot)) = None
  /\ fst (parseXsd (JObj [("schema", JObj defaultNamespaceRoot)])) = [noPrefixWarning].
Proof.
  assert (H : defaultNamespaceOnly defaultNamespaceRoot).
  { split; [now left|]. split.
    - intros v [Hv|[Hv|[Hv|[]]]]; try discriminate. congruence.
    - intros k v [Hv|[Hv|[Hv|[]]]] Hne Hdecl; injection Hv as <- <-;
        try congruence; try discriminate.
      split; [reflexivity | discriminate]. }
  destruct (default_namespace_is_not_detected defaultNamespaceRoot H)
    as (_ & Hnone & Hparse).
  split; [exact Hnone|].
  rewrite (Hparse (JObj [("schema", JObj defaultNamespaceRoot)]) [] eq_refl).
  reflexivity.
Defined.

(** ** The depth bound of the parser

    The recursive functions of the parser take a bound on the nesting depth.
    A larger bound never changes a result, and a bound above the depth of
    the node is never exhausted: the [OutOfFuel] outcome does not arise in
    [parseXsd]. *)

Section Fuel.

(** [r1] is [r2], unless the bound was exhausted in [r1]. *)
Definition approx {A : Type} (r1 r2 : result A) : Prop :=
  r1 = OutOfFuel \/ r1 = r2.

Definition fueled {A : Type} (r : result A) : Prop := r <> OutOfFuel.

Lemma approx_refl {A : Type} (r : result A) : approx r r.
Proof. now right. Qed.

Lemma bind_approx {A B : Type} (r1 r2 : result A) (k1 k2 : A -> result B) :
  approx r1 r2 -> (forall a, approx (k1 a) (k2 a)) ->
  approx (bind r1 k1) (bind r2 k2).
Proof.
  intros [->| ->] Hk; [now left|].
  destruct r2; simpl; [apply Hk | now right | now right].
Qed.

Lemma forOf_approx {A S : Type} (b1 b2 : S -> A -> result S) (xs : list A) :
  (forall acc x, approx (b1 acc x) (b2 acc x)) ->
  forall acc, approx (forOf b1 xs acc) (forOf b2 xs acc).
Proof.
  intros Hb. induction xs as [|x xs IH]; intros acc; simpl.
  - apply approx_refl.
  - apply bind_approx; [apply Hb | exact IH].
Qed.

Lemma compositor_approx
    (p1 p2 : JsVal -> option (list XsdElement) ->
             result (list XsdElement * option (list XsdElement)))
    (node : option JsVal) (parentChoice : option (list XsdElement)) :
  (forall n c, approx (p1 n c) (p2 n c)) ->
  approx (compositor p1 node parentChoice) (compositor p2 node parentChoice).
Proof.
  intros Hp. unfold compositor. destruct node as [n|]; [|apply approx_refl].
  destruct (Tree.truthy n); [|apply approx_refl].
  apply bind_approx; [apply Hp | intros r; apply approx_refl].
Qed.

Lemma bind_fueled {A B : Type} (r : result A) (k : A -> result B) :
  fueled r -> (forall a, r = Ok a -> fueled (k a)) -> fueled (bind r k).
Proof.
  unfold fueled. intros Hr Hk. destruct r; simpl; [now apply Hk | discriminate | congruence].
Qed.

Lemma forOf_fueled {A S : Type} (body : S -> A -> result S) (xs : list A) :
  (forall acc x, In x xs -> fueled (body acc x)) ->
  forall acc, fueled (forOf body xs acc).
Proof.
  induction xs as [|x xs IH]; intros Hb acc; simpl.
  - discriminate.
  - apply bind_fueled.
    + apply Hb. now left.
    + intros acc' _. apply IH. intros a y Hy. apply Hb. now right.
Qed.

Lemma parseElement_eq (fuel : nat) (el : JsVal) (xsdPrefix : option string) :
  parseElement (S fuel) el xsdPrefix =
  if negb (Tree.truthy el) then Ok None
  else
    let* attributes := parseAttributes el xsdPrefix in
    let* complexType := getTypeValue el "complexType" xsdPrefix in
    let* ct :=
      match complexType with
      | Some c =>
          if Tree.truthy c
          then parseComplexType fuel c xsdPrefix (Tree.attr el "name")
          else Ok None
      | None => Ok None
      end in
    let* simpleType := getTypeValue el "simpleType" xsdPrefix in
    let* st :=
      match simpleType with
      | Some s =>
          if Tree.truthy s
          then parseSimpleType s xsdPrefix (Tree.attr el "name")
          else Ok None
      | None => Ok None
      end in
    Ok (Some (mkElement
      (Tree.attr el "name")
      (match Tree.attr el "type" with
       | Some t => if Js.nonEmpty t then Some (stripNamespace t) else None
       | None => None
       end)
      ct st attributes
      (optMap parseIntOf (Tree.prop el "minOccurs"))
      (parseMaxOccurs el)
      (Some (Js.truthyStr (Tree.attr el "ref")))
      (Tree.attr el "ref")
      (Some (match Tree.prop el "nillable" with
             | Some (JStr n) => String.eqb n "true"
             | Some (JBool b) => b
             | _ => false
             end)))).
Proof. reflexivity. Qed.

Lemma parseComplexType_eq (fuel : nat) (ct : JsVal) (xsdPrefix : option string)
    (name : option string) :
  parseComplexType (S fuel) ct xsdPrefix name =
  if negb (Tree.truthy ct) then Ok None
  else
    let nested := compositor (fun n c => parseNestedElements fuel n c xsdPrefix) in
    let* attributes := parseAttributes ct xsdPrefix in
    let* sequenceNode := getTypeValue ct "sequence" xsdPrefix in
    let* seqR := nested sequenceNode None in
    let* choiceNode := getTypeValue ct "choice" xsdPrefix in
    let* choiceR := nested choiceNode (snd seqR) in
    let choice1 :=
      match fst choiceR with
      | Some parsedChoice => Some parsedChoice
      | None => snd choiceR
      end in
    let* allNode := getTypeValue ct "all" xsdPrefix in
    let* allR := nested allNode choice1 in
    let* complexContent := getTypeValue ct "complexContent" xsdPrefix in
    let* simpleContent := getTypeValue ct "simpleContent" xsdPrefix in
    let wrapper :=
      if Tree.truthyOpt complexContent then complexContent
      else if Tree.truthyOpt simpleContent then simpleContent
      else None in
    let* extR :=
      match wrapper with
      | Some w =>
          let* ext := getTypeValue w "extension" xsdPrefix in
          match ext with
          | Some e =>
              if Tree.truthy e then
                let* extAttributes := parseAttributes e xsdPrefix in
                let* extSequence := getTypeValue e "sequence" xsdPrefix in
                let* r := nested extSequence (snd allR) in
                Ok (Some (mkExtension
                            (match Tree.attr e "base" with
                             | Some b => if Js.nonEmpty b
                                         then Some (stripNamespace b) else None
                             | None => None
                             end)
                            (fst r) extAttributes),
                    snd r)
              else Ok (None, snd allR)
          | None => Ok (None, snd allR)
          end
      | None => Ok (None, snd allR)
      end in
    Ok (Some (mkComplexType name (fst seqR) (snd extR) (fst allR)
      (attributes ++ match fst extR with
                     | Some x => ext_attributes x
                     | None => []
                     end)
      (fst extR)
      (orNil (fst seqR) ++ orNil (fst choiceR) ++ orNil (fst allR)
       ++ match fst extR with
          | Some x => orNil (ext_sequence x)
          | None => []
          end))).
Proof. reflexivity. Qed.

Lemma parseNestedElements_eq (fuel : nat) (container : JsVal)
    (parentChoice : option (list XsdElement)) (xsdPrefix : option string) :
  parseNestedElements (S fuel) container parentChoice xsdPrefix =
  let* elementArray := getAsArray container "element" xsdPrefix in
  let* elements0 :=
    forOf (fun elements el =>
             let* element := parseElement fuel el xsdPrefix in
             Ok (pushIf element elements)) elementArray [] in
  let* choiceArray := getAsArray container "choice" xsdPrefix in
  forOf (fun (st : list XsdElement * option (list XsdElement)) ch =>
           let parent0 := match snd st with Some c => Some c | None => Some [] end in
           let* r := parseNestedElements fuel ch parent0 xsdPrefix in
           Ok (fold_left mergeChoiceElement (fst r) (fst st, snd r)))
        choiceArray (elements0, parentChoice).
Proof. reflexivity. Qed.

Ltac approx_step :=
  match goal with
  | |- approx (bind _ _) (bind _ _) => apply bind_approx; [|intros ?]
  | |- approx (forOf _ _ _) (forOf _ _ _) => apply forOf_approx; intros ? ?
  | |- approx (compositor _ _ _) (compositor _ _ _) => apply compositor_approx; intros ? ?
  | |- approx ?r ?r => apply approx_refl
  | |- approx (if ?b then _ else _) (if ?b then _ else _) => destruct b
  | |- approx (match ?o with _ => _ end) (match ?o with _ => _ end) => destruct o
  end.

Lemma parser_fuel_monotone (fuel : nat) :
  (forall el p, approx (parseElement fuel el p) (parseElement (S fuel) el p))
  /\ (forall ct p n,
        approx (parseComplexType fuel ct p n) (parseComplexType (S fuel) ct p n))
  /\ (forall c pc p,
        approx (parseNestedElements fuel c pc p) (parseNestedElements (S fuel) c pc p)).
Proof.
  induction fuel as [|fuel (IHe & IHc & IHn)].
  - repeat split; intros; now left.
  - split; [|split].
    + intros el p. rewrite (parseElement_eq fuel), (parseElement_eq (S fuel)).
      repeat approx_step. apply IHc.
    + intros ct p n.
      rewrite (parseComplexType_eq fuel), (parseComplexType_eq (S fuel)). cbv zeta.
      repeat first [ approx_step | apply IHn ].
    + intros c pc p.
      rewrite (parseNestedElements_eq fuel), (parseNestedElements_eq (S fuel)).
      cbv zeta.
      repeat first [ approx_step | apply IHe | apply IHn ].
Qed.

End Fuel.

Section Adequacy.

Lemma assoc_depth (k : string) (fs : list (string * JsVal)) (v : JsVal) :
  Tree.assoc k fs = Some v -> Tree.depth v < Tree.depth (JObj fs).
Proof.
  simpl. induction fs as [|[k' x] fs IH]; simpl; [discriminate|].
  destruct (String.eqb k k').
  - intros [= ->]. lia.
  - intros H. specialize (IH H). lia.
Qed.

Lemma item_depth (items : list JsVal) (x : JsVal) :
  In x items -> Tree.depth x < Tree.depth (JArr items).
Proof.
  simpl. induction items as [|y items IH]; simpl; [tauto|].
  intros [->|H]; [lia|]. specialize (IH H). lia.
Qed.

Lemma prop_depth (c : JsVal) (k : string) (v : JsVal) :
  Tree.prop c k = Some v -> Tree.depth v < Tree.depth c.
Proof.
  destruct c as [s|t|b|items|fs]; simpl; try discriminate. apply assoc_depth.
Qed.

Lemma hasKey_fueled (k : string) (c : JsVal) : fueled (Tree.hasKey k c).
Proof. destruct c; discriminate. Qed.

Lemma getTypeValue_fueled (c : JsVal) (k : string) (p : option string) :
  fueled (getTypeValue c k p).
Proof.
  unfold getTypeValue. destruct (negb (Tree.truthy c)); [discriminate|].
  apply bind_fueled; [apply hasKey_fueled|]. intros [|] _; [discriminate|].
  destruct (Js.truthyStr p); [|discriminate].
  apply bind_fueled; [apply hasKey_fueled|]. intros [|] _; discriminate.
Qed.

Lemma getTypeValue_depth (c : JsVal) (k : string) (p : option string) (v : JsVal) :
  getTypeValue c k p = Ok (Some v) -> Tree.depth v < Tree.depth c.
Proof.
  unfold getTypeValue. destruct (negb (Tree.truthy c)); [discriminate|].
  destruct (Tree.hasKey k c) as [[|]| |]; simpl; try discriminate.
  - intros [= H]. now apply prop_depth in H.
  - destruct (Js.truthyStr p); [|discriminate].
    destruct (Tree.hasKey _ c) as [[|]| |]; simpl; try discriminate.
    intros [= H]. now apply prop_depth in H.
Qed.

Lemma getAsArray_fueled (c : JsVal) (k : string) (p : option string) :
  fueled (getAsArray c k p).
Proof.
  unfold getAsArray. apply bind_fueled; [apply getTypeValue_fueled|].
  intros [[s|t|b|items|fs]|] _; discriminate.
Qed.

Lemma getAsArray_depth (c : JsVal) (k : string) (p : option string)
    (l : list JsVal) (x : JsVal) :
  getAsArray c k p = Ok l -> In x l -> Tree.depth x < Tree.depth c.
Proof.
  unfold getAsArray.
  destruct (getTypeValue c k p) as [[v|]| |] eqn:Hv; simpl; try discriminate.
  - apply getTypeValue_depth in Hv.
    destruct v as [s|t|b|items|fs]; intros [= <-] Hin;
      try (destruct Hin as [<-|[]]; exact Hv).
    apply item_depth in Hin. lia.
  - intros [= <-] [].
Qed.

Lemma parseFacetValue_fueled {A : Type} (r : JsVal) (k : string)
    (parser : string -> A) (p : option string) :
  fueled (parseFacetValue r k parser p).
Proof.
  unfold parseFacetValue. apply bind_fueled; [apply getTypeValue_fueled|].
  intros [f|] _; [destruct (Tree.truthy f)|]; discriminate.
Qed.

Lemma parseEnumerations_fueled (r : JsVal) (p : option string) :
  fueled (parseEnumerations r p).
Proof.
  unfold parseEnumerations. apply bind_fueled; [apply getAsArray_fueled|].
  intros [|x l] _; discriminate.
Qed.

Lemma parseSimpleType_fueled (st : JsVal) (p : option string) (n : option string) :
  fueled (parseSimpleType st p n).
Proof.
  unfold parseSimpleType. destruct (negb (Tree.truthy st)); [discriminate|].
  apply bind_fueled; [apply getTypeValue_fueled|]. intros found _. cbv zeta.
  apply bind_fueled; [apply parseEnumerations_fueled|]. intros ? _.
  repeat (apply bind_fueled; [apply parseFacetValue_fueled|]; intros ? _).
  discriminate.
Qed.

Lemma parseAttributes_fueled (parent : JsVal) (p : option string) :
  fueled (parseAttributes parent p).
Proof.
  unfold parseAttributes. apply bind_fueled; [apply getAsArray_fueled|].
  intros attrArray _. apply forOf_fueled. intros acc a _.
  apply bind_fueled; [apply getTypeValue_fueled|]. intros v _.
  apply bind_fueled.
  - destruct v as [v|]; [|discriminate].
    destruct (Tree.truthy v); [apply parseSimpleType_fueled | discriminate].
  - intros ? _. discriminate.
Qed.

Lemma compositor_fueled
    (parse : JsVal -> option (list XsdElement) ->
             result (list XsdElement * option (list XsdElement)))
    (c : JsVal) (k : string) (p : option string) (node : option JsVal)
    (parentChoice : option (list XsdElement)) :
  getTypeValue c k p = Ok node ->
  (forall n pc, Tree.depth n < Tree.depth c -> fueled (parse n pc)) ->
  fueled (compositor parse node parentChoice).
Proof.
  intros Hnode Hparse. unfold compositor. destruct node as [n|]; [|discriminate].
  destruct (Tree.truthy n); [|discriminate].
  apply bind_fueled.
  - apply Hparse. now apply getTypeValue_depth in Hnode.
  - intros ? _. discriminate.
Qed.

Lemma parser_fueled (fuel : nat) :
  (forall el p, Tree.depth el < fuel -> fueled (parseElement fuel el p))
  /\ (forall ct p n, Tree.depth ct < fuel -> fueled (parseComplexType fuel ct p n))
  /\ (forall c pc p, Tree.depth c < fuel -> fueled (parseNestedElements fuel c pc p)).
Proof.
  induction fuel as [|fuel (IHe & IHc & IHn)].
  - repeat split; intros; lia.
  - split; [|split].
    + intros el p Hd. rewrite parseElement_eq.
      destruct (negb (Tree.truthy el)); [discriminate|].
      apply bind_fueled; [apply parseAttributes_fueled|]. intros attrs _.
      apply bind_fueled; [apply getTypeValue_fueled|]. intros complexType Hct.
      apply bind_fueled.
      { destruct complexType as [c|]; [|discriminate].
        destruct (Tree.truthy c); [|discriminate].
        apply IHc. apply getTypeValue_depth in Hct. lia. }
      intros ct _.
      apply bind_fueled; [apply getTypeValue_fueled|]. intros simpleType _.
      apply bind_fueled.
      { destruct simpleType as [s|]; [|discriminate].
        destruct (Tree.truthy s); [apply parseSimpleType_fueled | discriminate]. }
      intros st _. discriminate.
    + intros ct p n Hd. rewrite parseComplexType_eq. cbv zeta.
      destruct (negb (Tree.truthy ct)); [discriminate|].
      assert (Hnested : forall m pc, Tree.depth m < Tree.depth ct ->
                fueled (parseNestedElements fuel m pc p)).
      { intros m pc Hm. apply IHn. lia. }
      apply bind_fueled; [apply parseAttributes_fueled|]. intros attrs _.
      apply bind_fueled; [apply getTypeValue_fueled|]. intros sequenceNode Hseq.
      apply bind_fueled; [now apply (compositor_fueled _ ct "sequence" p)|].
      intros seqR _.
      apply bind_fueled; [apply getTypeValue_fueled|]. intros choiceNode Hch.
      apply bind_fueled; [now apply (compositor_fueled _ ct "choice" p)|].
      intros choiceR _.
      apply bind_fueled; [apply getTypeValue_fueled|]. intros allNode Hall.
      apply bind_fueled; [now apply (compositor_fueled _ ct "all" p)|].
      intros allR _.
      apply bind_fueled; [apply getTypeValue_fueled|]. intros complexContent Hcc.
      apply bind_fueled; [apply getTypeValue_fueled|]. intros simpleContent Hsc.
      apply bind_fueled; [|intros ? _; discriminate].
      assert (Hw : forall w,
                (if Tree.truthyOpt complexContent then complexContent
                 else if Tree.truthyOpt simpleContent then simpleContent else None)
                = Some w -> Tree.depth w < Tree.depth ct).
      { intros w. destruct (Tree.truthyOpt complexContent).
        - intros ->. now apply getTypeValue_depth in Hcc.
        - destruct (Tree.truthyOpt simpleContent); [|discriminate].
          intros ->. now apply getTypeValue_depth in Hsc. }
      destruct (if Tree.truthyOpt complexContent then complexContent
                else if Tree.truthyOpt simpleContent then simpleContent else None)
        as [w|]; [|discriminate].
      specialize (Hw w eq_refl).
      apply bind_fueled; [apply getTypeValue_fueled|]. intros ext Hext.
      destruct ext as [e|]; [|discriminate].
      destruct (Tree.truthy e); [|discriminate].
      apply getTypeValue_depth in Hext.
      apply bind_fueled; [apply parseAttributes_fueled|]. intros extAttributes _.
      apply bind_fueled; [apply getTypeValue_fueled|]. intros extSequence Hes.
      apply bind_fueled; [|intros ? _; discriminate].
      apply (compositor_fueled _ e "sequence" p); [exact Hes|].
      intros m pc Hm. apply IHn. lia.
    + intros c pc p Hd. rewrite parseNestedElements_eq.
      apply bind_fueled; [apply getAsArray_fueled|]. intros elementArray Hel.
      apply bind_fueled.
      { apply forOf_fueled. intros acc el Hin.
        apply bind_fueled; [|intros ? _; discriminate].
        apply IHe. apply (getAsArray_depth _ _ _ _ _ Hel) in Hin. lia. }
      intros elements0 _.
      apply bind_fueled; [apply getAsArray_fueled|]. intros choiceArray Hch.
      apply forOf_fueled. intros acc ch Hin. cbv zeta.
      apply bind_fueled; [|intros ? _; discriminate].
      apply IHn. apply (getAsArray_depth _ _ _ _ _ Hch) in Hin. lia.
Qed.

End Adequacy.

Lemma findSchemaElement_depth (parsed : JsVal) :
  Tree.depth (fst (findSchemaElement parsed)) <= Tree.depth parsed.
Proof.
  unfold findSchemaElement.
  destruct (List.filter isSchemaKey (Tree.keys parsed)) as [|k [|k' ks]]; simpl.
  - lia.
  - destruct (Tree.prop parsed k) as [v|] eqn:Hv; [|lia].
    apply prop_depth in Hv. lia.
  - destruct (Tree.prop parsed k) as [v|] eqn:Hv; [|lia].
    apply prop_depth in Hv. lia.
Qed.

Lemma assembleSchema_fueled (fuel : nat) (xsd : JsVal) (p : option string) :
  Tree.depth xsd < fuel -> fueled (assembleSchema fuel xsd p).
Proof.
  intros Hd. destruct (parser_fueled fuel) as (He & Hc & _).
  assert (Hcts : fueled (parseComplexTypes fuel xsd p)).
  { unfold parseComplexTypes. apply bind_fueled; [apply getAsArray_fueled|].
    intros typeArray Harr. apply forOf_fueled. intros acc ct Hin.
    apply bind_fueled; [|intros ? _; discriminate].
    apply Hc. apply (getAsArray_depth _ _ _ _ _ Harr) in Hin. lia. }
  assert (Hsts : forall node, fueled (
            forOf (fun types st =>
                     let* simpleType := parseSimpleType st p (Tree.attr st "name") in
                     Ok (pushIf simpleType types)) node [])).
  { intros node. apply forOf_fueled. intros acc st _.
    apply bind_fueled; [apply parseSimpleType_fueled | intros ? _; discriminate]. }
  unfold assembleSchema.
  apply bind_fueled.
  { unfold parseElements. apply bind_fueled; [apply getAsArray_fueled|].
    intros elementArray Harr. apply bind_fueled; [exact Hcts|]. intros cts _.
    apply forOf_fueled. intros acc el Hin.
    apply bind_fueled.
    - apply He. apply (getAsArray_depth _ _ _ _ _ Harr) in Hin. lia.
    - intros [e|] _; discriminate. }
  intros elements _. apply bind_fueled; [exact Hcts|]. intros cts _.
  apply bind_fueled.
  { unfold parseSimpleTypes. apply bind_fueled; [apply getAsArray_fueled|].
    intros typeArray _. apply Hsts. }
  intros sts _. apply bind_fueled; [apply getTypeValue_fueled|]. intros annotation _.
  apply bind_fueled; [|intros ? _; discriminate].
  destruct annotation as [a|]; [|discriminate].
  destruct (Tree.truthy a); [|discriminate].
  unfold parseSimpleTypesFromAnnotation.
  apply bind_fueled; [apply getTypeValue_fueled|]. intros [d|] _; [|discriminate].
  destruct (Tree.truthy d); [|discriminate].
  apply bind_fueled; [apply getAsArray_fueled|]. intros arr _. apply Hsts.
Qed.

(** The bound that [parseXsd] picks is never exhausted: whatever the tree,
    the outcome is a schema or a [TypeError]. *)
Lemma parseXsd_fueled (parsed : JsVal) : fueled (snd (parseXsd parsed)).
Proof.
  unfold parseXsd. pose proof (findSchemaElement_depth parsed) as Hd.
  destruct (findSchemaElement parsed) as [xsd w]. simpl in *.
  apply assembleSchema_fueled. lia.
Qed.

(** ** The complex-type parser *)

Lemma bind_Ok {A B : Type} (r : result A) (k : A -> result B) (b : B) :
  bind r k = Ok b -> exists a, r = Ok a /\ k a = Ok b.
Proof. destruct r; simpl; try discriminate. intros H. now exists a. Qed.

Lemma forOf_inv {A S : Type} (I : S -> Prop) (body : S -> A -> result S)
    (xs : list A) :
  (forall acc x acc', In x xs -> I acc -> body acc x = Ok acc' -> I acc') ->
  forall acc r, I acc -> forOf body xs acc = Ok r -> I r.
Proof.
  induction xs as [|x xs IH]; intros Hbody acc r Hacc; simpl.
  - intros [= <-]. exact Hacc.
  - intros H. apply bind_Ok in H as (acc' & Hx & Hrest).
    apply (IH (fun a y a' Hy => Hbody a y a' (or_intror Hy)) acc' r); [|exact Hrest].
    apply (Hbody acc x acc'); auto. now left.
Qed.

Lemma fold_mergeChoiceElement_choice (xs : list XsdElement)
    (acc : list XsdElement * option (list XsdElement)) :
  snd (fold_left mergeChoiceElement xs acc)
  = match snd acc with Some c => Some (c ++ xs) | None => None end.
Proof.
  revert acc. induction xs as [|x xs IH]; intros [els [c|]]; simpl.
  - now rewrite app_nil_r.
  - reflexivity.
  - rewrite IH. simpl. now rewrite <- app_assoc.
  - rewrite IH. reflexivity.
Qed.

(** [parseNestedElements] only ever appends to the parent's [choice]. *)
Lemma parseNestedElements_choice_grows (fuel : nat) :
  forall c pc p els pc',
    parseNestedElements fuel c pc p = Ok (els, pc') ->
    exists pushed, orNil pc' = orNil pc ++ pushed.
Proof.
  induction fuel as [|fuel IH]; intros c pc p els pc'; [discriminate|].
  rewrite parseNestedElements_eq. intros H.
  apply bind_Ok in H as (elementArray & _ & H).
  apply bind_Ok in H as (elements0 & _ & H).
  apply bind_Ok in H as (choiceArray & _ & H).
  apply (forOf_inv (fun st => exists pushed, orNil (snd st) = orNil pc ++ pushed))
    in H; [exact H| |exists []; simpl; now rewrite app_nil_r].
  intros [accEls accCh] ch [els' ch'] _ [pushed Hacc] Hbody. simpl in *.
  apply bind_Ok in Hbody as ([rEls rCh] & Hrec & Hfold).
  injection Hfold as Hfold. apply (f_equal snd) in Hfold. simpl in Hfold.
  apply IH in Hrec as [pushed' Hrec].
  pose proof (fold_mergeChoiceElement_choice rEls (accEls, rCh)) as Hsnd.
  simpl in Hsnd. rewrite Hsnd in Hfold. subst ch'.
  assert (HaccCh : orNil match accCh with Some c0 => Some c0 | None => Some [] end
                   = orNil accCh) by (destruct accCh; reflexivity).
  rewrite HaccCh, Hacc in Hrec.
  destruct rCh as [l|]; simpl in *.
  - exists (pushed ++ pushed' ++ rEls). subst l. now rewrite <- ?app_assoc.
  - symmetry in Hrec. apply app_eq_nil in Hrec as [Hnil _].
    apply app_eq_nil in Hnil as [Hnil _]. exists []. now rewrite Hnil.
Qed.

Lemma parseNestedElements_plain (fuel : nat) :
  forall c pc p els pc',
    getAsArray c "choice" p = Ok [] ->
    parseNestedElements fuel c pc p = Ok (els, pc') ->
    pc' = pc.
Proof.
  destruct fuel as [|fuel]; intros c pc p els pc' Hplain; [discriminate|].
  rewrite parseNestedElements_eq. intros H.
  apply bind_Ok in H as (elementArray & _ & H).
  apply bind_Ok in H as (elements0 & _ & H).
  rewrite Hplain in H. simpl in H. now injection H as _ ->.
Qed.

(** Whether the compositor found by a lookup has a [choice] child. *)
Definition plainNode (node : result (option JsVal)) (p : option string) : bool :=
  match node with
  | Ok (Some n) =>
      if Tree.truthy n then
        match getAsArray n "choice" p with
        | Ok [] => true
        | _ => false
        end
      else true
  | _ => true
  end.

(** The [sequence] child of the extension, found as [parseComplexType] finds
    it. *)
Definition extensionSequence (ct : JsVal) (p : option string)
    : result (option JsVal) :=
  let* complexContent := getTypeValue ct "complexContent" p in
  let* simpleContent := getTypeValue ct "simpleContent" p in
  let wrapper :=
    if Tree.truthyOpt complexContent then complexContent
    else if Tree.truthyOpt simpleContent then simpleContent
    else None in
  match wrapper with
  | Some w =>
      let* ext := getTypeValue w "extension" p in
      match ext with
      | Some e => if Tree.truthy e then getTypeValue e "sequence" p else Ok None
      | None => Ok None
      end
  | None => Ok None
  end.

(** No [choice] lies inside the [sequence], the [choice], the [all] or the
    extension's [sequence] of the complex type [ct]. *)
Definition noNestedChoice (ct : JsVal) (p : option string) : bool :=
  plainNode (getTypeValue ct "sequence" p) p
  && plainNode (getTypeValue ct "choice" p) p
  && plainNode (getTypeValue ct "all" p) p
  && plainNode (extensionSequence ct p) p.

Definition extensionElements (c : XsdComplexType) : list XsdElement :=
  match extension c with
  | Some x => orNil (ext_sequence x)
  | None => []
  end.

Lemma compositor_choice_grows (fuel : nat) (p : option string)
    (node : option JsVal) (pc : option (list XsdElement))
    (r : option (list XsdElement) * option (list XsdElement)) :
  compositor (fun n c => parseNestedElements fuel n c p) node pc = Ok r ->
  (exists pushed, orNil (snd r) = orNil pc ++ pushed)
  /\ (fst r = None -> snd r = pc)
  /\ (plainNode (Ok node) p = true -> snd r = pc).
Proof.
  unfold compositor, plainNode. destruct node as [n|].
  - destruct (Tree.truthy n).
    + intros H. apply bind_Ok in H as ([els pc'] & Hrec & [= <-]). simpl.
      split; [now apply parseNestedElements_choice_grows in Hrec|].
      split; [discriminate|].
      destruct (getAsArray n "choice" p) as [[|x l]| |] eqn:Hplain; try discriminate.
      intros _. now apply (parseNestedElements_plain _ _ _ _ _ _ Hplain) in Hrec.
    + intros [= <-]. simpl. split; [exists []; now rewrite app_nil_r|]. auto.
  - intros [= <-]. simpl. split; [exists []; now rewrite app_nil_r|]. auto.
Qed.

Definition hasInlineComplexType (e : XsdElement) : bool := present (el_complexType e).

Lemma fold_mergeChoiceElement (xs : list XsdElement) (els c : list XsdElement) :
  fold_left mergeChoiceElement xs (els, Some c)
  = (els ++ List.filter hasInlineComplexType xs, Some (c ++ xs)).
Proof.
  revert els c. induction xs as [|x xs IH]; intros els c; simpl.
  - now rewrite !app_nil_r.
  - unfold mergeChoiceElement at 2. simpl. rewrite IH.
    unfold hasInlineComplexType at 2. destruct (el_complexType x) as [ct|]; simpl.
    + now rewrite <- !app_assoc.
    + now rewrite <- !app_assoc.
Qed.

(** What [parseNestedElements] leaves in the [choice] of the parent, which it
    creates when the node has a [choice] child: the alternatives [pushed]
    come after what the parent held. *)
Definition afterPush (created : bool) (pushed : list XsdElement)
    (parentChoice : option (list XsdElement)) : option (list XsdElement) :=
  if created then Some (orNil parentChoice ++ pushed) else parentChoice.

(** The list that [parseNestedElements] returns and the alternatives that it
    pushes do not depend on what the parent's [choice] holds. *)
Lemma parseNestedElements_parent (fuel : nat) :
  forall n pc p els pc',
    parseNestedElements fuel n pc p = Ok (els, pc') ->
    exists created pushed,
      forall pc2,
        parseNestedElements fuel n pc2 p = Ok (els, afterPush created pushed pc2).
Proof.
  induction fuel as [|fuel IH]; intros n pc p els pc'; [discriminate|].
  rewrite parseNestedElements_eq. intros H.
  apply bind_Ok in H as (elementArray & He & H).
  apply bind_Ok in H as (elements0 & H0 & H).
  apply bind_Ok in H as (choiceArray & Hc & H).
  match type of H with forOf ?b _ _ = _ => set (body := b) in * end.
  assert (Hloop : forall chs accEls accCh res,
            forOf body chs (accEls, accCh) = Ok res ->
            exists created pushed,
              forall accCh2,
                forOf body chs (accEls, accCh2)
                = Ok (fst res, afterPush created pushed accCh2)).
  { induction chs as [|ch chs IHchs]; intros accEls accCh res; cbn [forOf].
    - intros [= <-]. exists false, []. reflexivity.
    - intros Hrun. apply bind_Ok in Hrun as (acc' & Hb & Hrest).
      unfold body in Hb at 1. cbv zeta in Hb. cbn [fst snd] in Hb.
      apply bind_Ok in Hb as ([rEls rCh] & Hrec0 & [= <-]).
      destruct (IH _ _ _ _ _ Hrec0) as (cr & pu & Hrec).
      rewrite Hrec in Hrec0. injection Hrec0 as <-.
      assert (Hstep : forall accCh2,
                body (accEls, accCh2) ch
                = Ok (accEls ++ List.filter hasInlineComplexType rEls,
                      Some ((orNil accCh2 ++ (if cr then pu else [])) ++ rEls))).
      { intros accCh2. unfold body. cbv zeta. cbn [fst snd].
        rewrite Hrec. cbn [bind fst snd].
        replace (afterPush cr pu match accCh2 with Some c => Some c | None => Some [] end)
          with (Some (orNil accCh2 ++ (if cr then pu else []))).
        - now rewrite fold_mergeChoiceElement.
        - unfold afterPush. destruct cr, accCh2; simpl; now rewrite ?app_nil_r. }
      cbn [fst snd] in Hrest.
      assert (Hacc : fold_left mergeChoiceElement rEls
                       (accEls, afterPush cr pu
                                  match accCh with Some c => Some c | None => Some [] end)
                     = (accEls ++ List.filter hasInlineComplexType rEls,
                        Some ((orNil accCh ++ (if cr then pu else [])) ++ rEls))).
      { pose proof (Hstep accCh) as Hs. unfold body in Hs. cbv zeta in Hs.
        cbn [fst snd] in Hs. rewrite Hrec in Hs. cbn [bind fst snd] in Hs.
        now injection Hs. }
      rewrite Hacc in Hrest.
      apply IHchs in Hrest as (cr' & pu' & Hrest).
      exists true, ((if cr then pu else []) ++ rEls ++ (if cr' then pu' else [])).
      intros accCh2. rewrite Hstep. cbn [bind]. rewrite Hrest. do 2 f_equal.
      unfold afterPush. destruct cr'; cbn [orNil]; now rewrite <- ?app_assoc, ?app_nil_r. }
  apply Hloop in H as (created & pushed & H).
  exists created, pushed. intros pc2. rewrite parseNestedElements_eq, He. cbn [bind].
  rewrite H0. cbn [bind]. rewrite Hc. cbn [bind]. apply H.
Qed.

(** What [parseNestedElements] does with the node of a compositor: the list
    it returns and the alternatives it pushes into the [choice] of the
    parent, both empty without a node. *)
Definition nestedIn (fuel : nat) (p : option string) (node : result (option JsVal))
    : result (list XsdElement * list XsdElement) :=
  let* found := node in
  match found with
  | Some n =>
      if Tree.truthy n then
        let* r := parseNestedElements fuel n (Some []) p in
        Ok (fst r, orNil (snd r))
      else Ok ([], [])
  | None => Ok ([], [])
  end.

(** The complex type has a [choice] child of its own. *)
Definition ownChoice (ct : JsVal) (p : option string) : bool :=
  match getTypeValue ct "choice" p with
  | Ok found => Tree.truthyOpt found
  | _ => false
  end.

Lemma compositor_parts (fuel : nat) (p : option string) (node : option JsVal)
    (pc : option (list XsdElement))
    (r : option (list XsdElement) * option (list XsdElement)) :
  compositor (fun n c => parseNestedElements fuel n c p) node pc = Ok r ->
  exists returned pushed,
    nestedIn fuel p (Ok node) = Ok (returned, pushed)
    /\ orNil (fst r) = returned
    /\ orNil (snd r) = orNil pc ++ pushed
    /\ (fst r = None -> snd r = pc)
    /\ present (fst r) = Tree.truthyOpt node.
Proof.
  unfold compositor, nestedIn. cbn [bind]. destruct node as [n|]; cbn [Tree.truthyOpt].
  - destruct (Tree.truthy n).
    + intros H. apply bind_Ok in H as ([els pc'] & Hrec & [= <-]).
      destruct (parseNestedElements_parent _ _ _ _ _ _ Hrec) as (created & pushed & Hall).
      rewrite Hall in Hrec. injection Hrec as <-. rewrite Hall. cbn [bind fst snd].
      exists els, (if created then pushed else []).
      split; [now destruct created|]. split; [reflexivity|].
      split; [unfold afterPush; destruct created; cbn [orNil]; now rewrite ?app_nil_r|].
      split; [discriminate | reflexivity].
    + intros [= <-]. exists [], []. cbn [fst snd orNil present].
      rewrite app_nil_r. auto.
  - intros [= <-]. exists [], []. cbn [fst snd orNil present].
    rewrite app_nil_r. auto.
Qed.

(** C2, as the code has it.  In a complex type that [parseComplexType]
    returns, [content] is the concatenation of the lists that
    [parseNestedElements] returns for the [sequence] child, for the type's
    own [choice] child, for the [all] child and for the [sequence] of the
    extension, an absent child giving no element.  The fields [sequence],
    [all] and the extension's [sequence] hold those lists.  The [choice]
    field does not: it starts with the list returned for the own [choice]
    child or, without such a child, with the alternatives that the choices
    nested in the [sequence] have pushed, and goes on with the alternatives
    pushed by the choices nested in [all] and in the extension's [sequence]
    (what the choices nested in the own [choice] push is overwritten).
    When no compositor of the type has a nested choice, nothing is pushed
    and [content] is the concatenation of the four fields. *)
Theorem parseComplexType_content :
  forall (fuel : nat) (ct : JsVal) (p name : option string) (c : XsdComplexType),
    parseComplexType fuel ct p name = Ok (Some c) ->
    (exists sR sP cR cP aR aP eR eP : list XsdElement,
        nestedIn (pred fuel) p (getTypeValue ct "sequence" p) = Ok (sR, sP)
        /\ nestedIn (pred fuel) p (getTypeValue ct "choice" p) = Ok (cR, cP)
        /\ nestedIn (pred fuel) p (getTypeValue ct "all" p) = Ok (aR, aP)
        /\ nestedIn (pred fuel) p (extensionSequence ct p) = Ok (eR, eP)
        /\ orNil (sequence c) = sR /\ orNil (all c) = aR /\ extensionElements c = eR
        /\ content c = sR ++ cR ++ aR ++ eR
        /\ orNil (choice c) = (if ownChoice ct p then cR else sP) ++ aP ++ eP)
    /\ (noNestedChoice ct p = true ->
        content c = orNil (sequence c) ++ orNil (choice c) ++ orNil (all c)
                    ++ extensionElements c).
Proof.
  intros [|fuel] ct p name c; [discriminate|].
  rewrite parseComplexType_eq. cbv zeta. cbn [pred].
  destruct (negb (Tree.truthy ct)); [discriminate|]. intros H.
  apply bind_Ok in H as (attributes & _ & H).
  apply bind_Ok in H as (sequenceNode & HseqN & H).
  apply bind_Ok in H as (seqR & Hseq & H).
  apply bind_Ok in H as (choiceNode & HchN & H).
  apply bind_Ok in H as (choiceR & Hch & H).
  apply bind_Ok in H as (allNode & HallN & H).
  apply bind_Ok in H as (allR & Hall & H).
  apply bind_Ok in H as (complexContent & Hcc & H).
  apply bind_Ok in H as (simpleContent & Hsc & H).
  apply bind_Ok in H as (extR & Hext & H).
  injection H as <-. unfold extensionElements, ownChoice.
  cbn [content sequence choice all extension].
  rewrite HseqN, HchN, HallN.
  pose proof (compositor_choice_grows _ _ _ _ _ Hseq) as (_ & _ & Hp1).
  pose proof (compositor_choice_grows _ _ _ _ _ Hch) as (_ & Hnone2 & Hp2).
  pose proof (compositor_choice_grows _ _ _ _ _ Hall) as (_ & _ & Hp3).
  apply compositor_parts in Hseq as (sR & sP & HsN & HsR & HsP & _ & _).
  apply compositor_parts in Hch as (cR & cP & HcN & HcR & HcP & HcNone & HcOwn).
  apply compositor_parts in Hall as (aR & aP & HaN & HaR & HaP & _ & _).
  cbn [orNil app] in HsP.
  (* the extension *)
  assert (Hx : exists eR eP,
             nestedIn fuel p (extensionSequence ct p) = Ok (eR, eP)
             /\ match fst extR with Some x => orNil (ext_sequence x) | None => [] end = eR
             /\ orNil (snd extR) = orNil (snd allR) ++ eP
             /\ (plainNode (extensionSequence ct p) p = true -> snd extR = snd allR)).
  { unfold extensionSequence. rewrite Hcc, Hsc. cbn [bind].
    destruct (if Tree.truthyOpt complexContent then complexContent
              else if Tree.truthyOpt simpleContent then simpleContent else None)
      as [w|].
    - apply bind_Ok in Hext as (ext & HextN & Hext). rewrite HextN. cbn [bind].
      destruct ext as [e|].
      + destruct (Tree.truthy e).
        * apply bind_Ok in Hext as (extAttributes & _ & Hext).
          apply bind_Ok in Hext as (extSequence & HesN & Hext).
          apply bind_Ok in Hext as (r & Hr & Hext).
          injection Hext as <-. cbn [fst snd ext_sequence]. rewrite HesN.
          pose proof (compositor_choice_grows _ _ _ _ _ Hr) as (_ & _ & Hp4).
          apply compositor_parts in Hr as (eR & eP & HeN & HeR & HeP & _ & _).
          exists eR, eP. auto.
        * injection Hext as <-. exists [], []. cbn [fst snd]. rewrite app_nil_r. auto.
      + injection Hext as <-. exists [], []. cbn [fst snd]. rewrite app_nil_r. auto.
    - injection Hext as <-. exists [], []. cbn [fst snd]. rewrite app_nil_r. auto. }
  destruct Hx as (eR & eP & HeN & HeR & HeP & Hp4).
  split.
  - exists sR, sP, cR, cP, aR, aP, eR, eP.
    repeat (split; [assumption|]).
    split; [now rewrite HsR, HcR, HaR, HeR|].
    rewrite HeP, HaP. rewrite <- HcOwn.
    destruct (fst choiceR) as [parsedChoice|] eqn:Hfst; cbn [present orNil].
    + simpl in HcR. subst cR. now rewrite <- app_assoc.
    + rewrite (HcNone eq_refl), HsP. now rewrite <- app_assoc.
  - unfold noNestedChoice. rewrite HseqN, HchN, HallN.
    intros Hplain. apply andb_prop in Hplain as [Hplain H4].
    apply andb_prop in Hplain as [Hplain H3].
    apply andb_prop in Hplain as [H1 H2].
    rewrite (Hp4 H4), (Hp3 H3).
    destruct (fst choiceR) as [parsedChoice|] eqn:Hfst; [reflexivity|].
    rewrite (HcNone eq_refl), (Hp1 H1). reflexivity.
Qed.

(** ** A choice nested inside a sequence *)

Lemma parseElement_more_fuel (fuel extra : nat) (el : JsVal) (p : option string)
    (e : option XsdElement) :
  parseElement fuel el p = Ok e -> parseElement (extra + fuel) el p = Ok e.
Proof.
  intros H. induction extra as [|extra IH]; [exact H|].
  destruct (parser_fuel_monotone (extra + fuel)) as (Hm & _ & _).
  change (S extra + fuel) with (S (extra + fuel)).
  destruct (Hm el p) as [Hoof|Heq]; [congruence | now rewrite <- Heq].
Qed.

(** The node of a complex type whose [xs:sequence] holds the direct element
    [d] and an [xs:choice] of the alternatives [a1] and [a2] (Scenario 6). *)
Definition sequenceWithChoice (name : string) (d a1 a2 : JsVal) : JsVal :=
  JObj [("name", JStr name);
        ("xs:sequence",
         JObj [("xs:element", d);
               ("xs:choice", JObj [("xs:element", JArr [a1; a2])])])].

Local Arguments parseElement : simpl never.
Local Arguments parseComplexType : simpl never.
Local Arguments parseNestedElements : simpl never.


Section NestedChoice.

Variables (fuel : nat) (name : string) (d a1 a2 : JsVal) (D A1 A2 : XsdElement).
Hypothesis Hd : forall items, d <> JArr items.
Hypothesis HD : parseElement fuel d (Some "xs") = Ok (Some D).
Hypothesis HA1 : parseElement fuel a1 (Some "xs") = Ok (Some A1).
Hypothesis HA2 : parseElement fuel a2 (Some "xs") = Ok (Some A2).

Let alternatives : JsVal := JObj [("xs:element", JArr [a1; a2])].
Let sequenceNode : JsVal := JObj [("xs:element", d); ("xs:choice", alternatives)].

Lemma alternatives_parse (pc : option (list XsdElement)) :
  parseNestedElements (S fuel) alternatives pc (Some "xs") = Ok ([A1; A2], pc).
Proof using HA1 HA2.
  rewrite parseNestedElements_eq.
  change (getAsArray alternatives "element" (Some "xs")) with (Ok [a1; a2]).
  change (getAsArray alternatives "choice" (Some "xs")) with (@Ok (list JsVal) []).
  cbn [bind forOf]. rewrite HA1. cbn [bind forOf pushIf]. rewrite HA2. reflexivity.
Qed.

Lemma sequenceNode_parse :
  parseNestedElements (S (S fuel)) sequenceNode None (Some "xs")
  = Ok (D :: List.filter hasInlineComplexType [A1; A2], Some [A1; A2]).
Proof using Hd HD HA1 HA2.
  rewrite parseNestedElements_eq.
  assert (Hel : getAsArray sequenceNode "element" (Some "xs") = Ok [d]).
  { destruct d as [s|t|b|items|fs]; try reflexivity. now destruct (Hd items). }
  rewrite Hel.
  change (getAsArray sequenceNode "choice" (Some "xs")) with (Ok [alternatives]).
  cbn [bind forOf].
  pose proof (parseElement_more_fuel fuel 1 d _ _ HD) as HD'.
  change (1 + fuel) with (S fuel) in HD'. rewrite HD'.
  cbn [bind forOf pushIf snd fst]. rewrite alternatives_parse.
  cbn [bind fst snd]. rewrite fold_mergeChoiceElement. reflexivity.
Qed.

End NestedChoice.

(** C5, as the code has it.  For a sequence of one direct element and a
    choice of two alternatives, the [choice] field holds both alternatives,
    while [sequence] and [content] hold the direct element followed by those
    alternatives that carry an inline complex type: an alternative without
    one is recorded in [choice] only.  [content] has length 2 when exactly
    one alternative has an inline complex type. *)
Theorem nested_choice_merge :
  forall (fuel : nat) (name : string) (d a1 a2 : JsVal) (D A1 A2 : XsdElement),
    (forall items, d <> JArr items) ->
    parseElement fuel d (Some "xs") = Ok (Some D) ->
    parseElement fuel a1 (Some "xs") = Ok (Some A1) ->
    parseElement fuel a2 (Some "xs") = Ok (Some A2) ->
    parseComplexType (3 + fuel) (sequenceWithChoice name d a1 a2) (Some "xs") (Some name)
    = Ok (Some (mkComplexType (Some name)
                  (Some (D :: List.filter hasInlineComplexType [A1; A2]))
                  (Some [A1; A2]) None [] None
                  (D :: List.filter hasInlineComplexType [A1; A2]))).
Proof.
  intros fuel name d a1 a2 D A1 A2 Hd HD HA1 HA2.
  change (3 + fuel) with (S (S (S fuel))).
  rewrite parseComplexType_eq. cbv zeta.
  change (negb (Tree.truthy (sequenceWithChoice name d a1 a2))) with false.
  change (parseAttributes (sequenceWithChoice name d a1 a2) (Some "xs"))
    with (@Ok (list XsdAttribute) []).
  change (getTypeValue (sequenceWithChoice name d a1 a2) "sequence" (Some "xs"))
    with (Ok (Some (JObj [("xs:element", d);
                          ("xs:choice", JObj [("xs:element", JArr [a1; a2])])]))).
  change (getTypeValue (sequenceWithChoice name d a1 a2) "choice" (Some "xs"))
    with (@Ok (option JsVal) None).
  change (getTypeValue (sequenceWithChoice name d a1 a2) "all" (Some "xs"))
    with (@Ok (option JsVal) None).
  change (getTypeValue (sequenceWithChoice name d a1 a2) "complexContent" (Some "xs"))
    with (@Ok (option JsVal) None).
  change (getTypeValue (sequenceWithChoice name d a1 a2) "simpleContent" (Some "xs"))
    with (@Ok (option JsVal) None).
  cbn [bind compositor Tree.truthy].
  rewrite (sequenceNode_parse fuel d a1 a2 D A1 A2 Hd HD HA1 HA2).
  cbn. rewrite !app_nil_r. reflexivity.
Qed.

Definition plainElement (name type : string) : JsVal :=
  JObj [("name", JStr name); ("type", JStr type)].

(** [field3] of the repository's test "nested inline complexType in choice". *)
Definition inlineElement : JsVal :=
  JObj [("name", JStr "field3");
        ("xs:complexType",
         JObj [("xs:sequence",
                JObj [("xs:element",
                       JArr [plainElement "nested1" "xs:boolean";
                             plainElement "nested2" "xs:dateTime"])])])].

Definition nestedChoiceType : JsVal :=
  sequenceWithChoice "NestedChoiceType" (plainElement "field1" "xs:string")
    (plainElement "field2" "xs:int") inlineElement.

(** The type of the repository's test "mixed sequence and choice". *)
Definition mixedType : JsVal :=
  sequenceWithChoice "MixedType" (plainElement "field1" "xs:string")
    (plainElement "field2" "xs:int") (plainElement "field3" "xs:boolean").

Lemma nested_choice_merge_witness :
  exists c : XsdComplexType,
    parseComplexType 7 nestedChoiceType (Some "xs") (Some "NestedChoiceType")
    = Ok (Some c)
    /\ List.length (content c) = 2
    /\ optMap (map el_name) (choice c) = Some [Some "field2"; Some "field3"].
Proof.
  eexists. split.
  - apply (nested_choice_merge 4 "NestedChoiceType").
    + discriminate.
    + vm_compute. reflexivity.
    + vm_compute. reflexivity.
    + vm_compute. reflexivity.
  - split; reflexivity.
Defined.

(** C5 fails as stated: with two alternatives that both refer to a named
    type, [content] holds the direct element only. *)
Lemma nested_choice_plain_alternatives :
  exists c : XsdComplexType,
    parseComplexType 7 mixedType (Some "xs") (Some "MixedType") = Ok (Some c)
    /\ map el_name (content c) = [Some "field1"]
    /\ optMap (map el_name) (choice c) = Some [Some "field2"; Some "field3"].
Proof. eexists. split; [vm_compute; reflexivity|]. split; reflexivity. Qed.

(** C2 fails as stated: the alternatives of the nested choice are in
    [choice] and, but for the one with an inline complex type, not in
    [content]. *)
Lemma nested_choice_content_differs :
  exists c : XsdComplexType,
    parseComplexType 7 nestedChoiceType (Some "xs") (Some "NestedChoiceType")
    = Ok (Some c)
    /\ map el_name (content c) = [Some "field1"; Some "field3"]
    /\ map el_name (orNil (sequence c) ++ orNil (choice c) ++ orNil (all c)
                    ++ extensionElements c)
       = [Some "field1"; Some "field3"; Some "field2"; Some "field3"].
Proof. eexists. split; [vm_compute; reflexivity|]. split; reflexivity. Qed.

(** A type with a sequence, a choice, an all group and an extension, none of
    which has a nested choice. *)
Definition fourCompositors : JsVal :=
  JObj [("name", JStr "Four");
        ("xs:all", JObj [("xs:element", plainElement "c" "xs:string")]);
        ("xs:complexContent",
         JObj [("xs:extension",
                JObj [("base", JStr "Base");
                      ("xs:sequence",
                       JObj [("xs:element", plainElement "d" "xs:string")])])]);
        ("xs:choice", JObj [("xs:element", plainElement "b" "xs:string")]);
        ("xs:sequence", JObj [("xs:element", plainElement "a" "xs:string")])].

Lemma parseComplexType_content_witness :
  (exists c : XsdComplexType,
     parseComplexType 7 nestedChoiceType (Some "xs") (Some "NestedChoiceType")
     = Ok (Some c)
     /\ exists sR sP cR cP aR aP eR eP : list XsdElement,
          nestedIn 6 (Some "xs") (getTypeValue nestedChoiceType "sequence" (Some "xs"))
          = Ok (sR, sP)
          /\ map el_name sR = [Some "field1"; Some "field3"]
          /\ map el_name sP = [Some "field2"; Some "field3"]
          /\ (cR, cP, aR, aP, eR, eP) = ([], [], [], [], [], [])
          /\ content c = sR ++ cR ++ aR ++ eR
          /\ orNil (choice c) = sP ++ aP ++ eP)
  /\ exists c : XsdComplexType,
       parseComplexType 4 fourCompositors (Some "xs") (Some "Four") = Ok (Some c)
       /\ map el_name (content c) = [Some "a"; Some "b"; Some "c"; Some "d"]
       /\ content c = orNil (sequence c) ++ orNil (choice c) ++ orNil (all c)
                      ++ extensionElements c.
Proof.
  split.
  - eexists. split; [vm_compute; reflexivity|].
    match goal with
    | |- exists sR sP cR cP aR aP eR eP, _ /\ _ /\ _ /\ _ /\ content ?c = _ /\ _ =>
        destruct (proj1 (parseComplexType_content 7 nestedChoiceType (Some "xs")
                           (Some "NestedChoiceType") c eq_refl))
          as (sR & sP & cR & cP & aR & aP & eR & eP
              & Hs & Hc & Ha & He & _ & _ & _ & Hcontent & Hchoice)
    end.
    exists sR, sP, cR, cP, aR, aP, eR, eP.
    vm_compute in Hs, Hc, Ha, He.
    injection Hs as <- <-. injection Hc as <- <-. injection Ha as <- <-.
    injection He as <- <-.
    repeat split; assumption || reflexivity.
  - eexists. split; [vm_compute; reflexivity|]. split; [reflexivity|].
    apply (parseComplexType_content 4 fourCompositors (Some "xs") (Some "Four")).
    + vm_compute. reflexivity.
    + vm_compute. reflexivity.
Defined.

(** ** The reference collector *)

(** The element occurrences that the collector walks over: the elements of
    [sequence], [choice], [all] and of the extension's [sequence], each
    followed by the occurrences inside its inline complex type. *)
Fixpoint occurrencesOfElement (el : XsdElement) : list XsdElement :=
  el :: match el_complexType el with
        | Some ct => occurrencesOfComplexType ct
        | None => []
        end
with occurrencesOfComplexType (ct : XsdComplexType) : list XsdElement :=
  match sequence ct with Some l => flat_map occurrencesOfElement l | None => [] end
  ++ match choice ct with Some l => flat_map occurrencesOfElement l | None => [] end
  ++ match all ct with Some l => flat_map occurrencesOfElement l | None => [] end
  ++ match extension ct with
     | Some ext =>
         match ext_sequence ext with
         | Some l => flat_map occurrencesOfElement l
         | None => []
         end
     | None => []
     end.

Definition occurrences (complexTypes : list XsdComplexType) : list XsdElement :=
  flat_map occurrencesOfComplexType complexTypes.

(** What [parseElement] establishes: [isRef] is [!!el.ref]. *)
Definition refConsistent (el : XsdElement) : Prop :=
  isRef el = Some (Js.truthyStr (ref el)).

Definition namedAs (target : string) (el : XsdElement) : bool :=
  match el_name el with
  | Some n => String.eqb n target
  | None => false
  end.

Lemma filter_flat_map {A B : Type} (f : A -> list B) (q : B -> bool) (l : list A) :
  List.filter q (flat_map f l) = flat_map (fun a => List.filter q (f a)) l.
Proof.
  induction l as [|a l IH]; simpl; [reflexivity|].
  now rewrite List.filter_app, IH.
Qed.

Lemma map_flat_map {A B C : Type} (f : A -> list B) (g : B -> C) (l : list A) :
  map g (flat_map f l) = flat_map (fun a => map g (f a)) l.
Proof.
  induction l as [|a l IH]; simpl; [reflexivity|].
  now rewrite map_app, IH.
Qed.

Lemma flat_map_ext_in {A B : Type} (f g : A -> list B) (l : list A) :
  (forall a, In a l -> f a = g a) -> flat_map f l = flat_map g l.
Proof.
  induction l as [|a l IH]; simpl; intros H; [reflexivity|].
  rewrite (H a (or_introl eq_refl)), IH; [reflexivity|].
  intros b Hb. apply H. now right.
Qed.

(** A measure for the recursion through the lists of a complex type. *)
Fixpoint sizeOfElement (el : XsdElement) : nat :=
  S (match el_complexType el with
     | Some ct => sizeOfComplexType ct
     | None => 0
     end)
with sizeOfComplexType (ct : XsdComplexType) : nat :=
  S (match sequence ct with Some l => list_sum (map sizeOfElement l) | None => 0 end
     + match choice ct with Some l => list_sum (map sizeOfElement l) | None => 0 end
     + match all ct with Some l => list_sum (map sizeOfElement l) | None => 0 end
     + match extension ct with
       | Some ext =>
           match ext_sequence ext with
           | Some l => list_sum (map sizeOfElement l)
           | None => 0
           end
       | None => 0
       end).

Lemma sizeOfElement_in (el : XsdElement) (l : list XsdElement) :
  In el l -> sizeOfElement el <= list_sum (map sizeOfElement l).
Proof.
  induction l as [|x l IH]; simpl; [tauto|].
  intros [->|H]; [lia|]. specialize (IH H). lia.
Qed.

Lemma collect_is_filtered_walk (n : nat) :
  (forall el, sizeOfElement el < n ->
     collectFromElement el
     = map refElementOf (List.filter isRefSet (occurrencesOfElement el)))
  /\ (forall ct, sizeOfComplexType ct < n ->
        collectFromComplexType ct
        = map refElementOf (List.filter isRefSet (occurrencesOfComplexType ct))).
Proof.
  induction n as [|n [IHe IHc]]; [split; intros; lia|].
  assert (Hlist : forall l, list_sum (map sizeOfElement l) < n ->
            flat_map collectFromElement l
            = map refElementOf
                (List.filter isRefSet (flat_map occurrencesOfElement l))).
  { intros l Hl. rewrite filter_flat_map, map_flat_map.
    apply flat_map_ext_in. intros el Hin. apply IHe.
    apply sizeOfElement_in in Hin. lia. }
  split.
  - intros [nm ty [ct|] st at_ mi ma ir rf nl] Hsize; simpl in *.
    + rewrite (IHc ct) by lia. destruct (isRefSet _); reflexivity.
    + destruct (isRefSet _); reflexivity.
  - intros [nm sq ch al at_ ex ct] Hsize. simpl in Hsize.
    cbn [collectFromComplexType occurrencesOfComplexType sequence choice all
         extension].
    rewrite !List.filter_app, !map_app.
    assert (Hopt : forall o : option (list XsdElement),
              match o with Some l => list_sum (map sizeOfElement l) | None => 0 end < n ->
              match o with Some l => flat_map collectFromElement l | None => [] end
              = map refElementOf
                  (List.filter isRefSet
                     match o with
                     | Some l => flat_map occurrencesOfElement l
                     | None => []
                     end)).
    { intros [l|] Hl; [now apply Hlist | reflexivity]. }
    rewrite (Hopt sq), (Hopt ch), (Hopt al) by lia.
    destruct ex as [[b es ea]|]; simpl in *; [|reflexivity].
    rewrite (Hopt es) by lia. reflexivity.
Qed.

Lemma collectReferencedElements_walk (complexTypes : list XsdComplexType) :
  collectReferencedElements complexTypes
  = map refElementOf (List.filter isRefSet (occurrences complexTypes)).
Proof.
  unfold collectReferencedElements, occurrences.
  rewrite filter_flat_map, map_flat_map. apply flat_map_ext_in. intros ct _.
  apply (proj2 (collect_is_filtered_walk (S (sizeOfComplexType ct)))). lia.
Qed.

Definition allConsistent (l : list XsdElement) : Prop :=
  Forall (fun el => Forall refConsistent (occurrencesOfElement el)) l.

Lemma fold_mergeChoiceElement_gen (xs els : list XsdElement)
    (pc : option (list XsdElement)) :
  fold_left mergeChoiceElement xs (els, pc)
  = (els ++ List.filter hasInlineComplexType xs,
     match pc with Some c => Some (c ++ xs) | None => None end).
Proof.
  destruct pc as [c|]; [apply fold_mergeChoiceElement|].
  revert els. induction xs as [|x xs IH]; intros els; simpl.
  - now rewrite app_nil_r.
  - unfold mergeChoiceElement at 2. simpl. rewrite IH.
    unfold hasInlineComplexType at 2. destruct (el_complexType x) as [ct|]; simpl.
    + now rewrite <- ?app_assoc.
    + reflexivity.
Qed.

Lemma allConsistent_filter (q : XsdElement -> bool) (l : list XsdElement) :
  allConsistent l -> allConsistent (List.filter q l).
Proof.
  unfold allConsistent. rewrite !List.Forall_forall. intros H x Hx.
  apply List.filter_In in Hx as [Hx _]. now apply H.
Qed.

Lemma allConsistent_app (l1 l2 : list XsdElement) :
  allConsistent l1 -> allConsistent l2 -> allConsistent (l1 ++ l2).
Proof. intros H1 H2. apply List.Forall_app. now split. Qed.

Lemma allConsistent_occurrences (o : option (list XsdElement)) :
  allConsistent (orNil o) ->
  Forall refConsistent
    match o with Some l => flat_map occurrencesOfElement l | None => [] end.
Proof.
  destruct o as [l|]; simpl; [|constructor].
  intros H. now apply List.Forall_flat_map.
Qed.

Lemma compositor_consistent (fuel : nat) (p : option string)
    (node : option JsVal) (pc : option (list XsdElement))
    (r : option (list XsdElement) * option (list XsdElement)) :
  (forall c pc0 els pc',
     parseNestedElements fuel c pc0 p = Ok (els, pc') ->
     allConsistent (orNil pc0) -> allConsistent els /\ allConsistent (orNil pc')) ->
  compositor (fun n c => parseNestedElements fuel n c p) node pc = Ok r ->
  allConsistent (orNil pc) ->
  allConsistent (orNil (fst r)) /\ allConsistent (orNil (snd r)).
Proof.
  intros IH. unfold compositor. destruct node as [n|].
  - destruct (Tree.truthy n).
    + intros H Hpc. apply bind_Ok in H as ([els pc'] & Hrec & [= <-]). simpl.
      now apply (IH n pc).
    + intros [= <-] Hpc. simpl. split; [constructor | exact Hpc].
  - intros [= <-] Hpc. simpl. split; [constructor | exact Hpc].
Qed.

(** Every element that the parser builds has [isRef = !!ref], at any depth. *)
Lemma parser_refConsistent (fuel : nat) :
  (forall el p e, parseElement fuel el p = Ok (Some e) ->
     Forall refConsistent (occurrencesOfElement e))
  /\ (forall ct p n c, parseComplexType fuel ct p n = Ok (Some c) ->
        Forall refConsistent (occurrencesOfComplexType c))
  /\ (forall c pc p els pc',
        parseNestedElements fuel c pc p = Ok (els, pc') ->
        allConsistent (orNil pc) -> allConsistent els /\ allConsistent (orNil pc')).
Proof.
  induction fuel as [|fuel (IHe & IHc & IHn)];
    [repeat split; intros; discriminate|].
  split; [|split].
  - intros el p e. rewrite parseElement_eq.
    destruct (negb (Tree.truthy el)); [discriminate|]. intros H.
    apply bind_Ok in H as (attributes & _ & H).
    apply bind_Ok in H as (complexType & _ & H).
    apply bind_Ok in H as (ct & Hct & H).
    apply bind_Ok in H as (simpleType & _ & H).
    apply bind_Ok in H as (st & _ & H).
    injection H as <-. simpl. constructor; [reflexivity|].
    destruct ct as [c|]; [|constructor].
    destruct complexType as [node|]; [|discriminate].
    destruct (Tree.truthy node); [|discriminate].
    now apply IHc in Hct.
  - intros ct p n c. rewrite parseComplexType_eq. cbv zeta.
    destruct (negb (Tree.truthy ct)); [discriminate|]. intros H.
    apply bind_Ok in H as (attributes & _ & H).
    apply bind_Ok in H as (sequenceNode & _ & H).
    apply bind_Ok in H as (seqR & Hseq & H).
    apply bind_Ok in H as (choiceNode & _ & H).
    apply bind_Ok in H as (choiceR & Hch & H).
    apply bind_Ok in H as (allNode & _ & H).
    apply bind_Ok in H as (allR & Hall & H).
    apply bind_Ok in H as (complexContent & _ & H).
    apply bind_Ok in H as (simpleContent & _ & H).
    apply bind_Ok in H as (extR & Hext & H).
    injection H as <-.
    apply (compositor_consistent fuel p _ _ _ (fun c0 pc0 => IHn c0 pc0 p)) in Hseq as [Hs1 Hs2];
      [|constructor].
    apply (compositor_consistent fuel p _ _ _ (fun c0 pc0 => IHn c0 pc0 p)) in Hch as [Hc1 Hc2];
      [|exact Hs2].
    assert (Hchoice1 : allConsistent (orNil match fst choiceR with
                                            | Some parsedChoice => Some parsedChoice
                                            | None => snd choiceR
                                            end)).
    { destruct (fst choiceR); [exact Hc1 | exact Hc2]. }
    apply (compositor_consistent fuel p _ _ _ (fun c0 pc0 => IHn c0 pc0 p)) in Hall as [Ha1 Ha2];
      [|exact Hchoice1].
    assert (Hx : allConsistent (orNil (snd extR))
                 /\ allConsistent match fst extR with
                                  | Some x => orNil (ext_sequence x)
                                  | None => []
                                  end).
    { destruct (if Tree.truthyOpt complexContent then complexContent
                else if Tree.truthyOpt simpleContent then simpleContent else None)
        as [w|].
      - apply bind_Ok in Hext as (ext & _ & Hext).
        destruct ext as [e|].
        + destruct (Tree.truthy e).
          * apply bind_Ok in Hext as (extAttributes & _ & Hext).
            apply bind_Ok in Hext as (extSequence & _ & Hext).
            apply bind_Ok in Hext as (r & Hr & Hext).
            injection Hext as <-. simpl.
            apply (compositor_consistent fuel p _ _ _ (fun c0 pc0 => IHn c0 pc0 p)) in Hr as [Hr1 Hr2];
              [|exact Ha2]. now split.
          * injection Hext as <-. simpl. split; [exact Ha2 | constructor].
        + injection Hext as <-. simpl. split; [exact Ha2 | constructor].
      - injection Hext as <-. simpl. split; [exact Ha2 | constructor]. }
    destruct Hx as [Hx1 Hx2].
    cbn [occurrencesOfComplexType sequence choice all extension].
    apply List.Forall_app. split; [now apply allConsistent_occurrences|].
    apply List.Forall_app. split; [now apply allConsistent_occurrences|].
    apply List.Forall_app. split; [now apply allConsistent_occurrences|].
    destruct (fst extR) as [[b es ea]|]; [|constructor].
    cbn [ext_sequence] in *. now apply allConsistent_occurrences.
  - intros c pc p els pc'. rewrite parseNestedElements_eq. intros H Hpc.
    apply bind_Ok in H as (elementArray & _ & H).
    apply bind_Ok in H as (elements0 & Hels & H).
    apply bind_Ok in H as (choiceArray & _ & H).
    assert (H0 : allConsistent elements0).
    { apply (forOf_inv allConsistent) in Hels; [exact Hels| |constructor].
      intros acc x acc' _ Hacc Hbody.
      apply bind_Ok in Hbody as ([e|] & He & [= <-]); simpl; [|exact Hacc].
      apply allConsistent_app; [exact Hacc|].
      constructor; [|constructor]. now apply IHe in He. }
    apply (forOf_inv (fun st => allConsistent (fst st) /\ allConsistent (orNil (snd st))))
      in H; [exact H| |now split].
    intros [accEls accCh] ch acc' _ [Hacc1 Hacc2] Hbody. simpl in *.
    apply bind_Ok in Hbody as ([rEls rCh] & Hrec & [= <-]). simpl.
    apply IHn in Hrec as [Hr1 Hr2]; [|destruct accCh; [exact Hacc2 | constructor]].
    rewrite fold_mergeChoiceElement_gen. simpl. split.
    + apply allConsistent_app; [exact Hacc1 | now apply allConsistent_filter].
    + destruct rCh as [l|]; simpl in *; [|constructor].
      now apply allConsistent_app.
Qed.

Lemma parseComplexTypes_refConsistent (fuel : nat) (xsd : JsVal)
    (p : option string) (complexTypes : list XsdComplexType) :
  parseComplexTypes fuel xsd p = Ok complexTypes ->
  Forall refConsistent (occurrences complexTypes).
Proof.
  unfold parseComplexTypes, occurrences. intros H.
  apply bind_Ok in H as (typeArray & _ & H).
  apply List.Forall_flat_map.
  apply (forOf_inv (Forall (fun ct => Forall refConsistent
                                        (occurrencesOfComplexType ct)))) in H;
    [exact H| |constructor].
  intros acc ct acc' _ Hacc Hbody.
  apply bind_Ok in Hbody as ([c|] & Hc & [= <-]); simpl; [|exact Hacc].
  apply List.Forall_app. split; [exact Hacc|]. constructor; [|constructor].
  now apply (proj1 (proj2 (parser_refConsistent fuel))) in Hc.
Qed.

(** C6: [collectReferencedElements] returns, in the order of the walk, one
    element for each occurrence with [isRef] set, built by [refElementOf];
    none is dropped as a duplicate, so that the entries named [target] are
    as many as the occurrences referring to [target]; and for complex types
    that come from the parser, the name of an entry is the [ref] of its
    occurrence, whatever name the occurrence has. *)
Theorem collectReferencedElements_one_per_reference :
  forall complexTypes : list XsdComplexType,
    collectReferencedElements complexTypes
    = map refElementOf (List.filter isRefSet (occurrences complexTypes))
    /\ (forall target : string,
          List.length (List.filter (namedAs target)
                         (collectReferencedElements complexTypes))
          = List.length (List.filter
                           (fun el => isRefSet el && namedAs target (refElementOf el))
                           (occurrences complexTypes)))
    /\ (forall (fuel : nat) (xsd : JsVal) (p : option string),
          parseComplexTypes fuel xsd p = Ok complexTypes ->
          Forall (fun el => isRefSet el = true ->
                            Js.truthyStr (ref el) = true
                            /\ el_name (refElementOf el) = ref el)
                 (occurrences complexTypes)).
Proof.
  intros complexTypes. split; [apply collectReferencedElements_walk|]. split.
  - intros target. rewrite collectReferencedElements_walk.
    generalize (occurrences complexTypes) as l.
    induction l as [|el l IH]; simpl; [reflexivity|].
    destruct (isRefSet el); simpl; [|exact IH].
    destruct (namedAs target (refElementOf el)); simpl; now rewrite IH.
  - intros fuel xsd p Hparse. apply parseComplexTypes_refConsistent in Hparse.
    apply (List.Forall_impl _ (P := refConsistent)); [|exact Hparse].
    intros el Hel Href. unfold refConsistent in Hel. unfold isRefSet in Href.
    rewrite Hel in Href. split; [exact Href|].
    unfold refElementOf, orElse. simpl. rewrite Href.
    destruct (ref el) as [r|]; [|discriminate]. simpl in Href. now rewrite Href.
Qed.

(** The type of the repository's test "element with ref attribute", with the
    reference used a second time inside an inline complex type. *)
Definition referencingType : JsVal :=
  JObj [("xs:complexType",
         JObj [("name", JStr "TestType");
               ("xs:sequence",
                JObj [("xs:element",
                       JArr [plainElement "field1" "xs:string";
                             JObj [("ref", JStr "globalElement");
                                   ("minOccurs", JStr "0")];
                             JObj [("name", JStr "holder");
                                   ("xs:complexType",
                                    JObj [("xs:all",
                                           JObj [("xs:element",
                                                  JObj [("name", JStr "local");
                                                        ("ref", JStr "globalElement")])])])]])])])].

Lemma collectReferencedElements_witness :
  exists complexTypes : list XsdComplexType,
    parseComplexTypes 6 referencingType (Some "xs") = Ok complexTypes
    /\ map el_name (collectReferencedElements complexTypes)
       = [Some "globalElement"; Some "globalElement"]
    /\ Forall (fun el => isRefSet el = true ->
                         Js.truthyStr (ref el) = true
                         /\ el_name (refElementOf el) = ref el)
              (occurrences complexTypes).
Proof.
  eexists. split; [vm_compute; reflexivity|]. split; [reflexivity|].
  match goal with
  | |- Forall _ (occurrences ?c) =>
      apply (proj2 (proj2 (collectReferencedElements_one_per_reference c))
               6 referencingType (Some "xs"))
  end.
  vm_compute. reflexivity.
Defined.

(** ** The traversal of the dependency orderer *)

Section VisitProperties.

Context {T : Type}.
Variable nameOf : T -> option string.
Variable dependenciesOf : T -> list string.
Variable throws : T -> bool.
Variable items : list T.

(** The names that [visit] descends into, or the exception met on the way
    to them. *)
Definition guarded (x : T) : result (list string) :=
  if throws x then TypeError else Ok (dependenciesOf x).

Let index := nameToIndex nameOf items.
Let go := visit nameOf guarded items.

(** [x.name] is a non-empty string. *)
Definition named (x : T) (n : string) : Prop :=
  nameOf x = Some n /\ Js.nonEmpty n = true.

(** The body of the loop over the dependencies of an item. *)
Definition descend (fuel : nat) (s : SortState T) (depName : string)
    : result (SortState T) :=
  match index !! depName with
  | Some depIndex =>
      match items !! depIndex with
      | Some dep => go fuel s dep
      | None => TypeError
      end
  | None => Ok s
  end.

Lemma visit_eq (fuel : nat) (st : SortState T) (x : T) :
  go (S fuel) st x =
  match nameOf x with
  | None => Ok st
  | Some name =>
      if negb (Js.nonEmpty name) then Ok st
      else if bool_decide (name ∈ visited st) then Ok st
      else if bool_decide (name ∈ visiting st) then
        Ok (mkSortState (visited st) (visiting st) (sorted st)
              (warnings st ++ [circularWarning name]))
      else
        let st1 := mkSortState (visited st) ({[name]} ∪ visiting st)
                     (sorted st) (warnings st) in
        if throws x then TypeError
        else
          let* st2 := forOf (descend fuel) (dependenciesOf x) st1 in
          Ok (mkSortState ({[name]} ∪ visited st2) (visiting st2 ∖ {[name]})
                (sorted st2 ++ [x]) (warnings st2))
  end.
Proof.
  cbn [go visit]. unfold guarded. destruct (nameOf x) as [name|]; [|reflexivity].
  destruct (negb (Js.nonEmpty name)); [reflexivity|].
  destruct (bool_decide (name ∈ visited st)); [reflexivity|].
  destruct (bool_decide (name ∈ visiting st)); [reflexivity|].
  destruct (throws x); reflexivity.
Qed.

(** *** The index of the names *)

Lemma indexNames_spec (l : list T) :
  forall (idx : nat) (m : gmap string nat) (n : string) (i : nat),
    indexNames nameOf idx l m !! n = Some i ->
    m !! n = Some i
    \/ exists j x, i = idx + j /\ l !! j = Some x /\ named x n.
Proof.
  induction l as [|y l IH]; intros idx m n i; simpl; [now left|].
  intros H. apply IH in H as [H|(j & x & -> & Hj & Hx)].
  - destruct (nameOf y) as [ny|] eqn:Hy; [|now left].
    destruct (Js.nonEmpty ny) eqn:Hne; [|now left].
    destruct (decide (ny = n)) as [->|Hneq].
    + rewrite lookup_insert_eq in H. injection H as <-.
      right. exists 0, y. repeat split; auto; lia.
    + rewrite lookup_insert_ne in H by exact Hneq. now left.
  - right. exists (S j), x. repeat split; auto; try apply Hx; lia.
Qed.

Lemma indexNames_keeps (l : list T) :
  forall (idx : nat) (m : gmap string nat) (n : string),
    is_Some (m !! n) -> is_Some (indexNames nameOf idx l m !! n).
Proof.
  induction l as [|y l IH]; intros idx m n Hm; simpl; [exact Hm|].
  apply IH. destruct (nameOf y) as [ny|]; [|exact Hm].
  destruct (Js.nonEmpty ny); [|exact Hm].
  destruct (decide (ny = n)) as [->|Hneq].
  - rewrite lookup_insert_eq. eauto.
  - now rewrite lookup_insert_ne.
Qed.

Lemma indexNames_finds (l : list T) :
  forall (idx : nat) (m : gmap string nat) (x : T) (n : string),
    In x l -> named x n -> is_Some (indexNames nameOf idx l m !! n).
Proof.
  induction l as [|y l IH]; intros idx m x n Hin Hx; simpl; [destruct Hin|].
  destruct Hin as [->|Hin]; [|now apply (IH _ _ x)].
  destruct Hx as [Hx Hne]. rewrite Hx, Hne. apply indexNames_keeps.
  rewrite lookup_insert_eq. eauto.
Qed.

Lemma index_item (n : string) (i : nat) :
  index !! n = Some i -> exists x, items !! i = Some x /\ named x n.
Proof.
  intros H. apply indexNames_spec in H as [H|(j & x & -> & Hj & Hx)].
  - rewrite lookup_empty in H. discriminate.
  - now exists x.
Qed.

Lemma index_known (x : T) (n : string) :
  In x items -> named x n -> is_Some (index !! n).
Proof. intros Hin Hx. now apply (indexNames_finds items 0 ∅ x). Qed.

(** *** Warnings are only added *)

Lemma forOf_warnings {A : Type} (body : SortState T -> A -> result (SortState T))
    (deps : list A) :
  (forall s d s', body s d = Ok s' -> exists w, warnings s' = warnings s ++ w) ->
  forall s s', forOf body deps s = Ok s' ->
    exists w, warnings s' = warnings s ++ w.
Proof.
  intros Hbody. induction deps as [|d deps IH]; intros s s'; simpl.
  - intros [= <-]. exists []. now rewrite app_nil_r.
  - intros H. apply bind_Ok in H as (s1 & H1 & H2).
    apply Hbody in H1 as [w1 H1]. apply IH in H2 as [w2 H2].
    exists (w1 ++ w2). now rewrite H2, H1, <- app_assoc.
Qed.

Lemma visit_warnings (fuel : nat) :
  forall st x st', go fuel st x = Ok st' ->
    exists w, warnings st' = warnings st ++ w.
Proof.
  induction fuel as [|fuel IH]; intros st x st'; [discriminate|].
  rewrite visit_eq. destruct (nameOf x) as [n|].
  2: { intros [= <-]. exists []. now rewrite app_nil_r. }
  destruct (negb (Js.nonEmpty n)).
  { intros [= <-]. exists []. now rewrite app_nil_r. }
  destruct (bool_decide (n ∈ visited st)).
  { intros [= <-]. exists []. now rewrite app_nil_r. }
  destruct (bool_decide (n ∈ visiting st)).
  { intros [= <-]. simpl. eauto. }
  cbv zeta. destruct (throws x); [discriminate|].
  intros H. apply bind_Ok in H as (st2 & Hloop & [= <-]). simpl.
  apply forOf_warnings in Hloop; [exact Hloop|].
  intros s d s'. unfold descend. destruct (index !! d) as [i|].
  - destruct (items !! i) as [z|]; [apply IH | discriminate].
  - intros [= <-]. exists []. now rewrite app_nil_r.
Qed.

Lemma descend_warnings (fuel : nat) (s : SortState T) (d : string)
    (s' : SortState T) :
  descend fuel s d = Ok s' -> exists w, warnings s' = warnings s ++ w.
Proof.
  unfold descend. destruct (index !! d) as [i|].
  - destruct (items !! i) as [z|]; [apply visit_warnings | discriminate].
  - intros [= <-]. exists []. now rewrite app_nil_r.
Qed.


(** *** The order of the result *)

(** Some item of [l] has the name [n]. *)
Definition namesIn (l : list T) (n : string) : Prop :=
  exists y, In y l /\ nameOf y = Some n.

(** Every item of [l] comes after items bearing the indexed names among its
    dependencies. *)
Definition depsBefore (l : list T) : Prop :=
  forall l1 y l2, l = l1 ++ y :: l2 ->
    forall d, In d (dependenciesOf y) -> is_Some (index !! d) -> namesIn l1 d.

Definition ordered (st : SortState T) : Prop :=
  (forall n, n ∈ visited st <-> namesIn (sorted st) n)
  /\ depsBefore (sorted st).

Lemma depsBefore_snoc (l : list T) (x : T) :
  depsBefore l ->
  (forall d, In d (dependenciesOf x) -> is_Some (index !! d) -> namesIn l d) ->
  depsBefore (l ++ [x]).
Proof.
  intros Hl Hx l1 y l2 Heq. induction l2 as [|z l2' _] using rev_ind.
  - apply app_inj_tail in Heq as [-> ->]. exact Hx.
  - change (l1 ++ y :: l2' ++ [z]) with (l1 ++ (y :: l2') ++ [z]) in Heq.
    rewrite app_assoc in Heq. apply app_inj_tail in Heq as [-> ->].
    now apply (Hl l1 y l2').
Qed.

Lemma no_new_warnings (l w1 w2 : list string) :
  (l ++ w1) ++ w2 = l -> w1 = [] /\ w2 = [].
Proof.
  intros H. rewrite <- app_assoc in H.
  rewrite <- (app_nil_r l) in H at 2. apply app_inv_head in H.
  now apply app_eq_nil in H.
Qed.

Lemma visit_ordered (fuel : nat) :
  forall st x st',
    go fuel st x = Ok st' -> warnings st' = warnings st -> ordered st ->
    ordered st' /\ visited st ⊆ visited st'
    /\ (forall n, named x n -> n ∈ visited st').
Proof.
  induction fuel as [|fuel IH]; intros st x st'; [discriminate|].
  assert (Hloop : forall deps s s',
            forOf (descend fuel) deps s = Ok s' -> warnings s' = warnings s ->
            ordered s ->
            ordered s' /\ visited s ⊆ visited s'
            /\ (forall d, In d deps -> is_Some (index !! d) -> d ∈ visited s')).
  { induction deps as [|d deps IHd]; intros s s'; simpl.
    - intros [= <-] _ Hs. split; [exact Hs|]. split; [reflexivity|]. intros d [].
    - intros H Hw Hs. apply bind_Ok in H as (s1 & H1 & H2).
      destruct (descend_warnings _ _ _ _ H1) as [w1 Hw1].
      destruct (forOf_warnings _ _ (descend_warnings fuel) _ _ H2) as [w2 Hw2].
      rewrite Hw2, Hw1 in Hw. apply no_new_warnings in Hw as [-> ->].
      rewrite app_nil_r in Hw1, Hw2.
      assert (Hstep : ordered s1 /\ visited s ⊆ visited s1
                      /\ (is_Some (index !! d) -> d ∈ visited s1)).
      { unfold descend in H1. destruct (index !! d) as [i|] eqn:Hi.
        - destruct (index_item _ _ Hi) as (z & Hz & Hnamed). rewrite Hz in H1.
          destruct (IH _ _ _ H1 Hw1 Hs) as (Ho & Hsub & Hin).
          split; [exact Ho|]. split; [exact Hsub|]. intros _. now apply Hin.
        - injection H1 as <-. split; [exact Hs|]. split; [reflexivity|].
          intros [? [=]]. }
      destruct Hstep as (Ho1 & Hsub1 & Hd1).
      destruct (IHd _ _ H2 Hw2 Ho1) as (Ho' & Hsub' & Hdeps').
      split; [exact Ho'|]. split; [now transitivity (visited s1)|].
      intros d' [<-|Hd'] Hidx; [|now apply Hdeps'].
      apply Hsub'. now apply Hd1. }
  rewrite visit_eq. destruct (nameOf x) as [n|] eqn:Hx.
  2: { intros [= <-] _ Ho. split; [exact Ho|]. split; [reflexivity|].
       intros m [Hm _]. congruence. }
  destruct (Js.nonEmpty n) eqn:Hne; simpl.
  2: { intros [= <-] _ Ho. split; [exact Ho|]. split; [reflexivity|].
       intros m [Hm Hm']. congruence. }
  destruct (bool_decide (n ∈ visited st)) eqn:Hvisited.
  { intros [= <-] _ Ho. split; [exact Ho|]. split; [reflexivity|].
    intros m [Hm _]. apply bool_decide_eq_true in Hvisited. congruence. }
  destruct (bool_decide (n ∈ visiting st)).
  { intros [= <-]. simpl. intros Hw. exfalso.
    apply (f_equal (@List.length string)) in Hw. rewrite length_app in Hw.
    simpl in Hw. lia. }
  cbv zeta. destruct (throws x); [discriminate|].
  intros H Hw Ho. apply bind_Ok in H as (st2 & Hdeps & [= <-]). simpl in *.
  apply Hloop in Hdeps as (Ho2 & Hsub2 & Hdeps2); [|exact Hw|exact Ho].
  simpl in *. destruct Ho2 as [Hnames2 Hbefore2]. unfold ordered. simpl.
  split; [split; [intros m; split|]|split].
  - intros [Hm|Hm]%elem_of_union.
    + apply elem_of_singleton in Hm as ->. exists x. split; [|exact Hx].
      apply in_or_app. right. now left.
    + apply Hnames2 in Hm as (y & Hy & Hyn). exists y. split; [|exact Hyn].
      apply in_or_app. now left.
  - intros (y & Hy & Hyn). apply in_app_or in Hy as [Hy|[<-|[]]].
    + apply elem_of_union. right. apply Hnames2. now exists y.
    + apply elem_of_union. left. apply elem_of_singleton. congruence.
  - apply depsBefore_snoc; [exact Hbefore2|].
    intros d Hd Hidx. apply Hnames2. now apply Hdeps2.
  - intros m Hm. apply elem_of_union. right. now apply Hsub2.
  - intros m [Hm _]. apply elem_of_union. left. apply elem_of_singleton.
    congruence.
Qed.

(** *** What the result contains *)

Lemma visit_sorted (fuel : nat) :
  forall st x st',
    go fuel st x = Ok st' -> In x items ->
    forall y, In y (sorted st') ->
      In y (sorted st) \/ (In y items /\ exists n, named y n).
Proof.
  induction fuel as [|fuel IH]; intros st x st'; [discriminate|].
  rewrite visit_eq. destruct (nameOf x) as [n|] eqn:Hx; [|intros [= <-]; auto].
  destruct (Js.nonEmpty n) eqn:Hne; simpl; [|intros [= <-]; auto].
  destruct (bool_decide (n ∈ visited st)); [intros [= <-]; auto|].
  destruct (bool_decide (n ∈ visiting st)); [intros [= <-]; auto|].
  cbv zeta. destruct (throws x); [discriminate|].
  intros H Hin. apply bind_Ok in H as (st2 & Hdeps & [= <-]). simpl.
  assert (Hloop : forall deps s s',
            forOf (descend fuel) deps s = Ok s' ->
            forall y, In y (sorted s') ->
              In y (sorted s) \/ (In y items /\ exists n, named y n)).
  { induction deps as [|d deps IHd]; intros s s'; simpl.
    - intros [= <-]. auto.
    - intros H y Hy. apply bind_Ok in H as (s1 & H1 & H2).
      destruct (IHd _ _ H2 y Hy) as [Hy1|Hy1]; [|now right].
      unfold descend in H1. destruct (index !! d) as [i|]; [|now injection H1 as <-; left].
      destruct (items !! i) as [z|] eqn:Hz; [|discriminate].
      apply (IH _ _ _ H1); [|exact Hy1].
      apply list_elem_of_In. eapply list_elem_of_lookup_2. exact Hz. }
  intros y Hy. apply in_app_or in Hy as [Hy|[<-|[]]].
  - apply (Hloop _ _ _ Hdeps) in Hy. exact Hy.
  - right. split; [exact Hin|]. exists n. now split.
Qed.


(** *** The traversal ends *)

Definition nameList (x : T) : list string :=
  match nameOf x with
  | Some n => if Js.nonEmpty n then [n] else []
  | None => []
  end.

(** The names that can ever be in [visiting]. *)
Definition knownNames : gset string := list_to_set (flat_map nameList items).

Lemma known_named (x : T) (n : string) :
  In x items -> named x n -> n ∈ knownNames.
Proof.
  intros Hin [Hx Hne]. unfold knownNames. apply elem_of_list_to_set.
  apply list_elem_of_In. apply in_flat_map. exists x. split; [exact Hin|].
  unfold nameList. rewrite Hx, Hne. now left.
Qed.

Lemma size_list_to_set_le (l : list string) :
  size (list_to_set l : gset string) <= List.length l.
Proof.
  induction l as [|a l IH].
  - rewrite list_to_set_nil, size_empty. simpl. lia.
  - rewrite list_to_set_cons. simpl.
    destruct (decide (a ∈ (list_to_set l : gset string))) as [Ha|Ha].
    + replace ({[a]} ∪ list_to_set l) with (list_to_set l : gset string)
        by set_solver. lia.
    + rewrite size_union by set_solver. rewrite size_singleton. lia.
Qed.

Lemma nameList_length (l : list T) :
  List.length (flat_map nameList l) <= List.length l.
Proof.
  induction l as [|x l IH]; simpl; [lia|].
  rewrite length_app. unfold nameList at 1.
  destruct (nameOf x) as [n|]; [destruct (Js.nonEmpty n)|]; simpl; lia.
Qed.

Lemma known_size : size knownNames <= List.length items.
Proof.
  unfold knownNames. etransitivity; [apply size_list_to_set_le|].
  apply nameList_length.
Qed.

(** No item that has a name makes [visit] throw. *)
Definition returning : Prop :=
  forall y n, In y items -> named y n -> throws y = false.

Lemma visit_total (fuel : nat) :
  returning ->
  forall st x,
    In x items -> visiting st ⊆ knownNames ->
    size knownNames < fuel + size (visiting st) ->
    exists st', go fuel st x = Ok st' /\ visiting st' = visiting st.
Proof.
  intros Hreturning.
  induction fuel as [|fuel IH]; intros st x Hin Hsub Hsize.
  { apply subseteq_size in Hsub. lia. }
  rewrite visit_eq. destruct (nameOf x) as [n|] eqn:Hx; [|eauto].
  destruct (Js.nonEmpty n) eqn:Hne; cbn [negb]; [|eauto].
  destruct (bool_decide (n ∈ visited st)); [eauto|].
  destruct (bool_decide (n ∈ visiting st)) eqn:Hvisiting; [eauto|].
  rewrite (Hreturning x n Hin (conj Hx Hne)).
  apply bool_decide_eq_false in Hvisiting.
  assert (Hn : n ∈ knownNames) by (apply (known_named x); [exact Hin | now split]).
  assert (Hloop : forall deps s,
            visiting s = {[n]} ∪ visiting st ->
            exists s', forOf (descend fuel) deps s = Ok s'
                       /\ visiting s' = {[n]} ∪ visiting st).
  { induction deps as [|d deps IHd]; intros s Hs; cbn [forOf]; [eauto|].
    assert (Hstep : exists s1, descend fuel s d = Ok s1
                               /\ visiting s1 = {[n]} ∪ visiting st).
    { unfold descend. destruct (index !! d) as [i|] eqn:Hi; [|eauto].
      destruct (index_item _ _ Hi) as (z & Hz & _). rewrite Hz.
      destruct (IH s z) as (s1 & Hs1 & Hv1).
      - apply list_elem_of_In. eapply list_elem_of_lookup_2. exact Hz.
      - rewrite Hs. set_solver.
      - rewrite Hs, size_union by set_solver. rewrite size_singleton. lia.
      - exists s1. split; [exact Hs1 | congruence]. }
    destruct Hstep as (s1 & Hs1 & Hv1).
    destruct (IHd s1 Hv1) as (s' & Hs' & Hv').
    exists s'. split; [now rewrite Hs1|exact Hv']. }
  cbv zeta.
  match goal with
  | |- context [forOf ?f ?deps ?s] =>
      destruct (Hloop deps s eq_refl) as (st2 & Hst2 & Hv2)
  end.
  eexists. split; [rewrite Hst2; reflexivity|]. cbn [visiting].
  rewrite Hv2. set_solver.
Qed.

(** The fuel that [topologicalSort] gives to [visit] is never used up, and
    no index points outside the list: the sort returns when no named item
    makes [visit] throw. *)
Lemma topologicalSort_total :
  returning -> exists st, topologicalSort nameOf guarded items = Ok st.
Proof.
  intros Hreturning. unfold topologicalSort.
  assert (Hloop : forall l s,
            (forall x, In x l -> In x items) -> visiting s = ∅ ->
            exists s', forOf (go (S (List.length items))) l s = Ok s'
                       /\ visiting s' = ∅).
  { induction l as [|x l IHl]; intros s Hl Hs; cbn [forOf]; [eauto|].
    destruct (visit_total (S (List.length items)) Hreturning s x) as (s1 & Hs1 & Hv1).
    - apply Hl. now left.
    - rewrite Hs. set_solver.
    - rewrite Hs, size_empty. pose proof known_size. lia.
    - destruct (IHl s1) as (s' & Hs' & Hv'); [|congruence|].
      + intros y Hy. apply Hl. now right.
      + exists s'. split; [now rewrite Hs1|exact Hv']. }
  destruct (Hloop items (mkSortState ∅ ∅ [] []) (fun x H => H) eq_refl)
    as (st & Hst & _).
  now exists st.
Qed.

(** Without that, the sort returns or throws: the fuel is not used up. *)
Lemma visit_ends (fuel : nat) :
  forall st x,
    In x items -> visiting st ⊆ knownNames ->
    size knownNames < fuel + size (visiting st) ->
    go fuel st x = TypeError
    \/ exists st', go fuel st x = Ok st' /\ visiting st' = visiting st.
Proof.
  induction fuel as [|fuel IH]; intros st x Hin Hsub Hsize.
  { apply subseteq_size in Hsub. lia. }
  rewrite visit_eq. destruct (nameOf x) as [n|] eqn:Hx; [|eauto].
  destruct (Js.nonEmpty n) eqn:Hne; cbn [negb]; [|eauto].
  destruct (bool_decide (n ∈ visited st)); [eauto|].
  destruct (bool_decide (n ∈ visiting st)) eqn:Hvisiting; [eauto|].
  cbv zeta. destruct (throws x); [now left|].
  apply bool_decide_eq_false in Hvisiting.
  assert (Hn : n ∈ knownNames) by (apply (known_named x); [exact Hin | now split]).
  assert (Hloop : forall deps s,
            visiting s = {[n]} ∪ visiting st ->
            forOf (descend fuel) deps s = TypeError
            \/ exists s', forOf (descend fuel) deps s = Ok s'
                          /\ visiting s' = {[n]} ∪ visiting st).
  { induction deps as [|d deps IHd]; intros s Hs; cbn [forOf]; [eauto|].
    assert (Hstep : descend fuel s d = TypeError
                    \/ exists s1, descend fuel s d = Ok s1
                                  /\ visiting s1 = {[n]} ∪ visiting st).
    { unfold descend. destruct (index !! d) as [i|] eqn:Hi; [|eauto].
      destruct (index_item _ _ Hi) as (z & Hz & _). rewrite Hz.
      destruct (IH s z) as [Hthrow|(s1 & Hs1 & Hv1)].
      - apply list_elem_of_In. eapply list_elem_of_lookup_2. exact Hz.
      - rewrite Hs. set_solver.
      - rewrite Hs, size_union by set_solver. rewrite size_singleton. lia.
      - now left.
      - right. exists s1. split; [exact Hs1 | congruence]. }
    destruct Hstep as [Hthrow|(s1 & Hs1 & Hv1)]; [left; now rewrite Hthrow|].
    rewrite Hs1. cbn [bind]. apply IHd. exact Hv1. }
  match goal with
  | |- context [forOf ?f ?deps ?s] =>
      destruct (Hloop deps s eq_refl) as [Hthrow|(st2 & Hst2 & Hv2)]
  end.
  - left. now rewrite Hthrow.
  - right. eexists. split; [rewrite Hst2; reflexivity|]. cbn [visiting].
    rewrite Hv2. set_solver.
Qed.

Lemma topologicalSort_ends :
  topologicalSort nameOf guarded items = TypeError
  \/ exists st, topologicalSort nameOf guarded items = Ok st.
Proof.
  unfold topologicalSort.
  assert (Hloop : forall l s,
            (forall x, In x l -> In x items) -> visiting s = ∅ ->
            forOf (go (S (List.length items))) l s = TypeError
            \/ exists s', forOf (go (S (List.length items))) l s = Ok s'
                          /\ visiting s' = ∅).
  { induction l as [|x l IHl]; intros s Hl Hs; cbn [forOf]; [eauto|].
    destruct (visit_ends (S (List.length items)) s x) as [Hthrow|(s1 & Hs1 & Hv1)].
    - apply Hl. now left.
    - rewrite Hs. set_solver.
    - rewrite Hs, size_empty. pose proof known_size. lia.
    - left. now rewrite Hthrow.
    - rewrite Hs1. cbn [bind]. apply IHl; [|congruence].
      intros y Hy. apply Hl. now right. }
  destruct (Hloop items (mkSortState ∅ ∅ [] []) (fun x H => H) eq_refl)
    as [Hthrow|(st & Hst & _)]; [now left | right; now exists st].
Qed.

(** What [visit] adds to the result it has found the names of without an
    exception. *)
Lemma visit_mapped (fuel : nat) :
  forall st x st',
    go fuel st x = Ok st' ->
    forall y, In y (sorted st') -> In y (sorted st) \/ throws y = false.
Proof.
  induction fuel as [|fuel IH]; intros st x st'; [discriminate|].
  rewrite visit_eq. destruct (nameOf x) as [n|] eqn:Hx; [|intros [= <-]; auto].
  destruct (Js.nonEmpty n) eqn:Hne; simpl; [|intros [= <-]; auto].
  destruct (bool_decide (n ∈ visited st)); [intros [= <-]; auto|].
  destruct (bool_decide (n ∈ visiting st)); [intros [= <-]; auto|].
  cbv zeta. destruct (throws x) eqn:Hthrows; [discriminate|].
  intros H. apply bind_Ok in H as (st2 & Hdeps & [= <-]). simpl.
  assert (Hloop : forall deps s s',
            forOf (descend fuel) deps s = Ok s' ->
            forall y, In y (sorted s') -> In y (sorted s) \/ throws y = false).
  { induction deps as [|d deps IHd]; intros s s'; simpl.
    - intros [= <-]. auto.
    - intros H y Hy. apply bind_Ok in H as (s1 & H1 & H2).
      destruct (IHd _ _ H2 y Hy) as [Hy1|Hy1]; [|now right].
      unfold descend in H1. destruct (index !! d) as [i|]; [|now injection H1 as <-; left].
      destruct (items !! i) as [z|] eqn:Hz; [|discriminate].
      now apply (IH _ _ _ H1). }
  intros y Hy. apply in_app_or in Hy as [Hy|[<-|[]]].
  - apply (Hloop _ _ _ Hdeps) in Hy. exact Hy.
  - now right.
Qed.

Lemma topologicalSort_mapped (st : SortState T) :
  topologicalSort nameOf guarded items = Ok st ->
  forall y, In y (sorted st) -> throws y = false.
Proof.
  unfold topologicalSort.
  assert (Hloop : forall l s s',
            forOf (go (S (List.length items))) l s = Ok s' ->
            forall y, In y (sorted s') -> In y (sorted s) \/ throws y = false).
  { induction l as [|x l IHl]; intros s s'; cbn [forOf].
    - intros [= <-]. auto.
    - intros H y Hy. apply bind_Ok in H as (s1 & H1 & H2).
      destruct (IHl _ _ H2 y Hy) as [Hy1|Hy1]; [|now right].
      now apply (visit_mapped _ _ _ _ H1). }
  intros H y Hy. destruct (Hloop _ _ _ H y Hy) as [[]|Hy']. exact Hy'.
Qed.

(** *** The result of the sort *)

Lemma topologicalSort_sorted (st : SortState T) :
  topologicalSort nameOf guarded items = Ok st ->
  forall y, In y (sorted st) -> In y items /\ exists n, named y n.
Proof.
  unfold topologicalSort.
  assert (Hloop : forall l s s',
            (forall x, In x l -> In x items) ->
            forOf (go (S (List.length items))) l s = Ok s' ->
            forall y, In y (sorted s') ->
              In y (sorted s) \/ (In y items /\ exists n, named y n)).
  { induction l as [|x l IHl]; intros s s' Hl; cbn [forOf].
    - intros [= <-]. auto.
    - intros H y Hy. apply bind_Ok in H as (s1 & H1 & H2).
      destruct (IHl _ _ (fun z Hz => Hl z (or_intror Hz)) H2 y Hy) as [Hy1|Hy1];
        [|now right].
      apply (visit_sorted _ _ _ _ H1); [|exact Hy1]. apply Hl. now left. }
  intros H y Hy. destruct (Hloop _ _ _ (fun x Hx => Hx) H y Hy) as [[]|Hy'].
  exact Hy'.
Qed.

Lemma topologicalSort_ordered (st : SortState T) :
  topologicalSort nameOf guarded items = Ok st -> warnings st = [] ->
  ordered st /\ (forall x n, In x items -> named x n -> n ∈ visited st).
Proof.
  unfold topologicalSort.
  assert (Hloop : forall l s s',
            forOf (go (S (List.length items))) l s = Ok s' ->
            warnings s' = warnings s -> ordered s ->
            ordered s' /\ visited s ⊆ visited s'
            /\ (forall x n, In x l -> named x n -> n ∈ visited s')).
  { induction l as [|x l IHl]; intros s s'; cbn [forOf].
    - intros [= <-] _ Hs. split; [exact Hs|]. split; [reflexivity|].
      intros x n [].
    - intros H Hw Hs. apply bind_Ok in H as (s1 & H1 & H2).
      destruct (visit_warnings _ _ _ _ H1) as [w1 Hw1].
      destruct (forOf_warnings _ _ (visit_warnings _) _ _ H2) as [w2 Hw2].
      rewrite Hw2, Hw1 in Hw. apply no_new_warnings in Hw as [-> ->].
      rewrite app_nil_r in Hw1, Hw2.
      destruct (visit_ordered _ _ _ _ H1 Hw1 Hs) as (Ho1 & Hsub1 & Hx1).
      destruct (IHl _ _ H2 Hw2 Ho1) as (Ho' & Hsub' & Hl').
      split; [exact Ho'|]. split; [now transitivity (visited s1)|].
      intros y n [<-|Hy] Hn; [|now apply (Hl' y)].
      apply Hsub'. now apply Hx1. }
  intros H Hw. destruct (Hloop _ _ _ H Hw) as (Ho & _ & Hall).
  - split.
    + intros n. split; [intros Hn; now apply not_elem_of_empty in Hn|].
      intros (y & [] & _).
    + intros l1 y l2 Heq. now destruct l1.
  - now split.
Qed.

(** A name is borne by one item only. *)
Definition namesDetermine : Prop :=
  forall x y n, In x items -> In y items -> named x n -> named y n -> x = y.

Lemma nameList_named (x : T) (n : string) : In n (nameList x) <-> named x n.
Proof.
  unfold nameList, named. destruct (nameOf x) as [m|]; simpl.
  - destruct (Js.nonEmpty m) eqn:Hm; simpl.
    + split; [intros [->|[]]; auto | intros [[= ->] _]; now left].
    + split; [intros [] | intros [[= ->] Hn]; congruence].
  - split; [intros [] | intros [[=] _]].
Qed.

Lemma distinct_names_determine_in (l : list T) :
  NoDup (flat_map nameList l) ->
  forall x y n, In x l -> In y l -> named x n -> named y n -> x = y.
Proof.
  induction l as [|z l IH]; simpl; intros Hnd x y n Hx Hy Hxn Hyn; [destruct Hx|].
  apply NoDup_app in Hnd as (_ & Hdisj & Hl).
  assert (Hz : forall w, In w l -> named z n -> named w n -> False).
  { intros w Hw Hzn Hwn. apply (Hdisj n).
    - apply list_elem_of_In. now apply nameList_named.
    - apply list_elem_of_In. apply in_flat_map. exists w. split; [exact Hw|].
      now apply nameList_named. }
  destruct Hx as [<-|Hx], Hy as [<-|Hy]; auto.
  - destruct (Hz y Hy Hxn Hyn).
  - destruct (Hz x Hx Hyn Hxn).
  - now apply (IH Hl x y n).
Qed.

Lemma distinct_names_determine :
  NoDup (flat_map nameList items) -> namesDetermine.
Proof. intros H x y n. now apply (distinct_names_determine_in items H). Qed.

Lemma In_lookup (l : list T) (x : T) :
  In x l -> exists i, l !! i = Some x.
Proof. intros H. apply list_elem_of_In in H. now apply list_elem_of_lookup_1. Qed.

(** When the sort has logged no warning, an item comes after the items that
    bear the names it depends on. *)
Lemma topologicalSort_dependency_first (st : SortState T) (a b : T) (n m : string) :
  topologicalSort nameOf guarded items = Ok st ->
  warnings st = [] -> namesDetermine ->
  In a items -> In b items -> named a n -> named b m ->
  In m (dependenciesOf a) ->
  exists i j, sorted st !! i = Some b /\ sorted st !! j = Some a /\ i < j.
Proof.
  intros Hsort Hw Huniq Ha Hb Hn Hm Hdep.
  destruct (topologicalSort_ordered st Hsort Hw) as [[Hnames Hbefore] Hall].
  pose proof (topologicalSort_sorted st Hsort) as Hin.
  destruct (proj1 (Hnames n) (Hall a n Ha Hn)) as (a' & Ha' & Hna').
  assert (a' = a) as ->.
  { destruct (Hin a' Ha') as (Hia & n' & Hn'). apply (Huniq a' a n); auto.
    destruct Hn' as [Hn1 Hn2]. split; [exact Hna'|]. congruence. }
  apply in_split in Ha' as (l1 & l2 & Hsplit).
  destruct (Hbefore l1 a l2 Hsplit m Hdep (index_known b m Hb Hm))
    as (b' & Hb' & Hmb').
  assert (b' = b) as ->.
  { assert (Hb'' : In b' (sorted st)).
    { rewrite Hsplit. apply in_or_app. now left. }
    destruct (Hin b' Hb'') as (Hib & m' & Hm'). apply (Huniq b' b m); auto.
    destruct Hm' as [Hm1 Hm2]. split; [exact Hmb'|]. congruence. }
  destruct (In_lookup _ _ Hb') as [i Hi].
  exists i, (List.length l1). rewrite Hsplit. repeat split.
  - now apply lookup_app_l_Some.
  - rewrite lookup_app_r by lia. now rewrite Nat.sub_diag.
  - now apply lookup_lt_Some in Hi.
Qed.

(** Meeting again a name that is being visited logs the warning and leaves
    the rest of the state as it is. *)
Lemma visit_reencounter (fuel : nat) (st : SortState T) (x : T) (n : string) :
  named x n -> n ∉ visited st -> n ∈ visiting st ->
  go (S fuel) st x
  = Ok (mkSortState (visited st) (visiting st) (sorted st)
          (warnings st ++ [circularWarning n])).
Proof.
  intros [Hx Hne] Hvisited Hvisiting. rewrite visit_eq, Hx, Hne. simpl.
  rewrite bool_decide_eq_false_2 by exact Hvisited.
  now rewrite bool_decide_eq_true_2 by exact Hvisiting.
Qed.

End VisitProperties.

(** ** The dependencies of a complex type

    [visit] reads the dependencies of a complex type off the text of its
    mapped zod object.  A content element whose type is the name of a
    complex type puts the schema name of that type on its line of the text,
    where the regular expression finds it when the name is a capitalised
    word of letters and digits. *)

Section SchemaReFacts.

Import SchemaRe.

(** The letters and digits at the head of [s]. *)
Fixpoint alnumRun (s : list ascii) : nat :=
  match s with
  | c :: s' => if isAlnum c then S (alnumRun s') else 0
  | [] => 0
  end.

(** A capitalised word of letters and digits. *)
Definition capitalised (w : list ascii) : bool :=
  match w with
  | c :: cs => isUpper c && forallb isAlnum cs
  | [] => false
  end.

(** No letter or digit follows. *)
Definition wordEnds (s : list ascii) : bool :=
  match s with
  | c :: _ => negb (isAlnum c)
  | [] => true
  end.

Lemma list_ascii_of_string_app (s t : string) :
  list_ascii_of_string (s +:+ t) = list_ascii_of_string s ++ list_ascii_of_string t.
Proof. induction s as [|c s IH]; simpl; [reflexivity | now rewrite IH]. Qed.

Lemma stripPrefix_app (p s r : list ascii) :
  SplitRe.stripPrefix p s = Some r -> s = p ++ r.
Proof.
  revert s. induction p as [|a p IH]; intros s; simpl.
  - now intros [= ->].
  - destruct s as [|b s]; [discriminate|].
    destruct (Ascii.eqb_spec a b) as [->|]; [|discriminate].
    intros H. now rewrite (IH s H).
Qed.

Lemma stripPrefix_here (p r : list ascii) : SplitRe.stripPrefix p (p ++ r) = Some r.
Proof. induction p as [|a p IH]; simpl; [reflexivity|]. now rewrite Ascii.eqb_refl. Qed.

Lemma isUpper_isAlnum (c : ascii) : isUpper c = true -> isAlnum c = true.
Proof. unfold isUpper, isAlnum. cbv zeta. intros ->. reflexivity. Qed.

Lemma star_run (s cs : list ascii) :
  star s = Some cs -> List.length cs + 6 <= alnumRun s.
Proof.
  revert cs. induction s as [|c s IH]; intros cs.
  - discriminate.
  - assert (Hlit : forall r, SplitRe.stripPrefix schemaWord (c :: s) = Some r ->
                             isAlnum c = true /\ 5 <= alnumRun s).
    { intros r Hr. apply stripPrefix_app in Hr. unfold schemaWord in Hr. simpl in Hr.
      injection Hr as -> ->. split; [reflexivity | simpl; lia]. }
    cbn [star alnumRun].
    destruct (SplitRe.stripPrefix schemaWord (c :: s)) as [r|].
    + destruct (Hlit r eq_refl) as [-> Hrun].
      destruct (star s) as [cs'|].
      * intros [= <-]. specialize (IH cs' eq_refl). simpl. lia.
      * intros [= <-]. simpl. lia.
    + destruct (isAlnum c); [|discriminate].
      destruct (star s) as [cs'|]; [|discriminate].
      intros [= <-]. specialize (IH cs' eq_refl). simpl. lia.
Qed.

(** The star takes a word of letters and digits that the literal follows,
    when the literal ends the run of letters and digits. *)
Lemma star_word (cs post : list ascii) :
  forallb isAlnum cs = true -> wordEnds post = true ->
  star (cs ++ schemaWord ++ post) = Some cs.
Proof.
  intros Hcs Hpost.
  assert (Hend : star post = None).
  { destruct post as [|c post]; [reflexivity|]. simpl in Hpost.
    apply negb_true_iff in Hpost. cbn [star]. rewrite Hpost.
    destruct (SplitRe.stripPrefix schemaWord (c :: post)) as [r|] eqn:Hr; [|reflexivity].
    apply stripPrefix_app in Hr. unfold schemaWord in Hr. simpl in Hr.
    injection Hr as -> ->. discriminate. }
  assert (Hlit : star (schemaWord ++ post) = Some []).
  { unfold schemaWord. simpl list_ascii_of_string. cbn [app star].
    rewrite Hend. reflexivity. }
  induction cs as [|c cs IH]; [exact Hlit|].
  simpl in Hcs. apply andb_prop in Hcs as [Hc Hcs].
  change ((c :: cs) ++ schemaWord ++ post) with (c :: cs ++ schemaWord ++ post).
  cbn [star]. rewrite Hc, (IH Hcs). reflexivity.
Qed.

Lemma scan_finds (w post : list ascii) :
  capitalised w = true -> wordEnds post = true ->
  forall (pre : list ascii) (skip : nat) (sep : ascii),
    isAlnum sep = false ->
    skip <= alnumRun (pre ++ sep :: w ++ schemaWord ++ post) ->
    In w (scan skip (pre ++ sep :: w ++ schemaWord ++ post)).
Proof.
  intros Hw Hpost pre. induction pre as [|c pre IH]; intros skip sep Hsep Hskip.
  - simpl in Hskip. rewrite Hsep in Hskip. assert (skip = 0) as -> by lia.
    destruct w as [|c cs]; [discriminate|]. simpl in Hw.
    apply andb_prop in Hw as [Hc Hcs].
    change ([] ++ sep :: (c :: cs) ++ schemaWord ++ post)
      with (sep :: c :: cs ++ schemaWord ++ post).
    cbn [scan].
    assert (Hu : isUpper sep = false).
    { destruct (isUpper sep) eqn:E; [|reflexivity].
      apply isUpper_isAlnum in E. congruence. }
    rewrite Hu, Hc, (star_word cs post Hcs Hpost). now left.
  - change ((c :: pre) ++ sep :: w ++ schemaWord ++ post)
      with (c :: pre ++ sep :: w ++ schemaWord ++ post) in *.
    cbn [scan]. cbn [alnumRun] in Hskip.
    destruct skip as [|k].
    + destruct (isUpper c).
      * destruct (star (pre ++ sep :: w ++ schemaWord ++ post)) as [cs|] eqn:Hstar.
        -- right. apply IH; [exact Hsep|]. now apply star_run.
        -- apply IH; [exact Hsep | lia].
      * apply IH; [exact Hsep | lia].
    + apply IH; [exact Hsep|]. destruct (isAlnum c); lia.
Qed.

End SchemaReFacts.

Section Dependencies.

Import SchemaRe.

Variable ext : Externals.
Variable naming : NamingConvention.
Variable schema : XsdSchema.

Definition fieldsOf (complexType : XsdComplexType) : list Field :=
  map fieldOfElement (map (mapElement ext naming schema) (content complexType))
  ++ map fieldOfAttribute (mapAttributes ext (ct_attributes complexType) naming schema).

Lemma zodObject_eq (complexType : XsdComplexType) :
  zodObject (mapComplexType ext naming schema complexType)
  = match fieldsOf complexType with
    | [] => "z.object({})"
    | _ => "z.object({" +:+ newline
           +:+ joinLines (map (zodLine) (fieldsOf complexType))
           +:+ newline +:+ "})"
    end.
Proof. destruct complexType; reflexivity. Qed.

Lemma concat_In (sep line : string) (lines : list string) :
  In line lines ->
  exists X Y : list ascii,
    list_ascii_of_string (String.concat sep lines)
    = X ++ list_ascii_of_string line ++ Y
    /\ (Y = [] \/ exists Y', Y = list_ascii_of_string sep ++ Y').
Proof.
  induction lines as [|l lines IH]; [intros []|].
  intros [->|Hin].
  - exists []. destruct lines as [|l' lines].
    + exists []. simpl. rewrite app_nil_r. auto.
    + exists (list_ascii_of_string (sep +:+ String.concat sep (l' :: lines))).
      split.
      * change (String.concat sep (line :: l' :: lines))
          with (line +:+ sep +:+ String.concat sep (l' :: lines)).
        now rewrite list_ascii_of_string_app.
      * right. eexists. apply list_ascii_of_string_app.
  - destruct (IH Hin) as (X & Y & Heq & HY).
    destruct lines as [|l' lines]; [destruct Hin|].
    exists (list_ascii_of_string l ++ list_ascii_of_string sep ++ X), Y.
    split; [|exact HY].
    change (String.concat sep (l :: l' :: lines))
      with (l +:+ sep +:+ String.concat sep (l' :: lines)).
    rewrite !list_ascii_of_string_app, Heq, <- !app_assoc. reflexivity.
Qed.

Lemma findCustomType_complex (B : XsdComplexType) (b : string) :
  In B (complexTypes schema) -> ct_name B = Some b ->
  exists custom, findCustomType b schema = Some custom /\ customName custom = Some b.
Proof.
  intros HB Hb. unfold findCustomType, findComplexType.
  destruct (List.find _ (complexTypes schema)) as [ct|] eqn:Hfind.
  - exists (CustomComplex ct). split; [reflexivity|].
    apply find_some in Hfind as [_ Hname]. simpl.
    destruct (ct_name ct) as [n|]; [|discriminate].
    apply String.eqb_eq in Hname. now subst.
  - apply (find_none _ _ Hfind) in HB. rewrite Hb, String.eqb_refl in HB. discriminate.
Qed.

Lemma wordEnds_app (Q R : list ascii) :
  wordEnds Q = true -> Q <> [] -> wordEnds (Q ++ R) = true.
Proof. destruct Q as [|c Q]; [congruence | auto]. Qed.

(** The line of a field whose validator is the schema of the type named
    [b], bare or inside an array. *)
Lemma zodLine_reference (e : XsdElement) (b : string) (custom : CustomType) :
  el_complexType e = None -> el_simpleType e = None -> el_type e = Some b ->
  Js.nonEmpty b = true ->
  findCustomType b schema = Some custom -> customName custom = Some b ->
  getSchemaName ext (Some b) naming = b +:+ "Schema" ->
  exists (P Q : list ascii) (sep : ascii),
    list_ascii_of_string (zodLine (fieldOfElement (mapElement ext naming schema e)))
    = P ++ sep :: list_ascii_of_string b ++ schemaWord ++ Q
    /\ isAlnum sep = false
    /\ forall R, wordEnds R = true -> wordEnds (Q ++ R) = true.
Proof.
  intros Hc Hs Ht Hne Hfind Hname Hschema.
  destruct e as [n t c st a mi ma r rf nl]. simpl in Hc, Hs, Ht. subst c st t.
  unfold zodLine, fieldOfElement. cbn [mapElement f_name f_zodValidator f_optional
    me_name me_zodValidator me_optional el_complexType el_simpleType el_type
    el_name minOccurs maxOccurs].
  unfold elementTypeMapping. cbn [el_simpleType el_type]. unfold namedTypeMapping.
  rewrite Hne, Hfind, Hname, Hschema.
  set (name := Js.render (applyNaming ext n naming)).
  set (optional := match mi with Some (Int z) => Z.eqb z 0 | _ => false end).
  destruct (isArrayOf ma); cbn [arrayOf zodValidator].
  - exists (list_ascii_of_string ("  " +:+ name +:+ ": z.array")),
           (list_ascii_of_string (")" +:+ (if optional then ".optional()" else ""))),
           "("%char.
    split; [|split; [reflexivity|intros R _; reflexivity]].
    rewrite !list_ascii_of_string_app. simpl. rewrite <- ?app_assoc. simpl.
    unfold schemaWord. simpl. rewrite <- ?app_assoc. reflexivity.
  - exists (list_ascii_of_string ("  " +:+ name +:+ ":")),
           (list_ascii_of_string (if optional then ".optional()" else "")),
           " "%char.
    split; [|split; [reflexivity|]].
    + rewrite !list_ascii_of_string_app. simpl. rewrite <- ?app_assoc. simpl.
      unfold schemaWord. simpl. reflexivity.
    + intros R HR. destruct optional; [reflexivity | exact HR].
Qed.

(** A content element of [A] whose type is the name [b] of a complex type
    makes [b] a dependency of [A], provided [b] is a capitalised word of
    letters and digits that the naming convention leaves as it is, and
    differs from the name under which [A] recognises itself. *)
Lemma typed_element_dependency (A B : XsdComplexType) (e : XsdElement) (b : string) :
  In B (complexTypes schema) -> ct_name B = Some b ->
  In e (content A) ->
  el_complexType e = None -> el_simpleType e = None -> el_type e = Some b ->
  capitalised (list_ascii_of_string b) = true ->
  getSchemaName ext (Some b) naming = b +:+ "Schema" ->
  b <> withoutSchema (getSchemaName ext (ct_name A) naming) ->
  In b (complexDependencies ext schema naming A).
Proof.
  intros HB Hb He Hc Hs Ht Hcap Hschema Hself.
  assert (Hne : Js.nonEmpty b = true) by (destruct b; [discriminate | reflexivity]).
  destruct (findCustomType_complex B b HB Hb) as (custom & Hfind & Hname).
  destruct (zodLine_reference e b custom Hc Hs Ht Hne Hfind Hname Hschema)
    as (P & Q & sep & Hline & Hsep & HQ).
  unfold complexDependencies. apply filter_In. split.
  2:{ apply negb_true_iff. now apply String.eqb_neq. }
  rewrite zodObject_eq.
  assert (Hin : In (zodLine (fieldOfElement (mapElement ext naming schema e)))
                   (map zodLine (fieldsOf A))).
  { apply in_map. unfold fieldsOf. apply in_or_app. left. now do 2 apply in_map. }
  destruct (fieldsOf A) as [|f fs] eqn:Hfields; [destruct Hin|].
  destruct (concat_In ("," +:+ newline) _ _ Hin) as (X & Y & Hjoin & HY).
  unfold captures, joinLines.
  rewrite !list_ascii_of_string_app, Hjoin, Hline.
  rewrite <- (string_of_list_ascii_of_string b) at 1.
  apply in_map.
  set (head := list_ascii_of_string "z.object({" ++ list_ascii_of_string newline ++ X ++ P).
  set (tail := Q ++ Y ++ list_ascii_of_string newline ++ list_ascii_of_string "})").
  match goal with
  | |- In _ (scan 0 ?text) =>
      replace text with (head ++ sep :: list_ascii_of_string b ++ schemaWord ++ tail)
  end.
  2:{ subst head tail. rewrite <- !app_assoc. simpl. rewrite <- !app_assoc. reflexivity. }
  apply scan_finds; [exact Hcap| |exact Hsep|lia].
  subst tail. apply HQ.
  destruct HY as [->|[Y' ->]]; reflexivity.
Qed.

End Dependencies.

(** ** What the traversal keeps *)

Section SortResult.

Context {T : Type}.
Variable nameOf : T -> option string.
Variable dependenciesOf : T -> list string.
Variable throws : T -> bool.
Variable items : list T.

Local Abbreviation names l := (flat_map (nameList nameOf) l).

(** The names of the result are those that have been visited, each once. *)
Definition settled (st : SortState T) : Prop :=
  NoDup (names (sorted st)) /\ (forall m, m ∈ visited st <-> In m (names (sorted st))).

Definition isNamed (x : T) : bool := Js.truthyStr (nameOf x).

Lemma named_nameList (x : T) (n : string) :
  named nameOf x n -> nameList nameOf x = [n].
Proof. intros [Hx Hne]. unfold nameList. now rewrite Hx, Hne. Qed.

Lemma visit_settled (fuel : nat) :
  forall st x st',
    visit nameOf (guarded dependenciesOf throws) items fuel st x = Ok st' -> settled st ->
    settled st' /\ visiting st' = visiting st /\ visited st ⊆ visited st'
    /\ (forall m, m ∈ visiting st -> m ∈ visited st' -> m ∈ visited st)
    /\ (forall n, named nameOf x n -> n ∈ visited st' \/ n ∈ visiting st).
Proof.
  induction fuel as [|fuel IH]; intros st x st'; [discriminate|].
  assert (Hloop : forall deps s s',
            forOf (descend nameOf dependenciesOf throws items fuel) deps s = Ok s' ->
            settled s ->
            settled s' /\ visiting s' = visiting s /\ visited s ⊆ visited s'
            /\ (forall m, m ∈ visiting s -> m ∈ visited s' -> m ∈ visited s)).
  { induction deps as [|d deps IHd]; intros s s'; simpl.
    - intros [= <-] Hs. split; [exact Hs|]. split; [reflexivity|].
      split; [reflexivity|]. auto.
    - intros H Hs. apply bind_Ok in H as (s1 & H1 & H2).
      assert (Hstep : settled s1 /\ visiting s1 = visiting s /\ visited s ⊆ visited s1
                      /\ (forall m, m ∈ visiting s -> m ∈ visited s1 -> m ∈ visited s)).
      { unfold descend in H1.
        destruct (nameToIndex nameOf items !! d) as [i|].
        - destruct (items !! i) as [z|]; [|discriminate].
          destruct (IH _ _ _ H1 Hs) as (A & B & C & D & _). auto.
        - injection H1 as <-. split; [exact Hs|]. split; [reflexivity|].
          split; [reflexivity|]. auto. }
      destruct Hstep as (A1 & B1 & C1 & D1).
      destruct (IHd _ _ H2 A1) as (A2 & B2 & C2 & D2).
      split; [exact A2|]. split; [congruence|]. split; [set_solver|].
      intros m Hm Hm'. apply D1; [exact Hm|]. apply D2; [congruence|exact Hm']. }
  rewrite visit_eq. destruct (nameOf x) as [n|] eqn:Hx.
  2:{ intros [= <-] Hs. split; [exact Hs|]. split; [reflexivity|].
      split; [reflexivity|]. split; [auto|]. intros m [Hm _]. congruence. }
  destruct (Js.nonEmpty n) eqn:Hne; cbn [negb].
  2:{ intros [= <-] Hs. split; [exact Hs|]. split; [reflexivity|].
      split; [reflexivity|]. split; [auto|]. intros m [Hm Hm']. congruence. }
  destruct (bool_decide (n ∈ visited st)) eqn:Hvisited.
  { intros [= <-] Hs. split; [exact Hs|]. split; [reflexivity|].
    split; [reflexivity|]. split; [auto|]. intros m [Hm _].
    apply bool_decide_eq_true in Hvisited. left. congruence. }
  apply bool_decide_eq_false in Hvisited.
  destruct (bool_decide (n ∈ visiting st)) eqn:Hvisiting.
  { intros [= <-] Hs. split; [exact Hs|]. split; [reflexivity|].
    split; [reflexivity|]. split; [auto|]. intros m [Hm _].
    apply bool_decide_eq_true in Hvisiting. right. simpl. congruence. }
  apply bool_decide_eq_false in Hvisiting.
  cbv zeta. destruct (throws x); [discriminate|].
  intros H Hs. apply bind_Ok in H as (st2 & Hdeps & [= <-]).
  apply Hloop in Hdeps as (A & B & C & D); [|exact Hs]. simpl in B, C, D.
  assert (Hn2 : n ∉ visited st2).
  { intros Hin. apply Hvisited. apply D; [set_solver|exact Hin]. }
  destruct A as [Hnodup Hnames]. unfold settled. simpl.
  assert (Hx' : nameList nameOf x = [n]) by (apply named_nameList; now split).
  assert (Hsnoc : names (sorted st2 ++ [x]) = names (sorted st2) ++ [n]).
  { rewrite flat_map_app. simpl. now rewrite Hx', app_nil_r. }
  split; [split|].
  - rewrite Hsnoc. apply NoDup_app. split; [exact Hnodup|].
    split; [|apply NoDup_singleton].
    intros m Hm Hm'. apply list_elem_of_In in Hm.
    apply list_elem_of_singleton in Hm'. subst m. apply Hn2. now apply Hnames.
  - intros m. rewrite Hsnoc, in_app_iff. simpl. rewrite elem_of_union, elem_of_singleton.
    rewrite Hnames. intuition.
  - split; [rewrite B; set_solver|]. split; [set_solver|]. split.
    + intros m Hm [Hm'|Hm']%elem_of_union.
      * apply elem_of_singleton in Hm'. subst m. contradiction.
      * apply D; [set_solver|exact Hm'].
    + intros m [Hm _]. left. apply elem_of_union. left. apply elem_of_singleton.
      congruence.
Qed.

Lemma topologicalSort_settled (st : SortState T) :
  topologicalSort nameOf (guarded dependenciesOf throws) items = Ok st ->
  NoDup (names (sorted st))
  /\ forall x n, In x items -> named nameOf x n -> In n (names (sorted st)).
Proof.
  unfold topologicalSort.
  assert (Hloop : forall l s s',
            forOf (visit nameOf (guarded dependenciesOf throws) items (S (List.length items))) l s = Ok s' ->
            settled s -> visiting s = ∅ ->
            settled s' /\ visiting s' = ∅ /\ visited s ⊆ visited s'
            /\ (forall x n, In x l -> named nameOf x n -> n ∈ visited s')).
  { induction l as [|x l IHl]; intros s s'; cbn [forOf].
    - intros [= <-] Hs Hv. split; [exact Hs|]. split; [exact Hv|].
      split; [reflexivity|]. intros x n [].
    - intros H Hs Hv. apply bind_Ok in H as (s1 & H1 & H2).
      destruct (visit_settled _ _ _ _ H1 Hs) as (A1 & B1 & C1 & _ & E1).
      destruct (IHl _ _ H2 A1) as (A2 & B2 & C2 & E2); [congruence|].
      split; [exact A2|]. split; [exact B2|]. split; [set_solver|].
      intros y n [<-|Hy] Hn; [|now apply (E2 y)].
      apply C2. destruct (E1 n Hn) as [Hin|Hin]; [exact Hin|].
      rewrite Hv in Hin. now apply not_elem_of_empty in Hin. }
  intros H. destruct (Hloop _ _ _ H) as ([Hnodup Hnames] & _ & _ & Hall).
  - split; [constructor|]. intros m. simpl. split; [|intros []].
    intros Hm. now apply not_elem_of_empty in Hm.
  - reflexivity.
  - split; [exact Hnodup|]. intros x n Hx Hn. apply Hnames. now apply (Hall x).
Qed.

Lemma NoDup_names (l : list T) :
  NoDup (names l) -> (forall y, In y l -> isNamed y = true) -> NoDup l.
Proof.
  induction l as [|y l IH]; intros Hnd Hall; [constructor|].
  simpl in Hnd. apply NoDup_app in Hnd as (_ & Hdisj & Hl).
  constructor.
  - intros Hin%list_elem_of_In.
    assert (Hy : isNamed y = true) by (apply Hall; now left).
    unfold isNamed in Hy. destruct (nameOf y) as [n|] eqn:Hn; [|discriminate].
    simpl in Hy. apply (Hdisj n).
    + unfold nameList. rewrite Hn, Hy. now left.
    + apply list_elem_of_In. apply in_flat_map. exists y. split; [exact Hin|].
      unfold nameList. rewrite Hn, Hy. now left.
  - apply IH; [exact Hl|]. intros z Hz. apply Hall. now right.
Qed.

Lemma names_filter (l : list T) : names (List.filter isNamed l) = names l.
Proof.
  induction l as [|y l IH]; [reflexivity|]. simpl.
  destruct (isNamed y) eqn:Hy; simpl; rewrite IH; [reflexivity|].
  unfold isNamed in Hy. unfold nameList at 2.
  destruct (nameOf y) as [n|]; [|reflexivity]. simpl in Hy. now rewrite Hy.
Qed.

Lemma isNamed_named (x : T) : isNamed x = true <-> exists n, named nameOf x n.
Proof.
  unfold isNamed, named. destruct (nameOf x) as [n|]; simpl.
  - split; [intros H; now exists n | intros (m & [= <-] & H); exact H].
  - split; [discriminate | intros (m & [=] & _)].
Qed.

(** With distinct names the result is a rearrangement of the named items. *)
Lemma topologicalSort_permutation (st : SortState T) :
  topologicalSort nameOf (guarded dependenciesOf throws) items = Ok st ->
  NoDup (names items) ->
  Permutation (sorted st) (List.filter isNamed items).
Proof.
  intros Hsort Hdistinct.
  destruct (topologicalSort_settled st Hsort) as [Hnodup Hall].
  pose proof (topologicalSort_sorted nameOf dependenciesOf throws items st Hsort) as Hin.
  apply NoDup_Permutation.
  - apply NoDup_names.
    + exact Hnodup.
    + intros y Hy. apply isNamed_named. now apply (Hin y).
  - apply NoDup_names.
    + now rewrite names_filter.
    + intros y Hy. now apply filter_In in Hy.
  - intros y. rewrite !list_elem_of_In, filter_In, isNamed_named. split.
    + intros Hy. now apply Hin.
    + intros [Hy [n Hn]]. specialize (Hall y n Hy Hn).
      apply in_flat_map in Hall as (y' & Hy' & Hn').
      apply nameList_named in Hn'.
      assert (y' = y) as ->; [|exact Hy'].
      apply (distinct_names_determine nameOf items Hdistinct y' y n); auto.
      now apply Hin.
Qed.

(** With distinct names every named item is visited: the sort throws when
    one of them makes [visit] throw. *)
Lemma topologicalSort_throws (x : T) (n : string) :
  NoDup (names items) -> In x items -> named nameOf x n -> throws x = true ->
  topologicalSort nameOf (guarded dependenciesOf throws) items = TypeError.
Proof.
  intros Hdistinct Hx Hn Hthrows.
  destruct (topologicalSort_ends nameOf dependenciesOf throws items)
    as [Hthrow|[st Hsort]]; [exact Hthrow|]. exfalso.
  destruct (topologicalSort_settled st Hsort) as [_ Hall].
  specialize (Hall x n Hx Hn). apply in_flat_map in Hall as (y & Hy & Hn').
  apply nameList_named in Hn'.
  assert (y = x) as ->.
  { apply (distinct_names_determine nameOf items Hdistinct y x n); auto.
    now apply (topologicalSort_sorted nameOf dependenciesOf throws items st Hsort). }
  rewrite (topologicalSort_mapped nameOf dependenciesOf throws items st Hsort x Hy)
    in Hthrows.
  discriminate.
Qed.

(** *** Items that depend on none of the others *)

Lemma visit_independent (fuel : nat) (st : SortState T) (x : T) (n : string) :
  named nameOf x n -> n ∉ visited st -> visiting st = ∅ -> throws x = false ->
  (forall d, In d (dependenciesOf x) -> nameToIndex nameOf items !! d = None) ->
  visit nameOf (guarded dependenciesOf throws) items (S fuel) st x
  = Ok (mkSortState ({[n]} ∪ visited st) ∅ (sorted st ++ [x]) (warnings st)).
Proof.
  intros [Hx Hne] Hvisited Hvisiting Hreturns Hdeps.
  rewrite visit_eq, Hx, Hne. cbn [negb].
  rewrite bool_decide_eq_false_2 by exact Hvisited.
  rewrite bool_decide_eq_false_2 by (rewrite Hvisiting; apply not_elem_of_empty).
  cbv zeta. rewrite Hreturns.
  assert (Hloop : forall deps s,
            (forall d, In d deps -> nameToIndex nameOf items !! d = None) ->
            forOf (descend nameOf dependenciesOf throws items fuel) deps s = Ok s).
  { induction deps as [|d deps IHd]; intros s Hall; [reflexivity|]. simpl.
    unfold descend at 1. rewrite (Hall d (or_introl eq_refl)). simpl.
    apply IHd. intros d' Hd'. apply Hall. now right. }
  rewrite (Hloop _ _ Hdeps). simpl. rewrite Hvisiting.
  do 2 f_equal. set_solver.
Qed.

Lemma topologicalSort_independent :
  NoDup (names items) -> returning nameOf throws items ->
  (forall x d, In x items -> In d (dependenciesOf x) ->
     nameToIndex nameOf items !! d = None) ->
  exists st, topologicalSort nameOf (guarded dependenciesOf throws) items = Ok st
    /\ sorted st = List.filter isNamed items /\ warnings st = [].
Proof.
  intros Hdistinct Hreturning Hdeps. unfold topologicalSort.
  assert (Hloop : forall l done s,
            items = done ++ l -> visiting s = ∅ -> warnings s = [] ->
            (forall m, m ∈ visited s <-> In m (names done)) ->
            exists s', forOf (visit nameOf (guarded dependenciesOf throws) items (S (List.length items)))
                             l s = Ok s'
                       /\ sorted s' = sorted s ++ List.filter isNamed l
                       /\ warnings s' = []).
  { induction l as [|x l IHl]; intros done s Hsplit Hv Hw Hvisited; cbn [forOf].
    - exists s. now rewrite app_nil_r.
    - assert (Hsplit' : items = (done ++ [x]) ++ l) by now rewrite <- app_assoc.
      destruct (isNamed x) eqn:Hnamed.
      + destruct (proj1 (isNamed_named x) Hnamed) as [n Hn].
        assert (Hfresh : n ∉ visited s).
        { rewrite Hvisited. intros Hin. rewrite Hsplit in Hdistinct.
          rewrite flat_map_app in Hdistinct.
          apply NoDup_app in Hdistinct as (_ & Hdisj & _).
          apply (Hdisj n); [now apply list_elem_of_In|].
          apply list_elem_of_In. simpl. apply in_or_app. left.
          rewrite (named_nameList x n Hn). now left. }
        assert (Hx : In x items).
        { rewrite Hsplit. apply in_or_app. right. now left. }
        rewrite (visit_independent _ s x n Hn Hfresh Hv (Hreturning x n Hx Hn)).
        2:{ intros d Hd. now apply (Hdeps x). }
        cbn [bind].
        destruct (IHl (done ++ [x])
                    (mkSortState ({[n]} ∪ visited s) ∅ (sorted s ++ [x]) (warnings s))
                    Hsplit' eq_refl Hw) as (s' & Hs' & Hsorted & Hw').
        * intros m. simpl. rewrite flat_map_app, in_app_iff. simpl.
          rewrite (named_nameList x n Hn), app_nil_r, elem_of_union, elem_of_singleton.
          rewrite Hvisited. simpl. intuition.
        * exists s'. split; [exact Hs'|]. split; [|exact Hw'].
          rewrite Hsorted. simpl. rewrite Hnamed, <- app_assoc. reflexivity.
      + assert (Hskip : visit nameOf (guarded dependenciesOf throws) items (S (List.length items)) s x
                        = Ok s).
        { rewrite visit_eq. unfold isNamed in Hnamed.
          destruct (nameOf x) as [n|]; [|reflexivity]. simpl in Hnamed.
          now rewrite Hnamed. }
        rewrite Hskip. cbn [bind].
        destruct (IHl (done ++ [x]) s Hsplit' Hv Hw) as (s' & Hs' & Hsorted & Hw').
        * intros m. rewrite flat_map_app, in_app_iff. simpl.
          assert (Hnone : nameList nameOf x = []).
          { unfold nameList. unfold isNamed in Hnamed.
            destruct (nameOf x) as [n|]; [|reflexivity]. simpl in Hnamed.
            now rewrite Hnamed. }
          rewrite Hnone. simpl. rewrite Hvisited. intuition.
        * exists s'. split; [exact Hs'|]. split; [|exact Hw'].
          rewrite Hsorted. simpl. now rewrite Hnamed. }
  destruct (Hloop items [] (mkSortState ∅ ∅ [] []) eq_refl eq_refl eq_refl)
    as (st & Hst & Hsorted & Hw).
  - intros m. simpl. split; [|intros []]. intros Hm. now apply not_elem_of_empty in Hm.
  - exists st. auto.
Qed.

Lemma unknown_name (d : string) :
  (forall x, In x items -> ~ named nameOf x d) -> nameToIndex nameOf items !! d = None.
Proof.
  intros Hnone. destruct (nameToIndex nameOf items !! d) as [i|] eqn:Hi; [|reflexivity].
  apply index_item in Hi as (x & Hx & Hn). exfalso. apply (Hnone x); [|exact Hn].
  apply list_elem_of_In. eapply list_elem_of_lookup_2. exact Hx.
Qed.

End SortResult.

(** ** The exceptions of the mappers *)

(** The size of an element along [content], the list that [mapComplexType]
    and [processElement] descend into. *)
Fixpoint contentSize (el : XsdElement) : nat :=
  S (match el_complexType el with
     | Some ct => contentSizeOfType ct
     | None => 0
     end)
with contentSizeOfType (ct : XsdComplexType) : nat :=
  list_sum (map contentSize (content ct)).

Lemma contentSizeOfType_eq (ct : XsdComplexType) :
  contentSizeOfType ct = list_sum (map contentSize (content ct)).
Proof. destruct ct. reflexivity. Qed.

Lemma contentSize_in (el : XsdElement) (l : list XsdElement) :
  In el l -> contentSize el <= list_sum (map contentSize l).
Proof.
  induction l as [|x l IH]; simpl; [tauto|].
  intros [->|H]; [lia|]. specialize (IH H). lia.
Qed.

(** Under the [original] convention change-case is not called: the mappers
    return. *)
Lemma mappers_return_under_original (n : nat) :
  (forall e, contentSize e < n -> mapElementThrows original e = false)
  /\ (forall ct, contentSizeOfType ct < n -> mapComplexTypeThrows original ct = false).
Proof.
  induction n as [|n [IHe IHc]]; [split; intros; lia|].
  assert (He : forall e, contentSize e < S n -> mapElementThrows original e = false).
  { intros [nm ty [ct|] st at_ mi ma ir rf nl] Hsize; simpl in *; [|reflexivity].
    apply IHc. lia. }
  split; [exact He|].
  intros ct Hsize. rewrite contentSizeOfType_eq in Hsize.
  destruct ct as [nm sq ch al at_ ex ct].
  cbn [mapComplexTypeThrows content ct_attributes] in *.
  apply orb_false_iff. split.
  - apply not_true_is_false. intros H. apply existsb_exists in H as (e & Hin & Hthrows).
    rewrite He in Hthrows; [discriminate|].
    apply contentSize_in in Hin. lia.
  - apply not_true_is_false. intros H. apply existsb_exists in H as (a & _ & Hthrows).
    discriminate.
Qed.

Lemma mapComplexType_returns_under_original (ct : XsdComplexType) :
  mapComplexTypeThrows original ct = false.
Proof.
  apply (proj2 (mappers_return_under_original (S (contentSizeOfType ct)))). lia.
Qed.

(** ** The two sorts *)

Definition distinctNames {T : Type} (nameOf : T -> option string) (items : list T)
    : Prop :=
  NoDup (flat_map (nameList nameOf) items).

(** [A] has a content element whose type is the name [b], a capitalised word
    of letters and digits that the naming convention leaves as it is and
    that differs from the name under which [A] recognises its own schema. *)
Definition fieldReference (ext : Externals) (naming : NamingConvention)
    (A : XsdComplexType) (b : string) : Prop :=
  (exists e : XsdElement,
      In e (content A) /\ el_complexType e = None /\ el_simpleType e = None
      /\ el_type e = Some b)
  /\ capitalised (list_ascii_of_string b) = true
  /\ getSchemaName ext (Some b) naming = b +:+ "Schema"
  /\ b <> SchemaRe.withoutSchema (getSchemaName ext (ct_name A) naming).

(** C1, as the code has it.  Let the complex types of a schema have distinct
    names and let the sort log no circular dependency.  Then a named complex
    type [A] comes strictly after every complex type [B] whose name is among
    its dependencies, which are the names that [visit] reads off the text of
    [A]'s mapped zod object; and the name of [B] is among them when a content
    element of [A] refers to it as in [fieldReference].  (The base of an
    extension is not in that text.) *)
Theorem complexTypes_sorted_after_dependencies :
  forall (ext : Externals) (schema : XsdSchema) (naming : NamingConvention)
         (st : SortState XsdComplexType) (A B : XsdComplexType) (a b : string),
    topologicalSortComplexTypes ext schema naming = Ok st ->
    warnings st = [] ->
    distinctNames ct_name (complexTypes schema) ->
    In A (complexTypes schema) -> In B (complexTypes schema) ->
    named ct_name A a -> named ct_name B b ->
    (fieldReference ext naming A b ->
       In b (complexDependencies ext schema naming A))
    /\ (In b (complexDependencies ext schema naming A) ->
          exists i j, sorted st !! i = Some B /\ sorted st !! j = Some A /\ i < j).
Proof.
  intros ext schema naming st A B a b Hsort Hw Hnd HA HB Ha Hb. split.
  - intros ((e & He & Hc & Hs & Ht) & Hcap & Hschema & Hself).
    apply (typed_element_dependency ext naming schema A B e b); auto.
    apply Hb.
  - intros Hdep.
    apply (topologicalSort_dependency_first ct_name
             (complexDependencies ext schema naming) (mapComplexTypeThrows naming)
             (complexTypes schema) st A B a b); auto.
    now apply distinct_names_determine.
Qed.

Definition typedElement (name type : string) : XsdElement :=
  mkElement (Some name) (Some type) None None [] None None (Some false) None
    (Some false).

Definition baseType : XsdComplexType :=
  mkComplexType (Some "Base") (Some [typedElement "id" "string"]) None None []
    None [typedElement "id" "string"].

Definition userType : XsdComplexType :=
  mkComplexType (Some "User") (Some [typedElement "base" "Base"]) None None []
    None [typedElement "base" "Base"].

Lemma complexTypes_sorted_after_dependencies_witness :
  exists st : SortState XsdComplexType,
    topologicalSortComplexTypes asWritten
      (mkSchema None None [] [userType; baseType] []) original = Ok st
    /\ sorted st = [baseType; userType]
    /\ exists i j, sorted st !! i = Some baseType /\ sorted st !! j = Some userType
                   /\ i < j.
Proof.
  eexists. split; [vm_compute; reflexivity|]. split; [reflexivity|].
  match goal with
  | |- exists i j, sorted ?st !! i = _ /\ _ =>
      destruct (complexTypes_sorted_after_dependencies asWritten
                  (mkSchema None None [] [userType; baseType] []) original st
                  userType baseType "User" "Base") as [Hdep Horder]
  end.
  - vm_compute. reflexivity.
  - reflexivity.
  - apply (bool_decide_unpack _). vm_compute. reflexivity.
  - simpl. auto.
  - simpl. auto.
  - split; reflexivity.
  - split; reflexivity.
  - apply Horder, Hdep.
    split; [|split; [reflexivity|split; [reflexivity|discriminate]]].
    exists (typedElement "base" "Base"). simpl. auto.
Defined.

(** C1 fails as stated on Scenario 4: [Derived] extends [Base] and is
    declared first; the sort leaves the two in that order. *)
Definition scenario4 : JsVal :=
  JObj [("xs:schema",
         JObj [("xmlns:xs", JStr XSD_NAMESPACE_URI);
               ("xs:complexType",
                JArr [JObj [("name", JStr "Derived");
                            ("xs:complexContent",
                             JObj [("xs:extension",
                                    JObj [("base", JStr "Base");
                                          ("xs:sequence",
                                           JObj [("xs:element",
                                                  plainElement "extra" "xs:string")])])])];
                      JObj [("name", JStr "Base");
                            ("xs:sequence",
                             JObj [("xs:element", plainElement "id" "xs:string")])]])])].

Lemma extension_base_is_not_a_dependency :
  exists (schema : XsdSchema) (st : SortState XsdComplexType),
    snd (parseXsd scenario4) = Ok schema
    /\ map (fun ct => optMap ext_base (extension ct)) (complexTypes schema)
       = [Some (Some "Base"); None]
    /\ topologicalSortComplexTypes asWritten schema original = Ok st
    /\ map ct_name (sorted st) = [Some "Derived"; Some "Base"]
    /\ warnings st = [].
Proof.
  do 2 eexists. split; [vm_compute; reflexivity|]. split; [reflexivity|].
  split; [vm_compute; reflexivity|]. split; reflexivity.
Qed.


Definition anonymousType : XsdComplexType :=
  mkComplexType None (Some [typedElement "id" "string"]) None None [] None
    [typedElement "id" "string"].


Definition cyclicA : XsdComplexType :=
  mkComplexType (Some "A") (Some [typedElement "b" "B"]) None None [] None
    [typedElement "b" "B"].

Definition cyclicB : XsdComplexType :=
  mkComplexType (Some "B") (Some [typedElement "a" "A"]) None None [] None
    [typedElement "a" "A"].


(** An element that only refers to another has no name: under [camel],
    [pascal] and [kebab] mapping the type that holds it throws, and the
    complex sort with it. *)
Definition refOnlyElement : XsdElement :=
  mkElement None None None None [] None None (Some true) (Some "item") (Some false).

Definition referringType : XsdComplexType :=
  mkComplexType (Some "Order") (Some [refOnlyElement]) None None [] None
    [refOnlyElement].

Example complex_sort_throws_without_a_name :
  map (topologicalSortComplexTypes asWritten
         (mkSchema None None [] [referringType] []))
      [camel; pascal; kebab]
  = [TypeError; TypeError; TypeError]
  /\ exists st, topologicalSortComplexTypes asWritten
                  (mkSchema None None [] [referringType] []) original = Ok st
                /\ sorted st = [referringType].
Proof.
  split; [reflexivity|]. eexists. split; [vm_compute; reflexivity | reflexivity].
Qed.

(** ** The orchestrator *)

(** A schema whose annotation documents it in plain text: the tokenizer
    gives the [xs:documentation] element, which has neither attributes nor
    children, as a bare string. *)
Definition documentedSchema : JsVal :=
  JObj [("xs:schema",
         JObj [("xmlns:xs", JStr XSD_NAMESPACE_URI);
               ("xs:annotation",
                JObj [("xs:documentation", JStr "Order schema, version 2")]);
               ("xs:element", plainElement "order" "xs:string")])].

(** C3 at the failing input: [parseSimpleTypesFromAnnotation] looks for
    [simpleType] in the documentation text with [in], which throws. *)
Theorem parseXsd_throws_on_documentation_text :
  parseXsd documentedSchema = ([], TypeError).
Proof. vm_compute. reflexivity. Qed.

(** One schema written with the XSD namespace bound to [prefix], or as the
    default namespace: a complex type with a typed attribute and an element
    of a built-in type. *)
Definition qualified (prefix : option string) (local : string) : string :=
  match prefix with
  | Some p => p +:+ ":" +:+ local
  | None => local
  end.

Definition sameSchema (prefix : option string) : JsVal :=
  JObj [(qualified prefix "schema",
         JObj [(match prefix with Some p => "xmlns:" +:+ p | None => "xmlns" end,
                JStr XSD_NAMESPACE_URI);
               (qualified prefix "complexType",
                JObj [("name", JStr "Item");
                      (qualified prefix "attribute",
                       JObj [("name", JStr "id");
                             ("type", JStr (qualified prefix "string"))])]);
               (qualified prefix "element",
                JObj [("name", JStr "note");
                      ("type", JStr (qualified prefix "string"))])])].

Definition attributeTypes (schema : XsdSchema) : list (option string) :=
  map attr_type (flat_map ct_attributes (complexTypes schema)).

(** C4 at the failing input: the three documents parse to schemas whose
    elements agree, the type of an element being stripped of its prefix,
    and whose attributes differ, the type of an attribute being copied as
    written. *)
Theorem attribute_type_keeps_prefix :
  exists s1 s2 s3 : XsdSchema,
    snd (parseXsd (sameSchema (Some "xs"))) = Ok s1
    /\ snd (parseXsd (sameSchema (Some "xsd"))) = Ok s2
    /\ snd (parseXsd (sameSchema None)) = Ok s3
    /\ elements s1 = elements s2 /\ elements s2 = elements s3
    /\ map el_type (elements s1) = [Some "string"]
    /\ attributeTypes s1 = [Some "xs:string"]
    /\ attributeTypes s2 = [Some "xsd:string"]
    /\ attributeTypes s3 = [Some "string"]
    /\ s1 <> s2 /\ s2 <> s3.
Proof.
  do 3 eexists.
  split; [vm_compute; reflexivity|]. split; [vm_compute; reflexivity|].
  split; [vm_compute; reflexivity|].
  repeat (split; [reflexivity|]).
  split; intros H; apply (f_equal attributeTypes) in H; discriminate H.
Qed.

(** ** Examples *)

Example extractNamespaces_scenario5 :
  xsdPrefix (extractNamespaces
    (JObj [("xmlns:skatt", JStr "http://www.skatteetaten.no/xsd");
           ("xmlns:xsd", JStr "http://www.w3.org/2001/XMLSchema");
           ("elementFormDefault", JStr "qualified")])) = Some "xsd".
Proof. vm_compute. reflexivity. Qed.

Example split_second_1 : SplitRe.second "a/@_xmlns:b" = Some "b".
Proof. reflexivity. Qed.

Example split_second_2 : SplitRe.second "a/xmlns:b" = None.
Proof. reflexivity. Qed.

Example parseInt_0 : ParseInt.parseInt "0" = Int 0.
Proof. reflexivity. Qed.

Example parseInt_12px : ParseInt.parseInt " 12px" = Int 12.
Proof. reflexivity. Qed.

Example parseInt_hex : ParseInt.parseInt "0x1F" = Int 31.
Proof. reflexivity. Qed.

Example parseInt_neg : ParseInt.parseInt "-7" = Int (-7).
Proof. reflexivity. Qed.

Example parseInt_nan : ParseInt.parseInt "many" = NaN.
Proof. reflexivity. Qed.

Example captures_1 :
  SchemaRe.captures "x: UserSchemaTypeSchema, z.array(FooSchema) bSchema ASchemaX"
  = ["UserSchemaType"; "Foo"; "A"].
Proof. vm_compute. reflexivity. Qed.

Example zodObject_userType :
  zodObject (mapComplexType asWritten original
               (mkSchema None None [] [userType; baseType] []) userType)
  = "z.object({" +:+ newline +:+ "  base: BaseSchema" +:+ newline +:+ "})".
Proof. vm_compute. reflexivity. Qed.

(** * Further properties of the code

    Properties of the parser, of the namespace helpers, of the mappers and
    of the generators beyond the ten above: what the functions do at their
    edges, what they keep, and how they compose. *)

(** ** Lookups in the tokenizer's tree *)

(** A node that is a primitive other than the falsy ones: text that is not
    empty, a number other than 0 and NaN, or [true]. *)
Definition truthyPrimitive (v : JsVal) : bool :=
  match v with
  | JStr _ | JNum _ | JBool _ => Tree.truthy v
  | JArr _ | JObj _ => false
  end.

(** The names that the parser looks up. *)
Definition lookedUp : list string :=
  ["annotation"; "documentation"; "simpleType"; "element"; "complexType";
   "sequence"; "choice"; "all"; "complexContent"; "simpleContent"; "extension";
   "restriction"; "enumeration"; "attribute"; "minLength"; "maxLength"; "pattern";
   "minInclusive"; "maxInclusive"; "minExclusive"; "maxExclusive"; "totalDigits";
   "fractionDigits"; "length"; "whiteSpace"].

(** X1.  [getTypeValue] and [getAsArray] throw exactly on a truthy primitive
    (text, a number other than 0 and NaN, [true]), whatever the name looked
    up.  For the names that the parser looks up, the bare key of an object
    is read first and the prefixed key, when a prefix is known, second; an
    array, asked for another name than [length], and the falsy primitives
    hold none. *)
Theorem getTypeValue_throws_exactly_on_primitives :
  forall (container : JsVal) (elementName : string) (xsdPrefix : option string),
    (getTypeValue container elementName xsdPrefix = TypeError
       <-> truthyPrimitive container = true)
    /\ (getAsArray container elementName xsdPrefix = TypeError
          <-> truthyPrimitive container = true)
    /\ (Tree.truthy container = false ->
          getTypeValue container elementName xsdPrefix = Ok None)
    /\ (In elementName lookedUp ->
        (forall fields,
           container = JObj fields ->
           getTypeValue container elementName xsdPrefix
           = Ok (match Tree.assoc elementName fields with
                 | Some v => Some v
                 | None =>
                     if Js.truthyStr xsdPrefix
                     then Tree.assoc (Js.render xsdPrefix +:+ ":" +:+ elementName)
                            fields
                     else None
                 end))
        /\ (forall items, container = JArr items -> elementName <> "length" ->
              getTypeValue container elementName xsdPrefix = Ok None)).
Proof.
  intros c k p.
  assert (Hobj : forall fields, c = JObj fields ->
            getTypeValue c k p
            = Ok (match Tree.assoc k fields with
                  | Some v => Some v
                  | None => if Js.truthyStr p
                            then Tree.assoc (Js.render p +:+ ":" +:+ k) fields
                            else None
                  end)).
  { intros fields ->. unfold getTypeValue. simpl.
    destruct (Tree.assoc k fields) as [v|]; [reflexivity|].
    destruct (Js.truthyStr p); [|reflexivity]. simpl.
    destruct (Tree.assoc _ fields); reflexivity. }
  assert (Harr : forall items, c = JArr items -> getTypeValue c k p = Ok None).
  { intros items ->. unfold getTypeValue. simpl. now destruct (Js.truthyStr p). }
  assert (Hfalsy : Tree.truthy c = false -> getTypeValue c k p = Ok None).
  { intros Hc. unfold getTypeValue. now rewrite Hc. }
  assert (Hget : getTypeValue c k p = TypeError <-> truthyPrimitive c = true).
  { destruct c as [s|t|b|items|fields]; cbn [truthyPrimitive].
    1-3: destruct (Tree.truthy _) eqn:Hc;
      [unfold getTypeValue; rewrite Hc; split; reflexivity
      | rewrite (Hfalsy eq_refl); split; discriminate].
    - rewrite (Harr items eq_refl). split; discriminate.
    - rewrite (Hobj fields eq_refl). split; discriminate. }
  split; [exact Hget|]. split; [|split; [exact Hfalsy|]].
  - rewrite <- Hget. unfold getAsArray.
    destruct (getTypeValue c k p) as [[[s|t|b|items|fields]|]| |]; simpl;
      split; congruence.
  - intros _. split; [exact Hobj|].
    intros items Hc _; exact (Harr items Hc).
Qed.

Lemma getTypeValue_throws_exactly_on_primitives_witness :
  getTypeValue (JObj [("xs:element", JStr ""); ("element", JStr "bare")])
    "element" (Some "xs")
  = Ok (Some (JStr "bare")).
Proof.
  apply (proj1 (proj2 (proj2 (proj2 (getTypeValue_throws_exactly_on_primitives
           (JObj [("xs:element", JStr ""); ("element", JStr "bare")])
           "element" (Some "xs")))) ltac:(vm_compute; tauto))
           [("xs:element", JStr ""); ("element", JStr "bare")] eq_refl).
Defined.

(** A year given as the text of a [documentation] element arrives as a
    number, on which the lookup throws as it does on text. *)
Example getAsArray_throws_on_number :
  getAsArray (JNum "2024") "simpleType" (Some "xs") = TypeError.
Proof. reflexivity. Qed.

(** ** Qualified names *)

Lemma indexOfColon_app (p l : string) :
  Js.indexOfColon p = None ->
  Js.indexOfColon (p +:+ ":" +:+ l) = Some (String.length p).
Proof.
  induction p as [|c p IH]; [reflexivity|].
  change (String c p +:+ ":" +:+ l) with (String c (p +:+ ":" +:+ l)).
  cbn [Js.indexOfColon String.length].
  destruct (Ascii.eqb c ":"); [discriminate|].
  destruct (Js.indexOfColon p); [discriminate|].
  intros _. now rewrite IH.
Qed.

Lemma substringFrom_app (p l : string) :
  Js.substringFrom (S (String.length p)) (p +:+ ":" +:+ l) = l.
Proof. induction p as [|c p IH]; [reflexivity | exact IH]. Qed.

(** X2.  [stripNamespace] leaves a name without colon as it is, and takes a
    prefix without colon, and the colon, off a qualified name. *)
Theorem stripNamespace_qualified :
  forall (prefix local : string),
    Js.indexOfColon prefix = None ->
    stripNamespace (prefix +:+ ":" +:+ local) = local
    /\ stripNamespace prefix = prefix.
Proof.
  intros p l Hp. split.
  - unfold stripNamespace.
    assert (Hne : Js.nonEmpty (p +:+ ":" +:+ l) = true) by (destruct p; reflexivity).
    rewrite Hne, (indexOfColon_app p l Hp). cbn [negb].
    apply substringFrom_app.
  - unfold stripNamespace. rewrite Hp. now destruct p.
Qed.

Lemma stripNamespace_qualified_witness :
  stripNamespace "xs:string" = "string" /\ stripNamespace "xs" = "xs".
Proof. exact (stripNamespace_qualified "xs" "string" eq_refl). Defined.

(** ** Namespace detection *)

(** Whether the character [c] occurs in [s]. *)
Fixpoint hasChar (c : ascii) (s : string) : bool :=
  match s with
  | EmptyString => false
  | String a s' => Ascii.eqb a c || hasChar c s'
  end.

Lemma substring_head (c : ascii) (t s : string) :
  forall m n, String.substring m (S n) s = String c t -> hasChar c s = true.
Proof.
  induction s as [|a s IH]; intros m n.
  - destruct m; discriminate.
  - destruct m as [|m]; simpl.
    + intros [= -> _]. now rewrite Ascii.eqb_refl.
    + intros H. rewrite (IH _ _ H). apply orb_true_r.
Qed.

Lemma includes_head (c : ascii) (t s : string) :
  hasChar c s = false -> Js.includes s (String c t) = false.
Proof.
  intros Hs. unfold Js.includes.
  destruct (String.index 0 (String c t) s) as [m|] eqn:Hidx; [|reflexivity].
  apply String.index_correct1 in Hidx. simpl String.length in Hidx.
  apply substring_head in Hidx. congruence.
Qed.

Lemma hasChar_app (c : ascii) (s t : string) :
  hasChar c (s +:+ t) = hasChar c s || hasChar c t.
Proof.
  induction s as [|a s IH]; [reflexivity|].
  change (String a s +:+ t) with (String a (s +:+ t)). simpl.
  rewrite IH. apply orb_assoc.
Qed.

(** The key [xmlns:p] declares the prefix [p]. *)
Lemma declPrefix_xmlns (p : string) :
  hasChar "/" p = false ->
  isPrefixedDecl ("xmlns:" +:+ p) = true /\ declPrefix ("xmlns:" +:+ p) = Some p.
Proof.
  intros Hp. split.
  { unfold isPrefixedDecl, Js.startsWith. simpl. now destruct p. }
  unfold declPrefix.
  replace (Js.startsWith ("xmlns:" +:+ p) "@_xmlns:") with false
    by (vm_compute; reflexivity).
  assert (Hs : hasChar "/" ("xmlns:" +:+ p) = false).
  { rewrite hasChar_app, Hp. reflexivity. }
  rewrite (includes_head "/" "xmlns:" _ Hs), (includes_head "/" "@_xmlns:" _ Hs).
  reflexivity.
Qed.

Lemma fold_nsStep_keeps (fields : list (string * JsVal)) :
  forall ctx : NamespaceContext,
    (forall k v, In (k, v) fields -> isXsdUri v = false) ->
    xsdPrefix (fold_left nsStep fields ctx) = xsdPrefix ctx.
Proof.
  induction fields as [|[k v] fields IH]; intros ctx Hall; [reflexivity|].
  simpl. rewrite IH by (intros k' v' Hin; apply (Hall k' v'); now right).
  unfold nsStep. destruct (String.eqb k "xmlns"); [reflexivity|].
  destruct (isPrefixedDecl k); [|reflexivity]. simpl.
  now rewrite (Hall k v (or_introl eq_refl)).
Qed.

(** X3.  A root that binds the XSD namespace to the prefix [p] through the key
    [xmlns:p], and holds the namespace under no later key, has [p] for its
    [xsdPrefix], whatever the keys before. *)
Theorem extractNamespaces_detects_prefix :
  forall (before after : list (string * JsVal)) (p : string),
    hasChar "/" p = false ->
    (forall k v, In (k, v) after -> isXsdUri v = false) ->
    xsdPrefix (extractNamespaces
                 (JObj (before ++ ("xmlns:" +:+ p, JStr XSD_NAMESPACE_URI) :: after)))
    = Some p.
Proof.
  intros before after p Hp Hafter. unfold extractNamespaces. cbn [Tree.truthy negb].
  rewrite fold_left_app. cbn [fold_left].
  rewrite (fold_nsStep_keeps after _ Hafter).
  destruct (declPrefix_xmlns p Hp) as [Hdecl Hprefix].
  unfold nsStep at 1.
  assert (Hkey : String.eqb ("xmlns:" +:+ p) "xmlns" = false)
    by (vm_compute; reflexivity).
  rewrite Hkey, Hdecl, Hprefix. reflexivity.
Qed.

Lemma extractNamespaces_detects_prefix_witness :
  xsdPrefix (extractNamespaces
    (JObj [("xmlns:skatt", JStr "http://www.skatteetaten.no/xsd");
           ("xmlns:xsd", JStr XSD_NAMESPACE_URI);
           ("elementFormDefault", JStr "qualified")])) = Some "xsd".
Proof.
  apply (extractNamespaces_detects_prefix
           [("xmlns:skatt", JStr "http://www.skatteetaten.no/xsd")]
           [("elementFormDefault", JStr "qualified")] "xsd").
  - reflexivity.
  - intros k v [[= <- <-]|[]]. reflexivity.
Defined.

(** ** Built-in type names *)

Definition anyMapping : TypeMapping := mkTypeMapping "any" "z.any()".

Definition sameMapping (a b : TypeMapping) : bool :=
  String.eqb (tsType a) (tsType b) && String.eqb (zodValidator a) (zodValidator b).

Lemma sameMapping_eq (a b : TypeMapping) : sameMapping a b = true <-> a = b.
Proof.
  destruct a as [t1 z1], b as [t2 z2]. unfold sameMapping. simpl. split.
  - intros H. apply andb_prop in H as [H1 H2].
    apply String.eqb_eq in H1, H2. now subst.
  - intros [= -> ->]. now rewrite !String.eqb_refl.
Qed.

(** X4.  Every name of the primitive table is a built-in type for [isXsdType],
    whatever prefix has been detected. *)
Theorem isXsdType_accepts_primitive_names :
  forall (typeName : string) (xsdPrefix : option string),
    In typeName (map fst PRIMITIVE_TYPE_MAP) -> isXsdType typeName xsdPrefix = true.
Proof.
  intros k p Hin.
  assert (Hall : forallb (fun k => Js.nonEmpty k
                                   && existsb (String.eqb (stripNamespace k)) builtInTypes)
                         (map fst PRIMITIVE_TYPE_MAP) = true) by (vm_compute; reflexivity).
  rewrite forallb_forall in Hall. apply Hall in Hin. apply andb_prop in Hin as [Hne Hb].
  unfold isXsdType. rewrite Hne, Hb. cbn [negb]. now destruct (_ && _).
Qed.

Lemma isXsdType_accepts_primitive_names_witness :
  isXsdType "xs:dateTime" (Some "xsd") = true.
Proof.
  apply isXsdType_accepts_primitive_names. vm_compute. tauto.
Defined.

(** The names that the primitive table lists with the [xs:] prefix only. *)
Definition prefixedOnly : list string :=
  ["xs:gDay"; "xs:gMonth"; "xs:gMonthDay"; "xs:gYear"; "xs:gYearMonth"; "xs:ID";
   "xs:IDREF"; "xs:ENTITY"; "xs:NMTOKEN"; "xs:normalizedString"; "xs:token";
   "xs:language"; "xs:Name"; "xs:NCName"; "xs:unsignedLong"; "xs:unsignedInt";
   "xs:unsignedShort"; "xs:unsignedByte"].

Definition inList (k : string) (l : list string) : bool := existsb (String.eqb k) l.

Lemma inList_In (k : string) (l : list string) : inList k l = true <-> In k l.
Proof.
  unfold inList. rewrite existsb_exists. split.
  - intros (x & Hx & Heq). apply String.eqb_eq in Heq. now subst.
  - intros H. exists k. split; [exact H | apply String.eqb_refl].
Qed.

(** X5.  [parseElement] hands the mapper the type of an element without its
    prefix.  For the names of the primitive table the mapping survives this
    exactly when the table also lists the bare name: the eighteen names of
    [prefixedOnly] are mapped to [any] once stripped. *)
Theorem mapPrimitiveType_of_stripped_name :
  (forall (fuel : nat) (el : JsVal) (p : option string) (e : XsdElement) (t : string),
      parseElement fuel el p = Ok (Some e) ->
      Tree.attr el "type" = Some t -> t <> "" ->
      el_type e = Some (stripNamespace t))
  /\ (forall k : string,
        In k (map fst PRIMITIVE_TYPE_MAP) ->
        (mapPrimitiveType (stripNamespace k) = mapPrimitiveType k <-> ~ In k prefixedOnly)
        /\ (In k prefixedOnly ->
            mapPrimitiveType (stripNamespace k) = anyMapping
            /\ mapPrimitiveType k <> anyMapping)).
Proof.
  split.
  - intros [|fuel] el p e t; [discriminate|]. rewrite parseElement_eq.
    destruct (negb (Tree.truthy el)); [discriminate|].
    destruct (parseAttributes el p) as [attrs| |]; simpl; try discriminate.
    destruct (getTypeValue el "complexType" p) as [ct| |]; simpl; try discriminate.
    destruct (match ct with Some c => _ | None => _ end) as [c'| |]; simpl;
      try discriminate.
    destruct (getTypeValue el "simpleType" p) as [st| |]; simpl; try discriminate.
    destruct (match st with Some c => _ | None => _ end) as [s'| |]; simpl;
      try discriminate.
    intros [= <-] Ht Hne. simpl. rewrite Ht. destruct t; [congruence|reflexivity].
  - intros k Hin.
    assert (Hall : forallb
              (fun k =>
                 let stripped := mapPrimitiveType (stripNamespace k) in
                 if inList k prefixedOnly
                 then sameMapping stripped anyMapping
                      && negb (sameMapping (mapPrimitiveType k) anyMapping)
                      && negb (sameMapping stripped (mapPrimitiveType k))
                 else sameMapping stripped (mapPrimitiveType k))
              (map fst PRIMITIVE_TYPE_MAP) = true) by (vm_compute; reflexivity).
    rewrite forallb_forall in Hall. apply Hall in Hin. cbv zeta in Hin.
    destruct (inList k prefixedOnly) eqn:Hlist.
    + apply andb_prop in Hin as [Hin Hdiff]. apply andb_prop in Hin as [Hany Hknown].
      apply sameMapping_eq in Hany. apply inList_In in Hlist.
      assert (Hk : mapPrimitiveType k <> anyMapping).
      { intros Heq. apply sameMapping_eq in Heq. rewrite Heq in Hknown. discriminate. }
      split; [|auto]. split; [|contradiction].
      intros Heq. exfalso. apply sameMapping_eq in Heq. rewrite Heq in Hdiff. discriminate.
    + apply sameMapping_eq in Hin. split.
      * split; [|auto]. intros _ Hl. apply inList_In in Hl. congruence.
      * intros Hl. apply inList_In in Hl. congruence.
Qed.

Lemma mapPrimitiveType_of_stripped_name_witness :
  mapPrimitiveType (stripNamespace "xs:token") = anyMapping
  /\ mapPrimitiveType "xs:token" <> anyMapping.
Proof.
  apply (proj2 mapPrimitiveType_of_stripped_name "xs:token").
  - vm_compute. tauto.
  - vm_compute. tauto.
Defined.

(** ** Facets *)

Lemma string_app_assoc (a b c : string) : (a +:+ b) +:+ c = a +:+ b +:+ c.
Proof.
  induction a as [|x a IH]; [reflexivity|].
  change (String x ((a +:+ b) +:+ c) = String x (a +:+ b +:+ c)). now rewrite IH.
Qed.

Lemma string_app_nil_r (a : string) : a +:+ "" = a.
Proof.
  induction a as [|x a IH]; [reflexivity|].
  change (String x (a +:+ "") = String x a). now rewrite IH.
Qed.

Definition extends (z z' : string) : Prop := exists suffix, z' = z +:+ suffix.

Lemma extends_refl (z : string) : extends z z.
Proof. exists "". now rewrite string_app_nil_r. Qed.

Lemma extends_trans (a b c : string) : extends a b -> extends b c -> extends a c.
Proof. intros [s ->] [t ->]. exists (s +:+ t). apply string_app_assoc. Qed.

Lemma callWithInt_extends (m : string) (o : option JsInt) (z : string) :
  extends z (callWithInt m o z).
Proof.
  unfold callWithInt. destruct o as [n|]; [|apply extends_refl].
  destruct (truthyInt (Some n)); [|apply extends_refl].
  eexists. reflexivity.
Qed.

Lemma callWithFloat_extends (ext : Externals) (m : string) (o : option JsFloat)
    (z : string) :
  extends z (callWithFloat ext m o z).
Proof.
  unfold callWithFloat. destruct o as [[l]|]; [|apply extends_refl].
  eexists. reflexivity.
Qed.

(** An integer facet counts when it is a number other than 0. *)
Definition counted (o : option JsInt) : option JsInt :=
  if truthyInt o then o else None.

Definition countedPattern (o : option string) : option string :=
  match o with
  | Some p => if Js.nonEmpty p then Some p else None
  | None => None
  end.

(** The restriction without the facets that [applyFacets] passes over: the
    integer facets that are 0 or [NaN] and the empty pattern. *)
Definition countedFacets (f : XsdRestriction) : XsdRestriction :=
  mkRestriction (base f) (enumerations f) (counted (minLength f))
    (counted (maxLength f)) (countedPattern (pattern f)) (minInclusive f)
    (maxInclusive f) (minExclusive f) (maxExclusive f) (counted (totalDigits f))
    (counted (fractionDigits f)) (counted (length_ f)) (whiteSpace f).

Lemma callWithInt_counted (m : string) (o : option JsInt) (z : string) :
  callWithInt m (counted o) z = callWithInt m o z.
Proof.
  unfold counted. destruct (truthyInt o) eqn:Ho; [reflexivity|].
  unfold callWithInt. destruct o as [n|]; [|reflexivity]. now rewrite Ho.
Qed.

Lemma truthyInt_counted (o : option JsInt) : truthyInt (counted o) = truthyInt o.
Proof. unfold counted. destruct (truthyInt o) eqn:Ho; [exact Ho | reflexivity]. Qed.

(** X6.  [applyFacets] only appends calls to the validator of the base; the
    TypeScript type is that of the base unless a digits facet counts, which
    makes it [number]; an integer facet that is 0 or [NaN] and an empty
    pattern change nothing, whereas a bound is applied whatever its value. *)
Theorem applyFacets_appends :
  forall (ext : Externals) (baseMapping : TypeMapping) (facets : XsdRestriction)
         (naming : NamingConvention),
    extends (zodValidator baseMapping)
            (zodValidator (applyFacets ext baseMapping facets naming))
    /\ tsType (applyFacets ext baseMapping facets naming)
       = (if truthyInt (totalDigits facets) || truthyInt (fractionDigits facets)
          then "number" else tsType baseMapping)
    /\ applyFacets ext baseMapping (countedFacets facets) naming
       = applyFacets ext baseMapping facets naming
    /\ (forall literal : string,
          minInclusive facets = Some (ParseFloat literal) ->
          maxInclusive facets = None -> minExclusive facets = None ->
          maxExclusive facets = None ->
          exists z, extends (zodValidator baseMapping) z
            /\ zodValidator (applyFacets ext baseMapping facets naming)
               = z +:+ ".min(" +:+ floatText ext literal +:+ ")").
Proof.
  intros ext b f naming. split; [|split; [|split]].
  - unfold applyFacets. cbv zeta. cbn [zodValidator].
    repeat (eapply extends_trans; [|apply callWithFloat_extends]).
    eapply extends_trans.
    2:{ destruct (pattern f) as [p|]; [|apply extends_refl].
        destruct (Js.nonEmpty p); [|apply extends_refl]. eexists. reflexivity. }
    repeat (eapply extends_trans; [|apply callWithInt_extends]).
    apply extends_refl.
  - unfold applyFacets. cbv zeta. cbn [tsType].
    destruct (truthyInt (totalDigits f)), (truthyInt (fractionDigits f)); reflexivity.
  - unfold applyFacets, countedFacets. cbv zeta.
    cbn [minLength maxLength length_ pattern minInclusive maxInclusive minExclusive
         maxExclusive totalDigits fractionDigits].
    rewrite !callWithInt_counted, !truthyInt_counted.
    assert (Hp : forall z,
              match countedPattern (pattern f) with
              | Some p => if Js.nonEmpty p
                          then z +:+ ".regex(/" +:+ escapeBackslashes p +:+ "/)"
                          else z
              | None => z
              end
              = match pattern f with
                | Some p => if Js.nonEmpty p
                            then z +:+ ".regex(/" +:+ escapeBackslashes p +:+ "/)"
                            else z
                | None => z
                end).
    { intros z. unfold countedPattern. destruct (pattern f) as [p|]; [|reflexivity].
      destruct (Js.nonEmpty p) eqn:Hne; [now rewrite Hne | reflexivity]. }
    now rewrite Hp.
  - intros literal Hmin Hmax Hgt Hlt. unfold applyFacets. cbv zeta. cbn [zodValidator].
    rewrite Hmin, Hmax, Hgt, Hlt. cbn [callWithFloat].
    eexists. split; [|reflexivity].
    eapply extends_trans.
    2:{ destruct (pattern f) as [p|]; [|apply extends_refl].
        destruct (Js.nonEmpty p); [|apply extends_refl]. eexists. reflexivity. }
    repeat (eapply extends_trans; [|apply callWithInt_extends]).
    apply extends_refl.
Qed.

Lemma applyFacets_appends_witness :
  exists z : string,
    extends "z.number()" z
    /\ zodValidator
         (applyFacets asWritten (mkTypeMapping "number" "z.number()")
            (mkRestriction "decimal" None (Some (Int 0)) None None
               (Some (ParseFloat "0")) None None None None None None None)
            original)
       = z +:+ ".min(" +:+ "0" +:+ ")".
Proof.
  exact (proj2 (proj2 (proj2 (applyFacets_appends asWritten
           (mkTypeMapping "number" "z.number()")
           (mkRestriction "decimal" None (Some (Int 0)) None None
              (Some (ParseFloat "0")) None None None None None None None)
           original))) "0" eq_refl eq_refl eq_refl eq_refl).
Defined.

(** ** Attributes *)

(** The keys that [parseAttributes] reads off an [attribute] node, and the
    nodes on which they hold text, as the attributes of an XML element do. *)
Definition attributeKeys : list string := ["name"; "type"; "use"; "default"; "fixed"].

Definition textAttributes (node : JsVal) : bool :=
  forallb (fun k => Tree.textUnder k node) attributeKeys.

(** What [parseAttributes] reads off such a node without looking into its
    inline simple type: the strings that the node holds.  ([fixed] is read
    off another node than the empty string, the node of an [attribute] tag
    without attributes: [attr.fixed] is a method of strings.) *)
Definition attributeOf (node : JsVal) (a : XsdAttribute) : Prop :=
  optMap JStr (attr_name a) = Tree.prop node "name"
  /\ optMap JStr (attr_type a) = Tree.prop node "type"
  /\ use a = Some (match Tree.prop node "use" with
                   | Some (JStr u) => if Js.nonEmpty u then u else "optional"
                   | _ => "optional"
                   end)
  /\ optMap JStr (default a) = Tree.prop node "default"
  /\ (node <> JStr "" -> optMap JStr (fixed a) = Tree.prop node "fixed").

Lemma attr_textUnder (node : JsVal) (k : string) :
  Tree.textUnder k node = true -> optMap JStr (Tree.attr node k) = Tree.prop node k.
Proof.
  unfold Tree.textUnder, Tree.attr.
  destruct (Tree.prop node k) as [[s|t|b|items|fields]|]; simpl; congruence.
Qed.

Lemma forOf_Forall2 {A B : Type} (R : A -> B -> Prop)
    (body : list B -> A -> result (list B)) (xs : list A) :
  (forall acc x acc', body acc x = Ok acc' -> exists b, acc' = acc ++ [b] /\ R x b) ->
  forall acc r, forOf body xs acc = Ok r -> exists bs, r = acc ++ bs /\ Forall2 R xs bs.
Proof.
  intros Hbody. induction xs as [|x xs IH]; intros acc r; simpl.
  - intros [= <-]. exists []. split; [now rewrite app_nil_r | constructor].
  - intros H. apply bind_Ok in H as (acc' & Hx & Hrest).
    apply Hbody in Hx as (b & -> & Hb).
    apply IH in Hrest as (bs & -> & Hbs).
    exists (b :: bs). split; [now rewrite <- app_assoc | now constructor].
Qed.

(** X7.  [parseAttributes] returns one attribute for each [attribute] node of the
    parent, in order.  When the node holds text under the keys of its
    attributes, the attribute has the name, type, default and fixed value
    of the node as written and "optional" for a [use] that is absent or
    empty; it therefore always has a [use], and [mapAttribute] makes it
    optional exactly when the node's [use] is absent, empty or
    "optional". *)
Theorem parseAttributes_reads_each_node :
  forall (ext : Externals) (parent : JsVal) (p : option string)
         (nodes : list JsVal) (attributes : list XsdAttribute),
    getAsArray parent "attribute" p = Ok nodes ->
    parseAttributes parent p = Ok attributes ->
    Forall2 (fun node a =>
               textAttributes node = true ->
               attributeOf node a
               /\ forall naming schema,
                    ma_optional (mapAttribute ext a naming schema) = true
                    <-> (Tree.prop node "use" = None
                         \/ Tree.prop node "use" = Some (JStr "")
                         \/ Tree.prop node "use" = Some (JStr "optional")))
            nodes attributes.
Proof.
  intros ext parent p nodes attributes Hnodes. unfold parseAttributes.
  rewrite Hnodes. cbn [bind]. intros H.
  apply (forOf_Forall2
           (fun node a =>
              attr_name a = Tree.attr node "name"
              /\ attr_type a = Tree.attr node "type"
              /\ use a = Some (match Tree.attr node "use" with
                               | Some u => if Js.nonEmpty u then u else "optional"
                               | None => "optional"
                               end)
              /\ default a = Tree.attr node "default"
              /\ fixed a = Tree.attr node "fixed")) in H as (bs & -> & Hall).
  - simpl. apply (Forall2_impl _ _ _ _ Hall).
    intros node a (Hname & Htype & Huse & Hdefault & Hfixed) Htext.
    unfold textAttributes, attributeKeys in Htext. cbn [forallb] in Htext.
    apply andb_prop in Htext as [Tname Htext].
    apply andb_prop in Htext as [Ttype Htext].
    apply andb_prop in Htext as [Tuse Htext].
    apply andb_prop in Htext as [Tdefault Htext].
    apply andb_prop in Htext as [Tfixed _].
    assert (Huse' : Tree.prop node "use" = optMap JStr (Tree.attr node "use"))
      by (symmetry; now apply attr_textUnder).
    split.
    + unfold attributeOf.
      rewrite Hname, Htype, Hdefault, Hfixed, Huse.
      rewrite !attr_textUnder by assumption.
      repeat split. rewrite Huse'. now destruct (Tree.attr node "use").
    + intros naming schema. unfold mapAttribute. cbn [ma_optional].
      rewrite Huse, Huse'.
      destruct (Tree.attr node "use") as [u|]; cbn [optMap].
      * destruct u as [|c u]; cbn [Js.nonEmpty].
        -- split; auto.
        -- split.
           ++ intros Heq. apply String.eqb_eq in Heq. rewrite Heq. auto.
           ++ intros [H|[H|H]]; try discriminate. injection H as -> ->. reflexivity.
      * split; auto.
  - intros acc node acc' Hbody.
    apply bind_Ok in Hbody as (v & _ & Hbody).
    apply bind_Ok in Hbody as (st & _ & [= <-]).
    eexists. split; [reflexivity|]. repeat split.
Qed.

Lemma parseAttributes_reads_each_node_witness :
  exists attributes : list XsdAttribute,
    parseAttributes
      (JObj [("xs:attribute",
              JArr [JObj [("name", JStr "id"); ("type", JStr "xs:string");
                          ("use", JStr "required")];
                    JObj [("name", JStr "lang"); ("fixed", JStr "en")]])])
      (Some "xs") = Ok attributes
    /\ map use attributes = [Some "required"; Some "optional"]
    /\ Forall2 (fun node a =>
                  attributeOf node a
                  /\ (ma_optional (mapAttribute asWritten a original emptySchema) = true
                      <-> (Tree.prop node "use" = None
                           \/ Tree.prop node "use" = Some (JStr "")
                           \/ Tree.prop node "use" = Some (JStr "optional"))))
         [JObj [("name", JStr "id"); ("type", JStr "xs:string");
                ("use", JStr "required")];
          JObj [("name", JStr "lang"); ("fixed", JStr "en")]]
         attributes.
Proof.
  eexists. split; [vm_compute; reflexivity|]. split; [reflexivity|].
  pose proof (parseAttributes_reads_each_node asWritten
    (JObj [("xs:attribute",
            JArr [JObj [("name", JStr "id"); ("type", JStr "xs:string");
                        ("use", JStr "required")];
                  JObj [("name", JStr "lang"); ("fixed", JStr "en")]])])
    (Some "xs") _ _ eq_refl eq_refl) as H.
  apply Forall2_cons_1 in H as [H1 H]. apply Forall2_cons_1 in H as [H2 _].
  specialize (H1 eq_refl). specialize (H2 eq_refl).
  destruct H1 as [H1 O1], H2 as [H2 O2].
  constructor; [split; [exact H1 | exact (O1 original emptySchema)]|].
  constructor; [split; [exact H2 | exact (O2 original emptySchema)]|].
  constructor.
Defined.

(** An [attribute] node with a child element named [use] is outside: the
    code keeps the object it finds there, and the attribute is not
    optional. *)
Example attribute_with_use_element :
  textAttributes (JObj [("name", JStr "a"); ("use", JObj [("x", JStr "1")])]) = false.
Proof. reflexivity. Qed.

(** ** Complex types *)

Definition extensionAttributes (c : XsdComplexType) : list XsdAttribute :=
  match extension c with
  | Some x => ext_attributes x
  | None => []
  end.

(** X8.  The attributes of a parsed complex type are those of its node followed
    by those of its extension, and its name is the one passed in: the
    [name] attribute of a top-level type, the name of the element for an
    inline one. *)
Theorem parseComplexType_attributes :
  forall (fuel : nat) (ct : JsVal) (p name : option string) (c : XsdComplexType),
    parseComplexType fuel ct p name = Ok (Some c) ->
    ct_name c = name
    /\ exists own : list XsdAttribute,
         parseAttributes ct p = Ok own
         /\ ct_attributes c = own ++ extensionAttributes c.
Proof.
  intros [|fuel] ct p name c; [discriminate|].
  rewrite parseComplexType_eq. cbv zeta.
  destruct (negb (Tree.truthy ct)); [discriminate|]. intros H.
  apply bind_Ok in H as (attributes & Hattrs & H).
  apply bind_Ok in H as (sequenceNode & _ & H).
  apply bind_Ok in H as (seqR & _ & H).
  apply bind_Ok in H as (choiceNode & _ & H).
  apply bind_Ok in H as (choiceR & _ & H).
  apply bind_Ok in H as (allNode & _ & H).
  apply bind_Ok in H as (allR & _ & H).
  apply bind_Ok in H as (complexContent & _ & H).
  apply bind_Ok in H as (simpleContent & _ & H).
  apply bind_Ok in H as (extR & _ & H).
  injection H as <-. split; [reflexivity|].
  exists attributes. split; [exact Hattrs | reflexivity].
Qed.

Lemma parseComplexType_named (fuel : nat) (ct : JsVal) (p name : option string)
    (c : XsdComplexType) :
  parseComplexType fuel ct p name = Ok (Some c) -> ct_name c = name.
Proof.
  destruct fuel as [|fuel]; [discriminate|].
  rewrite parseComplexType_eq. cbv zeta.
  destruct (negb (Tree.truthy ct)); [discriminate|]. intros H.
  do 10 (apply bind_Ok in H as (? & _ & H)).
  now injection H as <-.
Qed.

Definition extendedType : JsVal :=
  JObj [("name", JStr "Derived");
        ("xs:attribute", JObj [("name", JStr "id")]);
        ("xs:complexContent",
         JObj [("xs:extension",
                JObj [("base", JStr "Base");
                      ("xs:attribute", JObj [("name", JStr "lang")])])])].

Lemma parseComplexType_attributes_witness :
  exists c : XsdComplexType,
    parseComplexType 3 extendedType (Some "xs") (Some "Derived") = Ok (Some c)
    /\ map attr_name (ct_attributes c) = [Some "id"; Some "lang"]
    /\ map attr_name (extensionAttributes c) = [Some "lang"].
Proof.
  eexists. split; [vm_compute; reflexivity|].
  pose proof (parseComplexType_attributes 3 extendedType (Some "xs") (Some "Derived")
                _ eq_refl) as H.
  split; reflexivity.
Defined.

(** ** Top-level elements *)

(** The complex type that [parseElements] looks up for an element. *)
Definition typeOfElement (complexTypes : list XsdComplexType) (e : XsdElement)
    : option XsdComplexType :=
  match el_type e with
  | Some t => if Js.nonEmpty t then findComplexType t complexTypes else None
  | None => None
  end.

(** X9.  A top-level element whose type is the name of a top-level complex type
    carries, in place of the attributes declared on the element itself, the
    attributes of the first complex type of that name; any other element is
    what [parseElement] returns. *)
Theorem parseElements_copies_type_attributes :
  forall (fuel : nat) (xsd : JsVal) (p : option string)
         (complexTypes : list XsdComplexType) (nodes : list JsVal)
         (elements : list XsdElement),
    parseComplexTypes fuel xsd p = Ok complexTypes ->
    getAsArray xsd "element" p = Ok nodes ->
    parseElements fuel xsd p = Ok elements ->
    Forall (fun e =>
              exists node parsed,
                In node nodes /\ parseElement fuel node p = Ok (Some parsed)
                /\ typeOfElement complexTypes e = typeOfElement complexTypes parsed
                /\ match typeOfElement complexTypes parsed with
                   | Some complexType =>
                       e = withAttributes parsed (ct_attributes complexType)
                       /\ el_attributes e = ct_attributes complexType
                   | None => e = parsed
                   end)
           elements.
Proof.
  intros fuel xsd p cts nodes elements Hcts Hnodes. unfold parseElements.
  rewrite Hnodes, Hcts. cbn [bind]. intros H.
  apply (forOf_inv (fun acc => Forall (fun e =>
              exists node parsed,
                In node nodes /\ parseElement fuel node p = Ok (Some parsed)
                /\ typeOfElement cts e = typeOfElement cts parsed
                /\ match typeOfElement cts parsed with
                   | Some complexType =>
                       e = withAttributes parsed (ct_attributes complexType)
                       /\ el_attributes e = ct_attributes complexType
                   | None => e = parsed
                   end) acc)) in H; [exact H| |constructor].
  intros acc node acc' Hin Hacc Hbody.
  apply bind_Ok in Hbody as ([parsed|] & Hparsed & Hbody); injection Hbody as <-;
    [|exact Hacc].
  apply Forall_app. split; [exact Hacc|]. constructor; [|constructor].
  exists node, parsed. split; [exact Hin|]. split; [exact Hparsed|].
  unfold typeOfElement. destruct (el_type parsed) as [t|] eqn:Ht.
  2:{ rewrite Ht. auto. }
  destruct (Js.nonEmpty t) eqn:Hne.
  2:{ rewrite Ht, Hne. auto. }
  destruct (findComplexType t cts) as [ct|] eqn:Hfind.
  - simpl. rewrite Ht, Hne, Hfind. auto.
  - rewrite Ht, Hne, Hfind. auto.
Qed.

Definition typedRoot : JsVal :=
  JObj [("xs:complexType",
         JObj [("name", JStr "Item");
               ("xs:attribute", JObj [("name", JStr "id")])]);
        ("xs:element",
         JArr [JObj [("name", JStr "item"); ("type", JStr "Item");
                     ("xs:attribute", JObj [("name", JStr "own")])];
               JObj [("name", JStr "note"); ("type", JStr "xs:string")]])].

Lemma parseElements_copies_type_attributes_witness :
  exists elements : list XsdElement,
    parseElements 4 typedRoot (Some "xs") = Ok elements
    /\ map (fun e => map attr_name (el_attributes e)) elements = [[Some "id"]; []].
Proof.
  eexists. split; [vm_compute; reflexivity|].
  pose proof (parseElements_copies_type_attributes 4 typedRoot (Some "xs") _ _ _
                eq_refl eq_refl eq_refl) as H.
  reflexivity.
Defined.

(** ** Simple types without a restriction *)

Definition noRestriction : XsdRestriction :=
  mkRestriction "" None None None None None None None None None None None None.

(** X10.  A [simpleType] node that has no [restriction] child, as one defined by a
    list or a union, parses to a simple type whose base is the empty string
    and that has no facet; [generateSimpleTypeValidators] declares no schema
    for such a type, while an element of that type is mapped to the name of
    its schema. *)
Theorem simpleType_without_restriction :
  forall (ext : Externals) (node : JsVal) (p : option string) (name : string),
    Tree.truthy node = true ->
    getTypeValue node "restriction" p = Ok None ->
    parseSimpleType node p (Some name) = Ok (Some (mkSimpleType (Some name) noRestriction))
    /\ (forall schema naming validators,
          simpleTypeValidator ext schema naming validators
            (mkSimpleType (Some name) noRestriction) = validators)
    /\ (forall schema naming element,
          name <> "" ->
          findCustomType name schema
          = Some (CustomSimple (mkSimpleType (Some name) noRestriction)) ->
          el_complexType element = None -> el_simpleType element = None ->
          el_type element = Some name ->
          elementTypeMapping ext naming schema None element
          = mkTypeMapping (getTypeName ext (Some name) naming)
                          (getSchemaName ext (Some name) naming)).
Proof.
  intros ext node p name Htruthy Hnone. split; [|split].
  - unfold parseSimpleType. rewrite Htruthy, Hnone. cbn [negb bind].
    destruct p as [[|c s]|]; reflexivity.
  - intros schema naming validators. unfold simpleTypeValidator. cbn.
    now destruct (negb (Js.nonEmpty name)).
  - intros schema naming element Hne Hfind Hc Hs Ht.
    unfold elementTypeMapping, namedTypeMapping. rewrite Hs, Ht, Hfind.
    destruct name; [congruence | reflexivity].
Qed.

Lemma simpleType_without_restriction_witness :
  parseSimpleType
    (JObj [("name", JStr "Sizes");
           ("xs:list", JObj [("itemType", JStr "xs:integer")])])
    (Some "xs") (Some "Sizes")
  = Ok (Some (mkSimpleType (Some "Sizes") noRestriction)).
Proof.
  apply (simpleType_without_restriction asWritten
           (JObj [("name", JStr "Sizes");
                  ("xs:list", JObj [("itemType", JStr "xs:integer")])])
           (Some "xs") "Sizes"); reflexivity.
Defined.

(** ** Trees on which the parser does not throw *)

(** The tags under which the parser expects an element node. *)
Definition tagNames : list string :=
  ["element"; "complexType"; "simpleType"; "restriction"; "attribute"; "sequence";
   "choice"; "all"; "complexContent"; "simpleContent"; "extension"].

(** [key] is [tag], bare or under the prefix. *)
Definition isKey (p : option string) (tag key : string) : bool :=
  String.eqb key tag
  || (Js.truthyStr p && String.eqb key (Js.render p +:+ ":" +:+ tag)).

Definition isTag (p : option string) (key : string) : bool :=
  existsb (fun tag => isKey p tag key) tagNames.

(** No text, number or [true] stands where the parser expects an element
    node, and what [stripNamespace] is applied to is text: the value under
    a tag is a falsy primitive (the empty string of an empty element), an
    object whose [type] and [base], if any, are strings, or an array of
    such values, and so on below it. *)
Fixpoint shaped (p : option string) (v : JsVal) : bool :=
  match v with
  | JStr _ | JNum _ | JBool _ => negb (Tree.truthy v)
  | JArr items => forallb (shaped p) items
  | JObj fields =>
      Tree.textUnder "type" v && Tree.textUnder "base" v
      && forallb (fun kv => let '(k, x) := kv in if isTag p k then shaped p x else true)
                 fields
  end.

(** The [documentation] of the root's [annotation], the one place where the
    parser looks for simple types outside the declarations, holds no text
    either. *)
Definition documentationShaped (p : option string) (d : JsVal) : bool :=
  match d with
  | JStr _ | JNum _ | JBool _ => negb (Tree.truthy d)
  | JArr _ => true
  | JObj _ => shaped p d
  end.

Definition annotationShaped (p : option string) (a : JsVal) : bool :=
  match a with
  | JStr _ | JNum _ | JBool _ => negb (Tree.truthy a)
  | JArr _ => true
  | JObj fields =>
      forallb (fun kv => let '(k, d) := kv in
                         if isKey p "documentation" k then documentationShaped p d
                         else true)
              fields
  end.

Definition rootShaped (p : option string) (xsd : JsVal) : bool :=
  shaped p xsd
  && match xsd with
     | JObj fields =>
         forallb (fun kv => let '(k, a) := kv in
                            if isKey p "annotation" k then annotationShaped p a
                            else true)
                 fields
     | _ => true
     end.

Definition noThrow {A : Type} (r : result A) : Prop := r <> TypeError.

Definition notText (v : JsVal) : bool := negb (truthyPrimitive v).

Lemma shaped_notText (p : option string) (v : JsVal) :
  shaped p v = true -> notText v = true.
Proof. destruct v; auto. Qed.

Lemma bind_noThrow {A B : Type} (r : result A) (k : A -> result B) :
  noThrow r -> (forall a, r = Ok a -> noThrow (k a)) -> noThrow (bind r k).
Proof.
  unfold noThrow. intros Hr Hk. destruct r; simpl; [now apply Hk | congruence | discriminate].
Qed.

Lemma forOf_noThrow {A S : Type} (body : S -> A -> result S) (xs : list A) :
  (forall acc x, In x xs -> noThrow (body acc x)) ->
  forall acc, noThrow (forOf body xs acc).
Proof.
  induction xs as [|x xs IH]; intros Hb acc; simpl.
  - discriminate.
  - apply bind_noThrow.
    + apply Hb. now left.
    + intros acc' _. apply IH. intros a y Hy. apply Hb. now right.
Qed.

Lemma getTypeValue_noThrow (c : JsVal) (k : string) (p : option string) :
  notText c = true -> noThrow (getTypeValue c k p).
Proof.
  intros Hc. unfold getTypeValue, notText in *.
  destruct c as [s|t|b|items|fields]; cbn [truthyPrimitive] in Hc.
  1-3: apply negb_true_iff in Hc; rewrite Hc; discriminate.
  - simpl. destruct (Js.truthyStr p); discriminate.
  - simpl. destruct (Tree.assoc k fields); [discriminate|].
    destruct (Js.truthyStr p); [|discriminate]. simpl.
    destruct (Tree.assoc _ fields); discriminate.
Qed.

Lemma getAsArray_noThrow (c : JsVal) (k : string) (p : option string) :
  notText c = true -> noThrow (getAsArray c k p).
Proof.
  intros Hc. unfold getAsArray. apply bind_noThrow; [now apply getTypeValue_noThrow|].
  intros [[s|t|b|items|fs]|] _; discriminate.
Qed.

Lemma assoc_In (k : string) (fs : list (string * JsVal)) (v : JsVal) :
  Tree.assoc k fs = Some v -> In (k, v) fs.
Proof.
  induction fs as [|[k' x] fs IH]; simpl; [discriminate|].
  destruct (String.eqb_spec k k') as [->|Hne].
  - intros [= ->]. now left.
  - intros H. right. now apply IH.
Qed.

(** The value found under the tag [tag], with or without the prefix. *)
Lemma getTypeValue_found (c : JsVal) (tag : string) (p : option string) (v : JsVal) :
  getTypeValue c tag p = Ok (Some v) ->
  exists fields k, c = JObj fields /\ In (k, v) fields /\ isKey p tag k = true.
Proof.
  unfold getTypeValue. destruct c as [s|t|b|items|fields].
  1-3: destruct (negb (Tree.truthy _)); discriminate.
  - simpl. destruct (Js.truthyStr p); discriminate.
  - simpl. destruct (Tree.assoc tag fields) as [x|] eqn:Hbare.
    + intros [= <-]. exists fields, tag. split; [reflexivity|].
      split; [now apply assoc_In|]. unfold isKey. now rewrite String.eqb_refl.
    + destruct (Js.truthyStr p) eqn:Hp; [|discriminate]. simpl.
      destruct (Tree.assoc (Js.render p +:+ ":" +:+ tag) fields) as [x|] eqn:Hprefixed;
        [|discriminate].
      intros [= <-]. exists fields, (Js.render p +:+ ":" +:+ tag).
      split; [reflexivity|]. split; [now apply assoc_In|].
      unfold isKey. rewrite Hp, String.eqb_refl. apply orb_true_r.
Qed.

Lemma getTypeValue_shaped (c : JsVal) (tag : string) (p : option string) (v : JsVal) :
  In tag tagNames -> shaped p c = true ->
  getTypeValue c tag p = Ok (Some v) -> shaped p v = true.
Proof.
  intros Htag Hc Hv. apply getTypeValue_found in Hv as (fields & k & -> & Hin & Hk).
  cbn [shaped] in Hc. apply andb_prop in Hc as [_ Hc].
  rewrite forallb_forall in Hc. specialize (Hc (k, v) Hin). simpl in Hc.
  assert (Hk' : isTag p k = true).
  { unfold isTag. apply existsb_exists. now exists tag. }
  now rewrite Hk' in Hc.
Qed.

Lemma getAsArray_shaped (c : JsVal) (tag : string) (p : option string)
    (l : list JsVal) :
  In tag tagNames -> shaped p c = true ->
  getAsArray c tag p = Ok l -> forall x, In x l -> shaped p x = true.
Proof.
  intros Htag Hc. unfold getAsArray.
  destruct (getTypeValue c tag p) as [[v|]| |] eqn:Hv; simpl; try discriminate.
  - apply (getTypeValue_shaped _ _ _ _ Htag Hc) in Hv.
    destruct v as [s|t|b|items|fs]; intros [= <-] x Hx;
      try (destruct Hx as [<-|[]]; exact Hv).
    simpl in Hv. rewrite forallb_forall in Hv. now apply Hv.
  - intros [= <-] x [].
Qed.

Ltac tag := unfold tagNames; simpl; tauto.

Lemma parseFacetValue_noThrow {A : Type} (r : JsVal) (k : string)
    (parser : string -> A) (p : option string) :
  notText r = true -> noThrow (parseFacetValue r k parser p).
Proof.
  intros Hr. unfold parseFacetValue. apply bind_noThrow; [now apply getTypeValue_noThrow|].
  intros [f|] _; [destruct (Tree.truthy f)|]; discriminate.
Qed.

Lemma parseSimpleType_noThrow (st : JsVal) (p : option string) (n : option string) :
  shaped p st = true -> noThrow (parseSimpleType st p n).
Proof.
  intros Hst. unfold parseSimpleType. destruct (negb (Tree.truthy st)); [discriminate|].
  apply bind_noThrow; [apply getTypeValue_noThrow; now apply (shaped_notText p)|].
  intros found Hfound. cbv zeta.
  assert (Hr : notText match found with
                       | Some r => if Tree.truthy r then r else JObj []
                       | None => JObj []
                       end = true).
  { destruct found as [r|]; [|reflexivity].
    destruct (Tree.truthy r); [|reflexivity].
    apply (shaped_notText p). apply (getTypeValue_shaped st "restriction" p); auto. tag. }
  apply bind_noThrow.
  { unfold parseEnumerations. apply bind_noThrow; [now apply getAsArray_noThrow|].
    intros [|x l] _; discriminate. }
  intros ? _.
  repeat (apply bind_noThrow; [now apply parseFacetValue_noThrow|]; intros ? _).
  discriminate.
Qed.

Lemma parseAttributes_noThrow (parent : JsVal) (p : option string) :
  shaped p parent = true -> noThrow (parseAttributes parent p).
Proof.
  intros Hparent. unfold parseAttributes.
  apply bind_noThrow; [apply getAsArray_noThrow; now apply (shaped_notText p)|].
  intros attrArray Harr. apply forOf_noThrow. intros acc a Hin.
  assert (Ha : shaped p a = true).
  { apply (getAsArray_shaped parent "attribute" p attrArray); auto. tag. }
  apply bind_noThrow; [apply getTypeValue_noThrow; now apply (shaped_notText p)|].
  intros v Hv. apply bind_noThrow; [|intros ? _; discriminate].
  destruct v as [v|]; [|discriminate].
  destruct (Tree.truthy v); [|discriminate].
  apply parseSimpleType_noThrow. apply (getTypeValue_shaped a "simpleType" p); auto. tag.
Qed.

Lemma compositor_noThrow
    (parse : JsVal -> option (list XsdElement) ->
             result (list XsdElement * option (list XsdElement)))
    (p : option string) (c : JsVal) (tag : string) (node : option JsVal)
    (parentChoice : option (list XsdElement)) :
  In tag tagNames -> shaped p c = true ->
  getTypeValue c tag p = Ok node ->
  (forall n pc, shaped p n = true -> noThrow (parse n pc)) ->
  noThrow (compositor parse node parentChoice).
Proof.
  intros Htag Hc Hnode Hparse. unfold compositor. destruct node as [n|]; [|discriminate].
  destruct (Tree.truthy n); [|discriminate].
  apply bind_noThrow; [|intros ? _; discriminate].
  apply Hparse. now apply (getTypeValue_shaped c tag p).
Qed.

Lemma parser_noThrow (p : option string) (fuel : nat) :
  (forall el, shaped p el = true -> noThrow (parseElement fuel el p))
  /\ (forall ct n, shaped p ct = true -> noThrow (parseComplexType fuel ct p n))
  /\ (forall c pc, shaped p c = true -> noThrow (parseNestedElements fuel c pc p)).
Proof.
  induction fuel as [|fuel (IHe & IHc & IHn)].
  - repeat split; intros; discriminate.
  - split; [|split].
    + intros el Hel. rewrite parseElement_eq.
      destruct (negb (Tree.truthy el)); [discriminate|].
      apply bind_noThrow; [now apply parseAttributes_noThrow|]. intros attrs _.
      apply bind_noThrow; [apply getTypeValue_noThrow; now apply (shaped_notText p)|].
      intros complexType Hct.
      apply bind_noThrow.
      { destruct complexType as [c|]; [|discriminate].
        destruct (Tree.truthy c); [|discriminate].
        apply IHc. apply (getTypeValue_shaped el "complexType" p); auto. tag. }
      intros ct _.
      apply bind_noThrow; [apply getTypeValue_noThrow; now apply (shaped_notText p)|].
      intros simpleType Hst.
      apply bind_noThrow; [|intros ? _; discriminate].
      destruct simpleType as [s|]; [|discriminate].
      destruct (Tree.truthy s); [|discriminate].
      apply parseSimpleType_noThrow.
      apply (getTypeValue_shaped el "simpleType" p); auto. tag.
    + intros ct n Hct. rewrite parseComplexType_eq. cbv zeta.
      destruct (negb (Tree.truthy ct)); [discriminate|].
      assert (Hnt : notText ct = true) by now apply (shaped_notText p).
      apply bind_noThrow; [now apply parseAttributes_noThrow|]. intros attrs _.
      apply bind_noThrow; [now apply getTypeValue_noThrow|]. intros sequenceNode Hseq.
      apply bind_noThrow;
        [apply (compositor_noThrow _ p ct "sequence"); auto; tag|].
      intros seqR _.
      apply bind_noThrow; [now apply getTypeValue_noThrow|]. intros choiceNode Hch.
      apply bind_noThrow;
        [apply (compositor_noThrow _ p ct "choice"); auto; tag|].
      intros choiceR _.
      apply bind_noThrow; [now apply getTypeValue_noThrow|]. intros allNode Hall.
      apply bind_noThrow;
        [apply (compositor_noThrow _ p ct "all"); auto; tag|].
      intros allR _.
      apply bind_noThrow; [now apply getTypeValue_noThrow|]. intros complexContent Hcc.
      apply bind_noThrow; [now apply getTypeValue_noThrow|]. intros simpleContent Hsc.
      apply bind_noThrow; [|intros ? _; discriminate].
      assert (Hw : forall w,
                (if Tree.truthyOpt complexContent then complexContent
                 else if Tree.truthyOpt simpleContent then simpleContent else None)
                = Some w -> shaped p w = true).
      { intros w. destruct (Tree.truthyOpt complexContent).
        - intros ->. apply (getTypeValue_shaped ct "complexContent" p); auto. tag.
        - destruct (Tree.truthyOpt simpleContent); [|discriminate].
          intros ->. apply (getTypeValue_shaped ct "simpleContent" p); auto. tag. }
      destruct (if Tree.truthyOpt complexContent then complexContent
                else if Tree.truthyOpt simpleContent then simpleContent else None)
        as [w|]; [|discriminate].
      specialize (Hw w eq_refl).
      apply bind_noThrow; [apply getTypeValue_noThrow; now apply (shaped_notText p)|].
      intros ext Hext.
      destruct ext as [e|]; [|discriminate].
      destruct (Tree.truthy e); [|discriminate].
      assert (He : shaped p e = true).
      { apply (getTypeValue_shaped w "extension" p); auto. tag. }
      apply bind_noThrow; [now apply parseAttributes_noThrow|]. intros extAttributes _.
      apply bind_noThrow; [apply getTypeValue_noThrow; now apply (shaped_notText p)|].
      intros extSequence Hes.
      apply bind_noThrow; [|intros ? _; discriminate].
      apply (compositor_noThrow _ p e "sequence"); auto. tag.
    + intros c pc Hc. rewrite parseNestedElements_eq.
      assert (Hnt : notText c = true) by now apply (shaped_notText p).
      apply bind_noThrow; [now apply getAsArray_noThrow|]. intros elementArray Hel.
      apply bind_noThrow.
      { apply forOf_noThrow. intros acc el Hin.
        apply bind_noThrow; [|intros ? _; discriminate].
        apply IHe. apply (getAsArray_shaped c "element" p elementArray); auto. tag. }
      intros elements0 _.
      apply bind_noThrow; [now apply getAsArray_noThrow|]. intros choiceArray Hch.
      apply forOf_noThrow. intros acc ch Hin. cbv zeta.
      apply bind_noThrow; [|intros ? _; discriminate].
      apply IHn. apply (getAsArray_shaped c "choice" p choiceArray); auto. tag.
Qed.

Lemma simpleTypes_noThrow (p : option string) (nodes : list JsVal) :
  (forall x, In x nodes -> shaped p x = true) ->
  noThrow (forOf (fun types st =>
                    let* simpleType := parseSimpleType st p (Tree.attr st "name") in
                    Ok (pushIf simpleType types)) nodes []).
Proof.
  intros Hnodes. apply forOf_noThrow. intros acc st Hin.
  apply bind_noThrow; [apply parseSimpleType_noThrow; now apply Hnodes|].
  intros ? _. discriminate.
Qed.

Lemma assembleSchema_noThrow (fuel : nat) (xsd : JsVal) (p : option string) :
  rootShaped p xsd = true -> noThrow (assembleSchema fuel xsd p).
Proof.
  intros Hroot. apply andb_prop in Hroot as [Hxsd Hann].
  assert (Hnt : notText xsd = true) by now apply (shaped_notText p).
  destruct (parser_noThrow p fuel) as (He & Hc & _).
  assert (Hcts : noThrow (parseComplexTypes fuel xsd p)).
  { unfold parseComplexTypes. apply bind_noThrow; [now apply getAsArray_noThrow|].
    intros typeArray Harr. apply forOf_noThrow. intros acc ct Hin.
    apply bind_noThrow; [|intros ? _; discriminate].
    apply Hc. apply (getAsArray_shaped xsd "complexType" p typeArray); auto. tag. }
  unfold assembleSchema.
  apply bind_noThrow.
  { unfold parseElements. apply bind_noThrow; [now apply getAsArray_noThrow|].
    intros elementArray Harr. apply bind_noThrow; [exact Hcts|]. intros cts _.
    apply forOf_noThrow. intros acc el Hin.
    apply bind_noThrow.
    - apply He. apply (getAsArray_shaped xsd "element" p elementArray); auto. tag.
    - intros [e|] _; discriminate. }
  intros elements _. apply bind_noThrow; [exact Hcts|]. intros cts _.
  apply bind_noThrow.
  { unfold parseSimpleTypes. apply bind_noThrow; [now apply getAsArray_noThrow|].
    intros typeArray Harr. apply simpleTypes_noThrow.
    apply (getAsArray_shaped xsd "simpleType" p typeArray); auto. tag. }
  intros sts _. apply bind_noThrow; [now apply getTypeValue_noThrow|].
  intros annotation Hannotation.
  apply bind_noThrow; [|intros ? _; discriminate].
  destruct annotation as [a|]; [|discriminate].
  destruct (Tree.truthy a) eqn:Ha; [|discriminate].
  apply getTypeValue_found in Hannotation as (fields & k & -> & Hin & Hk).
  rewrite forallb_forall in Hann. specialize (Hann (k, a) Hin). simpl in Hann.
  rewrite Hk in Hann.
  unfold parseSimpleTypesFromAnnotation.
  assert (Hant : notText a = true) by (destruct a; auto).
  apply bind_noThrow; [now apply getTypeValue_noThrow|].
  intros [d|] Hd; [|discriminate].
  destruct (Tree.truthy d) eqn:Htd; [|discriminate].
  apply getTypeValue_found in Hd as (afields & k' & -> & Hin' & Hk').
  simpl in Hann. rewrite forallb_forall in Hann. specialize (Hann (k', d) Hin').
  simpl in Hann. rewrite Hk' in Hann.
  destruct d as [s|t|b|items|dfields].
  1-3: cbn [documentationShaped] in Hann; rewrite Htd in Hann; discriminate.
  - unfold getAsArray, getTypeValue. simpl. destruct (Js.truthyStr p); simpl; discriminate.
  - apply bind_noThrow; [now apply getAsArray_noThrow|].
    intros arr Harr. apply simpleTypes_noThrow.
    apply (getAsArray_shaped (JObj dfields) "simpleType" p arr); auto. tag.
Qed.

(** The prefix that [parseXsd] passes on: [xsdPrefix || undefined]. *)
Definition passedPrefix (xsd : JsVal) : option string :=
  let detected := xsdPrefix (extractNamespaces xsd) in
  if Js.truthyStr detected then detected else None.


(** The schema of the example that throws, its documentation given as an
    attribute-bearing element rather than as bare text. *)
Definition documentedByElement : JsVal :=
  JObj [("xs:schema",
         JObj [("xmlns:xs", JStr XSD_NAMESPACE_URI);
               ("xs:annotation",
                JObj [("xs:documentation",
                       JObj [("xml:lang", JStr "en");
                             ("_text", JStr "Order schema, version 2")])]);
               ("xs:element", plainElement "order" "xs:string")])].


(** Trees that are left out: an element whose [type] is given by a child
    element, on which [stripNamespace] throws, and a [documentation] whose
    text is a year, which arrives as a number. *)
Example trees_left_out :
  rootShaped (Some "xs")
    (JObj [("xs:element",
            JObj [("type", JObj [("x", JStr "")]); ("name", JStr "a")])]) = false
  /\ rootShaped (Some "xs")
       (JObj [("xs:annotation", JObj [("xs:documentation", JNum "2024")])]) = false
  /\ snd (parseXsd
            (JObj [("xs:schema",
                    JObj [("xmlns:xs", JStr XSD_NAMESPACE_URI);
                          ("xs:annotation",
                           JObj [("xs:documentation", JNum "2024")])])]))
     = TypeError.
Proof. repeat split; vm_compute; reflexivity. Qed.

(** ** What the sorts keep *)

(** X12.  Both sorts return every named type once: with distinct names the result
    is a rearrangement of the named types of the schema; without that, no
    two types of the result share a name and every name of the schema is
    borne by a type of the result. *)
Theorem sorts_rearrange_named_types :
  (forall (schema : XsdSchema) (naming : NamingConvention)
          (st : SortState XsdSimpleType),
      topologicalSortSimpleTypes schema naming = Ok st ->
      NoDup (flat_map (nameList st_name) (sorted st))
      /\ (forall t n, In t (simpleTypes schema) -> named st_name t n ->
            exists t', In t' (sorted st) /\ named st_name t' n)
      /\ (distinctNames st_name (simpleTypes schema) ->
          Permutation (sorted st) (List.filter (isNamed st_name) (simpleTypes schema))))
  /\ (forall (ext : Externals) (schema : XsdSchema) (naming : NamingConvention)
             (st : SortState XsdComplexType),
        topologicalSortComplexTypes ext schema naming = Ok st ->
        NoDup (flat_map (nameList ct_name) (sorted st))
        /\ (forall t n, In t (complexTypes schema) -> named ct_name t n ->
              exists t', In t' (sorted st) /\ named ct_name t' n)
        /\ (distinctNames ct_name (complexTypes schema) ->
            Permutation (sorted st)
              (List.filter (isNamed ct_name) (complexTypes schema)))).
Proof.
  split.
  - intros schema naming st Hsort. unfold topologicalSortSimpleTypes in Hsort.
    destruct (topologicalSort_settled st_name simpleDependencies (fun _ => false)
                _ st Hsort) as [Hnodup Hall].
    split; [exact Hnodup|]. split.
    + intros t n Ht Hn. specialize (Hall t n Ht Hn).
      apply in_flat_map in Hall as (t' & Ht' & Hn'). exists t'. split; [exact Ht'|].
      now apply nameList_named.
    + intros Hdistinct.
      now apply (topologicalSort_permutation st_name simpleDependencies
                   (fun _ => false) _ st Hsort).
  - intros ext schema naming st Hsort. unfold topologicalSortComplexTypes in Hsort.
    destruct (topologicalSort_settled ct_name (complexDependencies ext schema naming)
                (mapComplexTypeThrows naming) _ st Hsort) as [Hnodup Hall].
    split; [exact Hnodup|]. split.
    + intros t n Ht Hn. specialize (Hall t n Ht Hn).
      apply in_flat_map in Hall as (t' & Ht' & Hn'). exists t'. split; [exact Ht'|].
      now apply nameList_named.
    + intros Hdistinct.
      now apply (topologicalSort_permutation ct_name
                   (complexDependencies ext schema naming)
                   (mapComplexTypeThrows naming) _ st Hsort).
Qed.

Definition stringType (name base : string) : XsdSimpleType :=
  mkSimpleType (Some name)
    (mkRestriction base None None None None None None None None None None None None).

Lemma sorts_rearrange_named_types_witness :
  exists st : SortState XsdSimpleType,
    topologicalSortSimpleTypes
      (mkSchema None None [] [] [stringType "Code" "Name"; stringType "Name" "string"])
      original = Ok st
    /\ Permutation (sorted st)
         (List.filter (isNamed st_name)
            [stringType "Code" "Name"; stringType "Name" "string"]).
Proof.
  eexists. split; [vm_compute; reflexivity|].
  match goal with
  | |- Permutation (sorted ?st) _ =>
      apply (proj2 (proj2 (proj1 sorts_rearrange_named_types
               (mkSchema None None [] []
                  [stringType "Code" "Name"; stringType "Name" "string"])
               original st eq_refl)))
  end.
  apply (bool_decide_unpack _). vm_compute. reflexivity.
Defined.

(** X13.  The simple types come out base first: when the names are distinct and
    no circular dependency is logged, a simple type that restricts another
    simple type of the schema comes after it. *)
Theorem simpleTypes_sorted_after_base :
  forall (schema : XsdSchema) (naming : NamingConvention)
         (st : SortState XsdSimpleType) (A B : XsdSimpleType) (a b : string),
    topologicalSortSimpleTypes schema naming = Ok st ->
    warnings st = [] ->
    distinctNames st_name (simpleTypes schema) ->
    In A (simpleTypes schema) -> In B (simpleTypes schema) ->
    named st_name A a -> named st_name B b ->
    base (restriction A) = b ->
    exists i j, sorted st !! i = Some B /\ sorted st !! j = Some A /\ i < j.
Proof.
  intros schema naming st A B a b Hsort Hw Hnd HA HB Ha Hb Hbase.
  apply (topologicalSort_dependency_first st_name simpleDependencies
           (fun _ => false) (simpleTypes schema) st A B a b); auto.
  - now apply distinct_names_determine.
  - unfold simpleDependencies. rewrite Hbase. destruct Hb as [_ ->]. now left.
Qed.

Lemma simpleTypes_sorted_after_base_witness :
  exists st : SortState XsdSimpleType,
    topologicalSortSimpleTypes
      (mkSchema None None [] [] [stringType "Code" "Name"; stringType "Name" "string"])
      original = Ok st
    /\ sorted st = [stringType "Name" "string"; stringType "Code" "Name"]
    /\ exists i j, sorted st !! i = Some (stringType "Name" "string")
                   /\ sorted st !! j = Some (stringType "Code" "Name") /\ i < j.
Proof.
  eexists. split; [vm_compute; reflexivity|]. split; [reflexivity|].
  match goal with
  | |- exists i j, sorted ?st !! i = _ /\ _ =>
      apply (simpleTypes_sorted_after_base
               (mkSchema None None [] []
                  [stringType "Code" "Name"; stringType "Name" "string"])
               original st (stringType "Code" "Name") (stringType "Name" "string")
               "Code" "Name")
  end.
  - vm_compute. reflexivity.
  - reflexivity.
  - apply (bool_decide_unpack _). vm_compute. reflexivity.
  - simpl. auto.
  - simpl. auto.
  - split; reflexivity.
  - split; reflexivity.
  - reflexivity.
Defined.

(** X14.  When no simple type restricts a simple type of the schema, the sort
    leaves the named simple types in the order of their declaration and logs
    nothing. *)
Theorem simpleTypes_keep_declaration_order :
  forall (schema : XsdSchema) (naming : NamingConvention),
    distinctNames st_name (simpleTypes schema) ->
    (forall A B, In A (simpleTypes schema) -> In B (simpleTypes schema) ->
       ~ named st_name B (base (restriction A))) ->
    exists st, topologicalSortSimpleTypes schema naming = Ok st
      /\ sorted st = List.filter (isNamed st_name) (simpleTypes schema)
      /\ warnings st = [].
Proof.
  intros schema naming Hdistinct Hbase. unfold topologicalSortSimpleTypes.
  apply (topologicalSort_independent st_name simpleDependencies (fun _ => false));
    [exact Hdistinct | now intros t n _ _ |].
  intros A d HA Hd. apply unknown_name. intros B HB.
  unfold simpleDependencies in Hd.
  destruct (Js.nonEmpty (base (restriction A))); [|destruct Hd].
  destruct Hd as [<-|[]]. now apply Hbase.
Qed.

Lemma simpleTypes_keep_declaration_order_witness :
  exists st,
    topologicalSortSimpleTypes
      (mkSchema None None [] [] [stringType "Code" "token"; stringType "Name" "string"])
      original = Ok st
    /\ sorted st = [stringType "Code" "token"; stringType "Name" "string"]
    /\ warnings st = [].
Proof.
  apply (simpleTypes_keep_declaration_order
           (mkSchema None None [] []
              [stringType "Code" "token"; stringType "Name" "string"]) original).
  - apply (bool_decide_unpack _). vm_compute. reflexivity.
  - intros A B [<-|[<-|[]]] [<-|[<-|[]]] [H _]; discriminate H.
Defined.

(** ** The element validators *)

Section ElementValidators.

Variable ext : Externals.
Variable schema : XsdSchema.
Variable naming : NamingConvention.

Let process := processElement ext schema naming.

(** The state has grown: names have been added, and at most one line for
    each of them. *)
Definition grown (st st' : ElementValidators) : Prop :=
  processedElements st ⊆ processedElements st'
  /\ exists added,
       validators st' = validators st ++ added
       /\ List.length added + size (processedElements st)
          <= size (processedElements st').

Lemma grown_refl (st : ElementValidators) : grown st st.
Proof. split; [reflexivity|]. exists []. rewrite app_nil_r. simpl. auto. Qed.

Lemma grown_trans (a b c : ElementValidators) : grown a b -> grown b c -> grown a c.
Proof.
  intros [Hab (l1 & Hl1 & Hs1)] [Hbc (l2 & Hl2 & Hs2)]. split; [set_solver|].
  exists (l1 ++ l2). rewrite Hl2, Hl1, <- app_assoc, length_app. split; [reflexivity|lia].
Qed.

Lemma grown_add (st : ElementValidators) (name : string) (lines : list string) :
  name ∉ processedElements st -> List.length lines <= 1 ->
  grown st (mkElementValidators (validators st ++ lines)
              ({[name]} ∪ processedElements st)).
Proof.
  intros Hfresh Hlen. split; [simpl; set_solver|]. exists lines. simpl.
  split; [reflexivity|]. rewrite size_union by set_solver. rewrite size_singleton. lia.
Qed.

Lemma processElement_eq (element : XsdElement) (st : ElementValidators) :
  process element st =
  match el_name element with
  | None => st
  | Some name =>
      if negb (Js.nonEmpty name) || bool_decide (name ∈ processedElements st) then st
      else
        let schemaName := getSchemaName ext (Some name) naming in
        let added := {[name]} ∪ processedElements st in
        match el_complexType element with
        | Some complexType =>
            let mapped := mapComplexType ext naming schema complexType in
            processElements ext schema naming (content complexType)
              (mkElementValidators
                 (validators st ++ [exportConst schemaName (zodObject mapped)])
                 added)
        | None =>
            match el_simpleType element with
            | Some simpleType =>
                if present (enumerations (restriction simpleType)) then
                  mkElementValidators
                    (validators st
                     ++ [exportConst schemaName
                           (zodValidator (mapEnumeration simpleType naming))])
                    added
                else if Js.nonEmpty (base (restriction simpleType)) then
                  let mapped :=
                    applyFacets ext (mapPrimitiveType (base (restriction simpleType)))
                      (restriction simpleType) naming in
                  mkElementValidators
                    (validators st ++ [exportConst schemaName (zodValidator mapped)])
                    added
                else mkElementValidators (validators st) added
            | None =>
                match el_type element with
                | Some type =>
                    if Js.nonEmpty type then
                      let primitive :=
                        mkElementValidators
                          (validators st
                           ++ [exportConst schemaName
                                 (zodValidator (mapPrimitiveType type))])
                          added in
                      match findCustomType type schema with
                      | Some customType =>
                          if Js.truthyStr (customName customType) then
                            let customSchemaName :=
                              getSchemaName ext (customName customType) naming in
                            if String.eqb schemaName customSchemaName
                            then mkElementValidators (validators st) added
                            else mkElementValidators
                                   (validators st
                                    ++ [exportConst schemaName customSchemaName])
                                   added
                          else primitive
                      | None => primitive
                      end
                    else st
                | None => st
                end
            end
        end
  end.
Proof. destruct element. reflexivity. Qed.

Lemma processElements_grown (l : list XsdElement) :
  (forall e st, In e l -> grown st (process e st)) ->
  forall st, grown st (processElements ext schema naming l st).
Proof.
  induction l as [|e l IH]; intros He st; [apply grown_refl|].
  unfold processElements. simpl. eapply grown_trans.
  - apply (He e st). now left.
  - apply IH. intros e' st' Hin. apply He. now right.
Qed.

Lemma processElement_grown (n : nat) :
  forall element, contentSize element < n -> forall st, grown st (process element st).
Proof.
  induction n as [|n IH]; intros element Hsize st; [lia|].
  rewrite processElement_eq. destruct (el_name element) as [name|]; [|apply grown_refl].
  destruct (negb (Js.nonEmpty name)); cbn [orb]; [apply grown_refl|].
  destruct (bool_decide (name ∈ processedElements st)) eqn:Hseen; [apply grown_refl|].
  apply bool_decide_eq_false in Hseen. cbv zeta.
  assert (Hno : grown st (mkElementValidators (validators st)
                            ({[name]} ∪ processedElements st))).
  { pose proof (grown_add st name [] Hseen) as H. rewrite app_nil_r in H.
    apply H. simpl. lia. }
  assert (Hone : forall line,
            grown st (mkElementValidators (validators st ++ [line])
                        ({[name]} ∪ processedElements st))).
  { intros line. now apply grown_add. }
  destruct (el_complexType element) as [complexType|] eqn:Hct.
  - eapply grown_trans; [apply Hone|].
    apply processElements_grown. intros e st' Hin. apply IH.
    destruct element as [nm ty c s a mi ma r rf nl]. simpl in Hct. subst c.
    simpl in Hsize. rewrite contentSizeOfType_eq in Hsize.
    apply contentSize_in in Hin. lia.
  - destruct (el_simpleType element) as [simpleType|].
    + destruct (present (enumerations (restriction simpleType))); [apply Hone|].
      destruct (Js.nonEmpty (base (restriction simpleType))); [apply Hone | exact Hno].
    + destruct (el_type element) as [type|]; [|apply grown_refl].
      destruct (Js.nonEmpty type); [|apply grown_refl].
      destruct (findCustomType type schema) as [customType|]; [|apply Hone].
      destruct (Js.truthyStr (customName customType)); [|apply Hone].
      match goal with |- context [String.eqb ?a ?b] => destruct (String.eqb a b) end;
        [exact Hno | apply Hone].
Qed.

Lemma processElement_again (element : XsdElement) (st : ElementValidators) :
  process element (process element st) = process element st.
Proof.
  pose proof (processElement_grown (S (contentSize element)) element
                (Nat.lt_succ_diag_r _)) as Hgrown.
  assert (Hseen : forall name st', el_name element = Some name ->
            name ∈ processedElements st' -> process element st' = st').
  { intros name st' Hname Hin. rewrite processElement_eq, Hname.
    rewrite (bool_decide_eq_true_2 _ Hin). now rewrite orb_true_r. }
  rewrite (processElement_eq element st).
  destruct (el_name element) as [name|] eqn:Hname.
  2:{ rewrite processElement_eq, Hname. reflexivity. }
  destruct (negb (Js.nonEmpty name)) eqn:Hempty; cbn [orb].
  { rewrite processElement_eq, Hname, Hempty. reflexivity. }
  destruct (bool_decide (name ∈ processedElements st)) eqn:Hin.
  { rewrite processElement_eq, Hname, Hempty, Hin. reflexivity. }
  cbv zeta.
  destruct (el_complexType element) as [complexType|] eqn:Hct.
  - apply (Hseen name); [reflexivity|].
    match goal with
    | |- name ∈ processedElements (processElements _ _ _ ?l ?s) =>
        assert (Hg : grown s (processElements ext schema naming l s))
    end.
    { apply processElements_grown. intros e st' _.
      apply (processElement_grown (S (contentSize e))). lia. }
    destruct Hg as [Hsub _]. apply Hsub. simpl. set_solver.
  - assert (Hadded : forall lines,
              process element (mkElementValidators lines ({[name]} ∪ processedElements st))
              = mkElementValidators lines ({[name]} ∪ processedElements st)).
    { intros lines. apply (Hseen name); [reflexivity|]. simpl. set_solver. }
    destruct (el_simpleType element) as [simpleType|] eqn:Hst.
    + destruct (present (enumerations (restriction simpleType))); [apply Hadded|].
      destruct (Js.nonEmpty (base (restriction simpleType))); apply Hadded.
    + destruct (el_type element) as [type|] eqn:Hty.
      2:{ rewrite processElement_eq, Hname, Hempty, Hin, Hct, Hst, Hty. reflexivity. }
      destruct (Js.nonEmpty type) eqn:Htype.
      2:{ rewrite processElement_eq, Hname, Hempty, Hin, Hct, Hst, Hty, Htype.
          reflexivity. }
      destruct (findCustomType type schema) as [customType|]; [|apply Hadded].
      destruct (Js.truthyStr (customName customType)); [|apply Hadded].
      match goal with |- context [String.eqb ?a ?b] => destruct (String.eqb a b) end;
        apply Hadded.
Qed.

Lemma elementValidators_grown :
  grown (mkElementValidators [] ∅) (elementValidators ext schema naming).
Proof.
  assert (Hlist : forall l st, grown st (processElements ext schema naming l st)).
  { intros l st. apply processElements_grown. intros e st' _.
    apply (processElement_grown (S (contentSize e))). lia. }
  assert (Htypes : forall cts st,
            grown st (fold_left
                        (fun s complexType =>
                           processElements ext schema naming (content complexType) s)
                        cts st)).
  { induction cts as [|ct cts IH]; intros st; [apply grown_refl|].
    simpl. eapply grown_trans; [apply (Hlist (content ct) st) | apply IH]. }
  unfold elementValidators.
  apply (grown_trans _ (processElements ext schema naming (elements schema)
                          (mkElementValidators [] ∅))).
  - apply Hlist.
  - apply Htypes.
Qed.

End ElementValidators.

(** X15.  [generateElementValidators] declares a schema at most once for a name:
    whatever the schema, there are no more lines than names processed,
    and processing an element for the second time changes nothing.  An
    element of a declared type whose schema name is that of the element
    itself gets no line. *)
Theorem elementValidators_process_a_name_once :
  forall (ext : Externals) (schema : XsdSchema) (naming : NamingConvention),
    List.length (validators (elementValidators ext schema naming))
    <= size (processedElements (elementValidators ext schema naming))
    /\ (forall element st,
          processElement ext schema naming element
            (processElement ext schema naming element st)
          = processElement ext schema naming element st)
    /\ (forall element st name type customType,
          el_name element = Some name -> name <> "" ->
          name ∉ processedElements st ->
          el_complexType element = None -> el_simpleType element = None ->
          el_type element = Some type -> type <> "" ->
          findCustomType type schema = Some customType ->
          Js.truthyStr (customName customType) = true ->
          getSchemaName ext (customName customType) naming
          = getSchemaName ext (Some name) naming ->
          processElement ext schema naming element st
          = mkElementValidators (validators st) ({[name]} ∪ processedElements st)).
Proof.
  intros ext schema naming. split; [|split].
  - destruct (elementValidators_grown ext schema naming) as [_ (added & Hlines & Hsize)].
    rewrite Hlines. cbn [validators processedElements app] in *.
    rewrite size_empty in Hsize. lia.
  - intros element st. apply processElement_again.
  - intros element st name type customType Hname Hne Hfresh Hct Hst Hty Htype Hfind
      Htruthy Hsame.
    rewrite processElement_eq, Hname, Hct, Hst, Hty, Hfind, Htruthy, Hsame.
    cbv zeta. rewrite String.eqb_refl.
    rewrite (bool_decide_eq_false_2 _ Hfresh).
    destruct name; [congruence|]. destruct type; [congruence|]. reflexivity.
Qed.

Definition itemType : XsdComplexType :=
  mkComplexType (Some "Item") (Some [typedElement "id" "string"]) None None []
    None [typedElement "id" "string"].

Lemma elementValidators_process_a_name_once_witness :
  processElement asWritten (mkSchema None None [] [itemType] []) original
    (typedElement "Item" "Item") (mkElementValidators [] ∅)
  = mkElementValidators [] ({["Item"]} ∪ ∅).
Proof.
  apply (proj2 (proj2 (elementValidators_process_a_name_once asWritten
           (mkSchema None None [] [itemType] []) original))
           (typedElement "Item" "Item") (mkElementValidators [] ∅)
           "Item" "Item" (CustomComplex itemType)); try reflexivity.
  - discriminate.
  - apply not_elem_of_empty.
  - discriminate.
Defined.

(** ** The complex-type validators *)

(** The line that [generateComplexTypeValidators] writes for a named
    complex type. *)
Definition complexTypeLine (ext : Externals) (schema : XsdSchema)
    (naming : NamingConvention) (complexType : XsdComplexType) : string :=
  let mapped := mapComplexType ext naming schema complexType in
  exportConst (schemaName mapped) (zodObject mapped).

Lemma complexTypeValidators_lines (ext : Externals) (schema : XsdSchema)
    (naming : NamingConvention) (l : list XsdComplexType) :
  forall acc,
    fold_left (complexTypeValidator ext schema naming) l acc
    = acc ++ map (complexTypeLine ext schema naming)
               (List.filter (fun t => Js.truthyStr (ct_name t)) l).
Proof.
  induction l as [|t l IH]; intros acc; simpl; [now rewrite app_nil_r|].
  rewrite IH. unfold complexTypeValidator, complexTypeLine.
  destruct (Js.truthyStr (ct_name t)); simpl; [|reflexivity].
  now rewrite <- app_assoc.
Qed.

(** *** When the generator returns *)

Lemma fold_throws_false {A S : Type} (step : A -> S -> S) (throws : A -> S -> bool)
    (l : list A) :
  (forall a s, In a l -> throws a s = false) ->
  forall s,
    snd (fold_left (fun acc a => (step a (fst acc), snd acc || throws a (fst acc)))
           l (s, false)) = false.
Proof.
  induction l as [|a l IH]; intros Hl s; [reflexivity|]. cbn [fold_left fst snd orb].
  rewrite (Hl a s) by now left. apply IH. intros a' s' Hin. apply Hl. now right.
Qed.

Lemma processElementThrows_eq (ext : Externals) (schema : XsdSchema)
    (naming : NamingConvention) (element : XsdElement) (st : ElementValidators) :
  processElementThrows ext schema naming element st =
  match el_name element with
  | None => false
  | Some name =>
      if negb (Js.nonEmpty name) || bool_decide (name ∈ processedElements st) then false
      else
        match el_complexType element with
        | Some complexType =>
            mapComplexTypeThrows naming complexType
            || processElementsThrow ext schema naming (content complexType)
                 (mkElementValidators
                    (validators st
                     ++ [exportConst (getSchemaName ext (Some name) naming)
                           (zodObject (mapComplexType ext naming schema complexType))])
                    ({[name]} ∪ processedElements st))
        | None => false
        end
  end.
Proof. destruct element. reflexivity. Qed.

(** Under the [original] convention no element makes [processElement]
    throw. *)
Lemma processElement_returns_under_original (ext : Externals) (schema : XsdSchema)
    (n : nat) :
  forall element, contentSize element < n ->
    forall st, processElementThrows ext schema original element st = false.
Proof.
  induction n as [|n IH]; intros element Hsize st; [lia|].
  rewrite processElementThrows_eq. destruct (el_name element) as [name|]; [|reflexivity].
  destruct (negb (Js.nonEmpty name) || bool_decide (name ∈ processedElements st));
    [reflexivity|].
  destruct element as [nm ty [ct|] sty at_ mi ma ir rf nl]; [|reflexivity].
  cbn [el_complexType]. rewrite mapComplexType_returns_under_original. cbn [orb].
  unfold processElementsThrow.
  apply (fold_throws_false (fun e s => processElement ext schema original e s)
           (fun e s => processElementThrows ext schema original e s)).
  intros e s Hin. apply IH. apply contentSize_in in Hin.
  cbn [contentSize el_complexType] in Hsize. rewrite contentSizeOfType_eq in Hsize. lia.
Qed.

Lemma generators_return_under_original (ext : Externals) (schema : XsdSchema) :
  (forall l, generateComplexTypeValidatorsThrows original l = false)
  /\ generateElementValidatorsThrows ext schema original = false.
Proof.
  assert (Hlist : forall l st, processElementsThrow ext schema original l st = false).
  { intros l st. unfold processElementsThrow.
    apply (fold_throws_false (fun e s => processElement ext schema original e s)
             (fun e s => processElementThrows ext schema original e s)).
    intros e s _.
    apply (processElement_returns_under_original ext schema (S (contentSize e))). lia. }
  split.
  - intros l. unfold generateComplexTypeValidatorsThrows.
    apply not_true_is_false. intros H. apply existsb_exists in H as (t & _ & Ht).
    rewrite mapComplexType_returns_under_original, andb_false_r in Ht. discriminate.
  - unfold generateElementValidatorsThrows. rewrite Hlist. cbn [orb].
    apply (fold_throws_false
             (fun t s => processElements ext schema original (content t) s)
             (fun t s => processElementsThrow ext schema original (content t) s)).
    intros t s _. apply Hlist.
Qed.



(** Under [camel], [pascal] and [kebab] the generator throws on a schema
    whose complex type, or whose element with an inline complex type, holds
    an element that only refers to another. *)
Example generateValidators_throws_without_a_name :
  map (generateValidators asWritten (mkSchema None None [] [referringType] []))
      [camel; pascal; kebab]
  = [TypeError; TypeError; TypeError]
  /\ map (generateValidators asWritten
            (mkSchema None None
               [mkElement (Some "order") None (Some referringType) None [] None None
                  (Some false) None (Some false)] [] []))
         [camel; pascal; kebab]
     = [TypeError; TypeError; TypeError].
Proof. split; vm_compute; reflexivity. Qed.

(** ** Cardinality, from the node to the field *)

(** What [parseElement] reads off the attributes of an element node. *)
Lemma parseElement_fields (fuel : nat) (el : JsVal) (p : option string)
    (e : XsdElement) :
  parseElement fuel el p = Ok (Some e) ->
  el_name e = Tree.attr el "name"
  /\ el_type e = match Tree.attr el "type" with
                 | Some t => if Js.nonEmpty t then Some (stripNamespace t) else None
                 | None => None
                 end
  /\ minOccurs e = optMap parseIntOf (Tree.prop el "minOccurs")
  /\ maxOccurs e = parseMaxOccurs el
  /\ ref e = Tree.attr el "ref".
Proof.
  destruct fuel as [|fuel]; [discriminate|]. rewrite parseElement_eq.
  destruct (negb (Tree.truthy el)); [discriminate|]. intros H.
  apply bind_Ok in H as (attrs & _ & H).
  apply bind_Ok in H as (complexType & _ & H).
  apply bind_Ok in H as (ct & _ & H).
  apply bind_Ok in H as (simpleType & _ & H).
  apply bind_Ok in H as (st & _ & [= <-]).
  repeat split.
Qed.

(** X17.  The field of a parsed element is optional exactly when what its node
    holds under [minOccurs] reads as the integer 0, and an array exactly
    when what it holds under [maxOccurs] is the text "unbounded" or reads as
    an integer above 1.  What is read is the text of the value, as
    [parseInt] takes it: the attribute, or whatever child elements of that
    name have put there. *)
Theorem parsed_element_cardinality :
  forall (ext : Externals) (naming : NamingConvention) (schema : XsdSchema)
         (fuel : nat) (el : JsVal) (p : option string) (e : XsdElement),
    parseElement fuel el p = Ok (Some e) ->
    (me_optional (mapElement ext naming schema e) = true
     <-> exists v, Tree.prop el "minOccurs" = Some v
                   /\ ParseInt.parseInt (renderVal v) = Int 0)
    /\ (isArray (mapElement ext naming schema e) = true
        <-> exists v, Tree.prop el "maxOccurs" = Some v
                      /\ (v = JStr "unbounded"
                          \/ exists z, ParseInt.parseInt (renderVal v) = Int z
                                       /\ (1 < z)%Z)).
Proof.
  intros ext naming schema fuel el p e Hparse.
  destruct (parseElement_fields fuel el p e Hparse) as (_ & _ & Hmin & Hmax & _).
  destruct e as [nm ty c s a mi ma r rf nl]. simpl in Hmin, Hmax. subst mi ma.
  cbn [mapElement me_optional isArray minOccurs maxOccurs]. split.
  - destruct (Tree.prop el "minOccurs") as [v|]; simpl.
    + unfold parseIntOf. destruct (ParseInt.parseInt (renderVal v)) as [|z] eqn:Hv.
      * split; [discriminate|]. intros (v' & [= <-] & H). congruence.
      * split.
        -- intros H. apply Z.eqb_eq in H. subst z. now exists v.
        -- intros (v' & [= <-] & H). rewrite Hv in H. injection H as ->. reflexivity.
    + split; [discriminate|]. intros (v & [=] & _).
  - unfold parseMaxOccurs, isArrayOf.
    destruct (Tree.prop el "maxOccurs") as [v|].
    2:{ split; [discriminate|]. intros (v & [=] & _). }
    assert (Hnum : v <> JStr "unbounded" ->
              match MaxOccursNum (parseIntOf v) with
              | Unbounded => true
              | MaxOccursNum (Int z) => (1 <? z)%Z
              | MaxOccursNum NaN => false
              end = true
              <-> exists v', Some v = Some v'
                             /\ (v' = JStr "unbounded"
                                 \/ exists z, ParseInt.parseInt (renderVal v') = Int z
                                              /\ (1 < z)%Z)).
    { intros Hne. unfold parseIntOf.
      destruct (ParseInt.parseInt (renderVal v)) as [|z] eqn:Hv.
      - split; [discriminate|].
        intros (v' & [= <-] & [H|(z & H & _)]); congruence.
      - split.
        + intros H. apply Z.ltb_lt in H. exists v. split; [reflexivity|].
          right. now exists z.
        + intros (v' & [= <-] & [H|(z' & H & Hz)]); [congruence|].
          rewrite Hv in H. injection H as <-. now apply Z.ltb_lt. }
    destruct v as [m|t|b|items|fields]; try (apply Hnum; discriminate).
    destruct (String.eqb_spec m "unbounded") as [->|Hne].
    + split; [|reflexivity]. intros _. exists (JStr "unbounded"). auto.
    + apply Hnum. congruence.
Qed.

Lemma parsed_element_cardinality_witness :
  exists e : XsdElement,
    parseElement 1
      (JObj [("name", JStr "item"); ("type", JStr "xs:string");
             ("minOccurs", JStr "0"); ("maxOccurs", JStr "unbounded")])
      (Some "xs") = Ok (Some e)
    /\ me_optional (mapElement asWritten original emptySchema e) = true
    /\ isArray (mapElement asWritten original emptySchema e) = true.
Proof.
  eexists. split; [vm_compute; reflexivity|].
  match goal with
  | |- me_optional (mapElement _ _ _ ?e) = true /\ _ =>
      destruct (parsed_element_cardinality asWritten original emptySchema 1
                  (JObj [("name", JStr "item"); ("type", JStr "xs:string");
                         ("minOccurs", JStr "0"); ("maxOccurs", JStr "unbounded")])
                  (Some "xs") e eq_refl) as [Hopt Harr]
  end.
  split.
  - apply Hopt. exists (JStr "0"). split; reflexivity.
  - apply Harr. exists (JStr "unbounded"). split; [reflexivity | now left].
Defined.

(** Two child elements named [minOccurs] leave an array under that key,
    whose text [parseInt] reads up to the first character that is no digit. *)
Example cardinality_of_child_elements :
  exists e : XsdElement,
    parseElement 1
      (JObj [("name", JStr "item");
             ("minOccurs", JArr [JStr "0a"; JStr "b"]);
             ("maxOccurs", JArr [JStr "5x"; JStr "y"])])
      (Some "xs") = Ok (Some e)
    /\ minOccurs e = Some (Int 0) /\ maxOccurs e = Some (MaxOccursNum (Int 5)).
Proof. eexists. split; [vm_compute; reflexivity|]. split; reflexivity. Qed.

(** ** The edges of the complex mapper *)

(** X18.  A complex type without content and without attributes is mapped to the
    empty interface and the empty object, and no other is; a complex type
    without a name, or with an empty one, is mapped under the names
    [AnonymousType] and [anonymousSchema]. *)
Theorem mapComplexType_edges :
  forall (ext : Externals) (naming : NamingConvention) (schema : XsdSchema)
         (complexType : XsdComplexType),
    let mapped := mapComplexType ext naming schema complexType in
    (zodObject mapped = "z.object({})"
     <-> content complexType = [] /\ ct_attributes complexType = [])
    /\ (tsInterface mapped = "{}"
        <-> content complexType = [] /\ ct_attributes complexType = [])
    /\ (Js.truthyStr (ct_name complexType) = false ->
        typeName mapped = "AnonymousType" /\ schemaName mapped = "anonymousSchema").
Proof.
  intros ext naming schema [nm sq ch al attrs ex ct]. cbv zeta.
  cbn [mapComplexType zodObject tsInterface typeName schemaName content
       ct_attributes ct_name].
  assert (Hfields : forall (A B : Type) (f : A -> Field) (g : B -> Field) l1 l2,
            map f l1 ++ map g l2 = [] <-> l1 = [] /\ l2 = []).
  { intros A B f g l1 l2. split.
    - intros H. apply app_eq_nil in H as [H1 H2].
      apply map_eq_nil in H1, H2. auto.
    - intros [-> ->]. reflexivity. }
  unfold mapAttributes. rewrite map_map.
  split; [|split].
  - rewrite <- (Hfields _ _ (fun x => fieldOfElement (mapElement ext naming schema x))
                  (fun x => fieldOfAttribute (mapAttribute ext x naming schema)) ct attrs).
    rewrite map_map.
    destruct (map _ ct ++ map _ attrs) as [|f fs]; [tauto|].
    split; [|discriminate]. intros H.
    apply (f_equal (String.get 10)) in H. vm_compute in H. discriminate.
  - rewrite <- (Hfields _ _ (fun x => fieldOfElement (mapElement ext naming schema x))
                  (fun x => fieldOfAttribute (mapAttribute ext x naming schema)) ct attrs).
    rewrite map_map.
    destruct (map _ ct ++ map _ attrs) as [|f fs]; [tauto|].
    split; [|discriminate]. intros H.
    apply (f_equal (String.get 1)) in H. vm_compute in H. discriminate.
  - intros ->. auto.
Qed.

(** ** Simple types that restrict a declared simple type *)

(** The call that an integer facet adds to a validator: none for a facet
    that is absent, 0 or [NaN]. *)
Definition intCall (method : string) (facet : option JsInt) : string :=
  match facet with
  | Some (Int z) =>
      if Z.eqb z 0 then "" else "." +:+ method +:+ "(" +:+ intText (Int z) +:+ ")"
  | _ => ""
  end.

(** The call that a bound adds: none for a bound that is absent. *)
Definition floatCall (ext : Externals) (method : string) (facet : option JsFloat)
    : string :=
  match facet with
  | Some (ParseFloat literal) => "." +:+ method +:+ "(" +:+ floatText ext literal +:+ ")"
  | None => ""
  end.

Definition patternCall (pattern : option string) : string :=
  match pattern with
  | Some p => if Js.nonEmpty p then ".regex(/" +:+ escapeBackslashes p +:+ "/)" else ""
  | None => ""
  end.

(** The calls of the facets of a restriction, in the order in which they
    are written. *)
Definition facetCalls (ext : Externals) (f : XsdRestriction) : string :=
  intCall "min" (minLength f) +:+ intCall "max" (maxLength f)
  +:+ intCall "length" (length_ f) +:+ patternCall (pattern f)
  +:+ floatCall ext "min" (minInclusive f) +:+ floatCall ext "max" (maxInclusive f)
  +:+ floatCall ext "gt" (minExclusive f) +:+ floatCall ext "lt" (maxExclusive f).

Lemma callWithInt_call (m : string) (o : option JsInt) (z : string) :
  callWithInt m o z = z +:+ intCall m o.
Proof.
  unfold callWithInt, intCall. destruct o as [[|n]|]; cbn [truthyInt];
    rewrite ?string_app_nil_r; try reflexivity.
  destruct (Z.eqb n 0); cbn [negb]; now rewrite ?string_app_nil_r.
Qed.

Lemma callWithFloat_call (ext : Externals) (m : string) (o : option JsFloat)
    (z : string) :
  callWithFloat ext m o z = z +:+ floatCall ext m o.
Proof.
  unfold callWithFloat, floatCall. destruct o as [[l]|]; now rewrite ?string_app_nil_r.
Qed.

Lemma facets_chain (ext : Externals) (f : XsdRestriction) (z : string) :
  callWithFloat ext "lt" (maxExclusive f)
    (callWithFloat ext "gt" (minExclusive f)
       (callWithFloat ext "max" (maxInclusive f)
          (callWithFloat ext "min" (minInclusive f)
             (match pattern f with
              | Some p => if Js.nonEmpty p
                          then callWithInt "length" (length_ f)
                                 (callWithInt "max" (maxLength f)
                                    (callWithInt "min" (minLength f) z))
                               +:+ ".regex(/" +:+ escapeBackslashes p +:+ "/)"
                          else callWithInt "length" (length_ f)
                                 (callWithInt "max" (maxLength f)
                                    (callWithInt "min" (minLength f) z))
              | None => callWithInt "length" (length_ f)
                          (callWithInt "max" (maxLength f)
                             (callWithInt "min" (minLength f) z))
              end))))
  = z +:+ facetCalls ext f.
Proof.
  assert (Hp : forall y,
            match pattern f with
            | Some p => if Js.nonEmpty p
                        then y +:+ ".regex(/" +:+ escapeBackslashes p +:+ "/)"
                        else y
            | None => y
            end = y +:+ patternCall (pattern f)).
  { intros y. unfold patternCall. destruct (pattern f) as [p|];
      [destruct (Js.nonEmpty p)|]; now rewrite ?string_app_nil_r. }
  rewrite Hp, !callWithFloat_call, !callWithInt_call. unfold facetCalls.
  now rewrite !string_app_assoc.
Qed.



(** ** Inline complex types *)

(** X20.  The inline complex type of a parsed element bears the name of the
    element.  A field of that element therefore refers to the type and to
    the schema named after the element, and that schema is the one that
    [generateElementValidators] declares when it first meets the element:
    reference and declaration agree. *)
Theorem inline_type_is_named_after_element :
  forall (ext : Externals) (naming : NamingConvention) (schema : XsdSchema)
         (fuel : nat) (el : JsVal) (p : option string) (e : XsdElement)
         (c : XsdComplexType) (n : string),
    parseElement fuel el p = Ok (Some e) ->
    el_complexType e = Some c -> named el_name e n ->
    ct_name c = Some n
    /\ elementTypeMapping ext naming schema
         (Some (mapComplexType ext naming schema c)) e
       = mkTypeMapping (getTypeName ext (Some n) naming)
                       (getSchemaName ext (Some n) naming)
    /\ forall st, n ∉ processedElements st ->
         exists rest,
           validators (processElement ext schema naming e st)
           = validators st
             ++ exportConst (getSchemaName ext (Some n) naming)
                  (zodObject (mapComplexType ext naming schema c)) :: rest.
Proof.
  intros ext naming schema fuel el p e c n Hparse Hc [Hn Hne].
  assert (Hname : ct_name c = Some n).
  { destruct fuel as [|fuel]; [discriminate|]. rewrite parseElement_eq in Hparse.
    destruct (negb (Tree.truthy el)); [discriminate|].
    apply bind_Ok in Hparse as (attrs & _ & H).
    apply bind_Ok in H as (complexType & _ & H).
    apply bind_Ok in H as (ct & Hct & H).
    apply bind_Ok in H as (simpleType & _ & H).
    apply bind_Ok in H as (st & _ & [= <-]).
    simpl in Hc, Hn. subst ct.
    destruct complexType as [node|]; [|discriminate].
    destruct (Tree.truthy node); [|discriminate].
    apply parseComplexType_named in Hct. congruence. }
  split; [exact Hname|]. split.
  - unfold elementTypeMapping. destruct c as [nm sq ch al attrs ex ct].
    simpl in Hname. subst nm. cbn [mapComplexType typeName schemaName ct_name].
    simpl Js.truthyStr. now rewrite Hne.
  - intros st Hfresh. rewrite processElement_eq, Hn, Hne, Hc. cbn [negb orb].
    rewrite (bool_decide_eq_false_2 _ Hfresh). cbv zeta.
    match goal with
    | |- context [processElements _ _ _ ?l ?s] =>
        assert (Hg : grown s (processElements ext schema naming l s))
    end.
    { apply processElements_grown. intros e' st' _.
      apply (processElement_grown ext schema naming (S (contentSize e'))). lia. }
    destruct Hg as [_ (added & Hadded & _)]. rewrite Hadded. simpl.
    exists added. now rewrite <- app_assoc.
Qed.

Lemma inline_type_is_named_after_element_witness :
  exists (e : XsdElement) (c : XsdComplexType),
    parseElement 4 inlineElement (Some "xs") = Ok (Some e)
    /\ el_complexType e = Some c
    /\ ct_name c = Some "field3".
Proof.
  do 2 eexists. split; [vm_compute; reflexivity|]. split; [reflexivity|].
  match goal with
  | |- ct_name ?c = _ =>
      apply (proj1 (inline_type_is_named_after_element asWritten original emptySchema
               4 inlineElement (Some "xs") _ c "field3" eq_refl eq_refl
               (conj eq_refl eq_refl)))
  end.
Defined.
